(** * preact-embed: the widget mounting engine, embedded and verified

    A shallow embedding of the parts of the library that carry state and
    invariants: the property extractor ([camelCase], the per-attribute
    coercion, [collectProps]), the event bus ([HabitatEventBus]) and the
    lifecycle manager ([habitat]: [renderOne] with its [unmount] and
    [update] closures, the lazy observer, [unmountAll], [renderAll]).

    JavaScript objects used as dictionaries are finite maps, object
    identity (elements, closures, observers, sets) is a number, mutation
    is explicit state passing, and everything the library only calls
    (the component runtime's [render]/[hydrate], [console], the DOM) is
    recorded in a log of events.  [Lifecycle] follows the calls that
    return; [PlatformErrors] gives the same functions with the calls
    that can throw. *)

From Stdlib Require Import ZArith NArith Ascii String List Lia.
From stdpp Require Import gmap strings list fin_maps pretty.

Set Warnings "-register-all".
Open Scope string_scope.

(* ===================================================================== *)
(** * JavaScript values                                                   *)
(* ===================================================================== *)

(** A JavaScript number.  [Fin neg m e] is [(-1)^neg * m * 10^e]; every
    finite binary64 value has such a form. *)
Inductive number : Type :=
  | NaN
  | Inf (neg : bool)
  | Fin (neg : bool) (m : N) (e : Z).

Inductive value : Type :=
  | VUndefined
  | VNull
  | VBool (b : bool)
  | VNum (n : number)
  | VStr (s : string)
  | VArr (l : list value)
  | VObj (o : gmap string value).

(** [Record<string, unknown>] and every props object [P]. *)
Abbreviation Props := (gmap string value).

(** The global [isNaN] applied to a number. *)
Definition isNaN (n : number) : bool :=
  match n with NaN => true | _ => false end.

(** The [typeof] operator. *)
Definition typeof (v : value) : string :=
  match v with
  | VUndefined => "undefined"
  | VNull => "object"
  | VBool _ => "boolean"
  | VNum _ => "number"
  | VStr _ => "string"
  | VArr _ => "object"
  | VObj _ => "object"
  end.

(** Object spread [{ ...a, ...b }]: the keys of [b] win. *)
Definition spread (a b : Props) : Props := b ∪ a.

(** The assignment [obj[key] = v] on a plain object that has no own
    property named [__proto__].  That key is the accessor that plain
    objects inherit: assigning to it runs the prototype setter and
    creates no own property, so the own keys stay as they were.  Every
    other key becomes an own property.  (Object spread and [JSON.parse]
    define properties instead of assigning them, and do create an own
    [__proto__] key; an object that has one would have it overwritten
    by the assignment.  The objects assigned to below start empty or as
    a copy of the caller's defaults, and the defaults are taken to have
    no own property of that name.) *)
Definition assign (key : string) (v : value) (obj : Props) : Props :=
  if String.eqb key "__proto__" then obj else <[key := v]> obj.

(** The own enumerable properties that [{ ...v }] copies out of an
    arbitrary value: the fields of an object, the indices of an array,
    the characters of a string, nothing for the other primitives. *)
Fixpoint indexed {A} (f : A → value) (i : nat) (l : list A) : Props :=
  match l with
  | [] => ∅
  | x :: r => <[pretty i := f x]> (indexed f (S i) r)
  end.

Definition ownProps (v : value) : Props :=
  match v with
  | VObj o => o
  | VArr l => indexed (λ x, x) 0 l
  | VStr s => indexed (λ c, VStr (String c EmptyString)) 0 (list_ascii_of_string s)
  | _ => ∅
  end.

(** [Object.assign(target, source)]: every own enumerable property of
    the source is assigned to the target, so a source key [__proto__]
    creates no own property of a target that has none. *)
Definition Object_assign (target : Props) (source : value) : Props :=
  spread target (delete "__proto__" (ownProps source)).

(** The two built-ins the extractor calls.  They belong to the host
    platform, not to this library, so the embedding takes them as a
    parameter: [Number_ s] is [Number(s)], and [JSON_parse s] is
    [Some v] when [JSON.parse(s)] returns [v], [None] when it throws. *)
Record Platform : Type := {
  Number_ : string → number;
  JSON_parse : string → option value;
}.

(* ===================================================================== *)
(** * PropExtractor                                                       *)
(* ===================================================================== *)

Module PropExtractor.

(** ** camelCase: [str.replace(/-([a-z])/gi, (_, l) => l.toUpperCase())] *)

Definition is_lower (c : ascii) : bool :=
  let n := nat_of_ascii c in (97 <=? n)%nat && (n <=? 122)%nat.

Definition is_upper (c : ascii) : bool :=
  let n := nat_of_ascii c in (65 <=? n)%nat && (n <=? 90)%nat.

(** The class [[a-z]] under the [i] flag. *)
Definition is_letter (c : ascii) : bool := is_lower c || is_upper c.

(** [toUpperCase] on a one-character string matched by the class. *)
Definition toUpperCase (c : ascii) : ascii :=
  if is_lower c then ascii_of_nat (nat_of_ascii c - 32) else c.

Definition hyphen : ascii := "-"%char.

(** A global replace scans left to right; a match consumes the hyphen
    and the letter, and the scan resumes after them. *)
Fixpoint camelCase (str : string) : string :=
  match str with
  | EmptyString => EmptyString
  | String c rest =>
      if Ascii.eqb c hyphen then
        match rest with
        | String l rest' =>
            if is_letter l then String (toUpperCase l) (camelCase rest')
            else String c (camelCase rest)
        | EmptyString => String c EmptyString
        end
      else String c (camelCase rest)
  end.

(** The lite build's [cc] is the same expression. *)
Definition cc (s : string) : string := camelCase s.

(** [s] has a hyphen directly followed by a letter. *)
Fixpoint hyphen_letter (s : string) : bool :=
  match s with
  | EmptyString => false
  | String c rest =>
      (Ascii.eqb c hyphen &&
         match rest with String l _ => is_letter l | EmptyString => false end)
      || hyphen_letter rest
  end.

(** [s] has two hyphens directly followed by a letter. *)
Fixpoint hyphen_hyphen_letter (s : string) : bool :=
  match s with
  | EmptyString => false
  | String c rest =>
      (Ascii.eqb c hyphen &&
         match rest with
         | String c' (String l _) => Ascii.eqb c' hyphen && is_letter l
         | _ => false
         end)
      || hyphen_hyphen_letter rest
  end.

(** [s] starts with a letter. *)
Definition head_letter (s : string) : bool :=
  match s with String l _ => is_letter l | EmptyString => false end.

(** ** Per-attribute coercion *)

(** The [if]/[else if] chain in the loop of [getPropsFromAttributes]. *)
Definition coerce (P : Platform) (v : string) : value :=
  if String.eqb v "true" then VBool true
  else if String.eqb v "false" then VBool false
  else if String.eqb v "null" then VNull
  else if negb (isNaN (Number_ P v)) && negb (String.eqb v EmptyString) then VNum (Number_ P v)
  else
    match JSON_parse P v with
    | Some parsed => if String.eqb (typeof parsed) "object" then parsed else VStr v
    | None => VStr v
    end.

(** The lite build's [pv]. *)
Definition pv (P : Platform) (v : string) : value :=
  if String.eqb v "true" then VBool true
  else if String.eqb v "false" then VBool false
  else if String.eqb v "null" then VNull
  else
    let n := Number_ P v in
    if negb (isNaN n) && negb (String.eqb v EmptyString) then VNum n
    else
      match JSON_parse P v with
      | Some parsed => parsed
      | None => VStr v
      end.

(** The coercion as the specification words it: booleans, null, a
    non-empty numeric string, then a structured document kept only when
    it is an object or an array, and the raw string otherwise. *)
Definition is_object_or_array (v : value) : bool :=
  match v with VObj _ | VArr _ => true | _ => false end.

Definition coerce_spec (P : Platform) (v : string) : value :=
  if String.eqb v "true" then VBool true
  else if String.eqb v "false" then VBool false
  else if String.eqb v "null" then VNull
  else if negb (String.eqb v EmptyString) && negb (isNaN (Number_ P v)) then VNum (Number_ P v)
  else
    match JSON_parse P v with
    | Some parsed => if is_object_or_array parsed then parsed else VStr v
    | None => VStr v
    end.

(** One of the first three rules of the coercion applies to [v]. *)
Definition literal_or_numeric (P : Platform) (v : string) : bool :=
  String.eqb v "true" || String.eqb v "false" || String.eqb v "null"
  || (negb (String.eqb v EmptyString) && negb (isNaN (Number_ P v))).

(** ** Host elements as the extractor reads them *)

Inductive Diagnostic : Type :=
  | JsonParseFailed (json : string)
  | AlreadyMounted
  | AlreadyRegistered (tagName : string).

(** A child node of a host element: a prop script (a [script] of type
    [application/json] or [text/props], with its [innerHTML]), or any
    other node, with the [innerHTML] of the prop scripts below it in
    document order. *)
Inductive ChildNode : Type :=
  | PropScript (innerHTML : string)
  | OtherNode (nested : list string).

Record HostData : Type := {
  attributes : list (string * string);
  childNodes : list ChildNode;
}.

Definition slice (n : nat) (s : string) : string :=
  String.substring n (String.length s - n) s.

(** [getPropsFromAttributes]: one pass over the attributes in order. *)
Definition getPropsFromAttributes (P : Platform) (element : HostData) : Props :=
  fold_left
    (λ (props : Props) (attr : string * string),
       if String.prefix "data-prop-" (fst attr)
       then assign (camelCase (slice 10 (fst attr))) (coerce P (snd attr)) props
       else props)
    (attributes element) ∅.

(** [String.prototype.trim] on code units below 256. *)
Definition is_space (c : ascii) : bool :=
  let n := nat_of_ascii c in
  ((9 <=? n)%nat && (n <=? 13)%nat) || (n =? 32)%nat || (n =? 160)%nat.

Fixpoint trimStart (s : string) : string :=
  match s with
  | String c r => if is_space c then trimStart r else s
  | EmptyString => EmptyString
  end.

Fixpoint trimEnd (s : string) : string :=
  match s with
  | String c r =>
      match trimEnd r with
      | EmptyString => if is_space c then EmptyString else String c EmptyString
      | r' => String c r'
      end
  | EmptyString => EmptyString
  end.

Definition trim (s : string) : string := trimEnd (trimStart s).

(** [safeJsonParse]: the parsed value, or the fallback and a warning. *)
Definition safeJsonParse (P : Platform) (json : string) (fallback : value)
  : value * list Diagnostic :=
  match JSON_parse P json with
  | Some v => (v, [])
  | None => (fallback, [JsonParseFailed json])
  end.

(** [element.querySelectorAll] for the two script types: the prop
    scripts among the descendants, in document order. *)
Definition propScripts (element : HostData) : list string :=
  flat_map (λ c, match c with PropScript h => [h] | OtherNode nested => nested end)
           (childNodes element).

(** [getPropsFromScripts]: the prop scripts in document order, each
    spread over what the earlier ones gave. *)
Definition getPropsFromScripts (P : Platform) (element : HostData)
  : Props * list Diagnostic :=
  fold_left
    (λ (acc : Props * list Diagnostic) (innerHTML : string),
       let content := trim innerHTML in
       if String.eqb content EmptyString then acc
       else
         let '(parsed, w) := safeJsonParse P content (VObj ∅) in
         (spread (fst acc) (ownProps parsed), (snd acc ++ w)%list))
    (propScripts element) (∅, []).

(** [collectProps]: [{ ...defaultProps, ...scriptProps, ...attrProps }]. *)
Definition collectProps (P : Platform) (element : HostData) (defaultProps : Props)
  : Props * list Diagnostic :=
  let attrProps := getPropsFromAttributes P element in
  let '(scriptProps, w) := getPropsFromScripts P element in
  (spread (spread defaultProps scriptProps) attrProps, w).

(** The lite build's [gp]: a copy of the defaults, then the attributes
    assigned to it, then the first prop script assigned on top. *)
Definition gp (P : Platform) (el : HostData) (d : Props) : Props :=
  let p :=
    fold_left
      (λ (p : Props) (a : string * string),
         if String.prefix "data-prop-" (fst a)
         then assign (cc (slice 10 (fst a))) (pv P (snd a)) p
         else p)
      (attributes el) d in
  match propScripts el with
  | s :: _ =>
      match JSON_parse P s with
      | Some parsed => Object_assign p parsed
      | None => p
      end
  | [] => p
  end.

End PropExtractor.

(* ===================================================================== *)
(** * A reference platform                                                *)
(* ===================================================================== *)

(** A concrete [Number] and [JSON.parse] on which the concrete examples
    are evaluated.  [Number] follows the StringToNumber grammar (white
    space trimmed, the empty string is 0, an optional sign, [Infinity],
    decimal literals with fraction and exponent, and the [0x], [0o] and
    [0b] forms); [JSON.parse] follows the JSON grammar except for the
    [\u] escape, which it rejects.  Numbers are kept as exact decimals. *)
Module RefPlatform.

Import PropExtractor.

Definition digit_in (base : N) (c : ascii) : option N :=
  let n := N.of_nat (nat_of_ascii c) in
  let d :=
    if (48 <=? n)%N && (n <=? 57)%N then Some (n - 48)%N
    else if (97 <=? n)%N && (n <=? 102)%N then Some (n - 87)%N
    else if (65 <=? n)%N && (n <=? 70)%N then Some (n - 55)%N
    else None in
  match d with
  | Some k => if (k <? base)%N then Some k else None
  | None => None
  end.

(** The longest run of digits at the head of [s]: its value, its length
    and what follows. *)
Fixpoint digits (base acc : N) (cnt : nat) (s : string) : N * nat * string :=
  match s with
  | String c r =>
      match digit_in base c with
      | Some d => digits base (base * acc + d)%N (S cnt) r
      | None => (acc, cnt, s)
      end
  | EmptyString => (acc, cnt, s)
  end.

(** An optional exponent part; [None] when an [e] has no digits. *)
Definition exponent (s : string) : option (Z * string) :=
  match s with
  | String c r =>
      if Ascii.eqb c "e"%char || Ascii.eqb c "E"%char then
        let '(neg, r1) :=
          match r with
          | String s' r' =>
              if Ascii.eqb s' "-"%char then (true, r')
              else if Ascii.eqb s' "+"%char then (false, r')
              else (false, r)
          | EmptyString => (false, r)
          end in
        let '(v, n, r2) := digits 10 0 0 r1 in
        if (n =? 0)%nat then None
        else Some (if neg then (- Z.of_N v)%Z else Z.of_N v, r2)
      else Some (0%Z, s)
  | EmptyString => Some (0%Z, s)
  end.

Record Decimal : Type := {
  int_digits : nat;
  frac_digits : nat;
  has_point : bool;
  mantissa : N;
  exponent10 : Z;
  leading_zero : bool;
}.

Definition scan_decimal (s : string) : option (Decimal * string) :=
  let '(i, ni, r) := digits 10 0 0 s in
  let '(m, nf, point, r1) :=
    match r with
    | String c r' =>
        if Ascii.eqb c "."%char
        then let '(m, nf, r'') := digits 10 i 0 r' in (m, nf, true, r'')
        else (i, 0%nat, false, r)
    | EmptyString => (i, 0%nat, false, r)
    end in
  match exponent r1 with
  | Some (e, r2) =>
      Some ({| int_digits := ni; frac_digits := nf; has_point := point;
               mantissa := m; exponent10 := (e - Z.of_nat nf)%Z;
               leading_zero := String.prefix "0" s |}, r2)
  | None => None
  end.

(** Trailing decimal zeros move from the mantissa to the exponent. *)
Fixpoint norm10 (fuel : nat) (m : N) (e : Z) : N * Z :=
  match fuel with
  | O => (m, e)
  | S f =>
      if (m =? 0)%N then (0%N, 0%Z)
      else if (m mod 10 =? 0)%N then norm10 f (m / 10)%N (e + 1)%Z
      else (m, e)
  end.

Definition fin (neg : bool) (m : N) (e : Z) : number :=
  let '(m', e') := norm10 (S (N.to_nat (N.size m))) m e in Fin neg m' e'.

Definition radix_literal (base : N) (s : string) : number :=
  let '(v, n, r) := digits base 0 0 s in
  if negb (n =? 0)%nat && String.eqb r EmptyString then fin false v 0 else NaN.

Definition ref_Number (s : string) : number :=
  let t := trim s in
  if String.eqb t EmptyString then Fin false 0 0
  else if String.prefix "0x" t || String.prefix "0X" t then radix_literal 16 (slice 2 t)
  else if String.prefix "0o" t || String.prefix "0O" t then radix_literal 8 (slice 2 t)
  else if String.prefix "0b" t || String.prefix "0B" t then radix_literal 2 (slice 2 t)
  else
    let '(neg, u) :=
      match t with
      | String c r =>
          if Ascii.eqb c "-"%char then (true, r)
          else if Ascii.eqb c "+"%char then (false, r)
          else (false, t)
      | EmptyString => (false, t)
      end in
    if String.eqb u "Infinity" then Inf neg
    else
      match scan_decimal u with
      | Some (d, r) =>
          if String.eqb r EmptyString && negb (int_digits d + frac_digits d =? 0)%nat
          then fin neg (mantissa d) (exponent10 d)
          else NaN
      | None => NaN
      end.

(** JSON white space. *)
Definition is_json_ws (c : ascii) : bool :=
  let n := nat_of_ascii c in
  (n =? 32)%nat || (n =? 9)%nat || (n =? 10)%nat || (n =? 13)%nat.

Fixpoint skip_ws (s : string) : string :=
  match s with
  | String c r => if is_json_ws c then skip_ws r else s
  | EmptyString => EmptyString
  end.

Definition quote : ascii := ascii_of_nat 34.
Definition backslash : ascii := ascii_of_nat 92.

Definition unescape (c : ascii) : option ascii :=
  if Ascii.eqb c quote then Some quote
  else if Ascii.eqb c backslash then Some backslash
  else if Ascii.eqb c "/"%char then Some "/"%char
  else if Ascii.eqb c "b"%char then Some (ascii_of_nat 8)
  else if Ascii.eqb c "f"%char then Some (ascii_of_nat 12)
  else if Ascii.eqb c "n"%char then Some (ascii_of_nat 10)
  else if Ascii.eqb c "r"%char then Some (ascii_of_nat 13)
  else if Ascii.eqb c "t"%char then Some (ascii_of_nat 9)
  else None.

(** The characters after an opening quote, up to the closing one. *)
Fixpoint string_body (s : string) : option (string * string) :=
  match s with
  | EmptyString => None
  | String c r =>
      if Ascii.eqb c quote then Some (EmptyString, r)
      else if Ascii.eqb c backslash then
        match r with
        | String e r' =>
            match unescape e, string_body r' with
            | Some ch, Some (body, rest) => Some (String ch body, rest)
            | _, _ => None
            end
        | EmptyString => None
        end
      else if (nat_of_ascii c <? 32)%nat then None
      else
        match string_body r with
        | Some (body, rest) => Some (String c body, rest)
        | None => None
        end
  end.

Definition json_number (s : string) : option (value * string) :=
  let '(neg, u) :=
    match s with
    | String c r => if Ascii.eqb c "-"%char then (true, r) else (false, s)
    | EmptyString => (false, s)
    end in
  match scan_decimal u with
  | Some (d, r) =>
      if (int_digits d =? 0)%nat then None
      else if leading_zero d && negb (int_digits d =? 1)%nat then None
      else if has_point d && (frac_digits d =? 0)%nat then None
      else Some (VNum (fin neg (mantissa d) (exponent10 d)), r)
  | None => None
  end.

Definition literal (word : string) (v : value) (s : string) : option (value * string) :=
  if String.prefix word s then Some (v, slice (String.length word) s) else None.

Fixpoint parse_value (fuel : nat) (s : string) : option (value * string) :=
  match fuel with
  | O => None
  | S f =>
      match skip_ws s with
      | EmptyString => None
      | String c r as t =>
          if Ascii.eqb c "["%char then
            match skip_ws r with
            | String c' r' as t' =>
                if Ascii.eqb c' "]"%char then Some (VArr [], r')
                else
                  (fix elems (n : nat) (u : string) (acc : list value) :=
                     match n with
                     | O => None
                     | S n' =>
                         match parse_value f u with
                         | Some (v, u') =>
                             match skip_ws u' with
                             | String d u'' =>
                                 if Ascii.eqb d ","%char then elems n' u'' (acc ++ [v])%list
                                 else if Ascii.eqb d "]"%char then Some (VArr (acc ++ [v])%list, u'')
                                 else None
                             | EmptyString => None
                             end
                         | None => None
                         end
                     end) f t' []
            | EmptyString => None
            end
          else if Ascii.eqb c "{"%char then
            match skip_ws r with
            | String c' r' as t' =>
                if Ascii.eqb c' "}"%char then Some (VObj ∅, r')
                else
                  (fix members (n : nat) (u : string) (acc : Props) :=
                     match n with
                     | O => None
                     | S n' =>
                         match skip_ws u with
                         | String q u1 =>
                             if Ascii.eqb q quote then
                               match string_body u1 with
                               | Some (key, u2) =>
                                   match skip_ws u2 with
                                   | String colon u3 =>
                                       if Ascii.eqb colon ":"%char then
                                         match parse_value f u3 with
                                         | Some (v, u4) =>
                                             match skip_ws u4 with
                                             | String d u5 =>
                                                 if Ascii.eqb d ","%char
                                                 then members n' u5 (<[key := v]> acc)
                                                 else if Ascii.eqb d "}"%char
                                                 then Some (VObj (<[key := v]> acc), u5)
                                                 else None
                                             | EmptyString => None
                                             end
                                         | None => None
                                         end
                                       else None
                                   | EmptyString => None
                                   end
                               | None => None
                               end
                             else None
                         | EmptyString => None
                         end
                     end) f t' ∅
            | EmptyString => None
            end
          else if Ascii.eqb c quote then
            match string_body r with
            | Some (body, rest) => Some (VStr body, rest)
            | None => None
            end
          else if Ascii.eqb c "t"%char then literal "true" (VBool true) t
          else if Ascii.eqb c "f"%char then literal "false" (VBool false) t
          else if Ascii.eqb c "n"%char then literal "null" VNull t
          else json_number t
      end
  end.

Definition ref_JSON_parse (s : string) : option value :=
  match parse_value (S (String.length s)) s with
  | Some (v, r) => if String.eqb (skip_ws r) EmptyString then Some v else None
  | None => None
  end.

Definition ref : Platform :=
  {| Number_ := ref_Number; JSON_parse := ref_JSON_parse |}.

(** A string literal cannot hold a quote character here, so the JSON
    texts of the examples are assembled with [q]. *)
Definition q : string := String quote EmptyString.

Definition num (z : Z) : value := VNum (fin (z <? 0)%Z (Z.abs_N z) 0).

(** The host element of the precedence example: one attribute
    [data-prop-c] with value 5 and one prop script with the fields b = 3 and c = 4. *)
Definition precedence_host : HostData :=
  {| attributes := [("data-prop-c", "5")];
     childNodes :=
       [PropScript ("{" ++ q ++ "b" ++ q ++ ":3," ++ q ++ "c" ++ q ++ ":4}")] |}.

Definition precedence_defaults : Props :=
  <["a" := num 1]> (<["b" := num 2]> ∅).

End RefPlatform.

(* ===================================================================== *)
(** * EventBus                                                            *)
(* ===================================================================== *)

Module EventBus.

Local Open Scope list_scope.

(** A callback is a function object, known by its identity.  What it
    does when called is given by the environment: the operations it
    performs on the bus, in order, and whether it ends by throwing. *)
Definition Callback : Type := nat.

Inductive Action : Type :=
  | DoOn (event : string) (callback : Callback)
  | DoOff (event : string) (callback : Callback)
  | DoEmit (event : string) (args : list value)
  | DoClear
  | DoThrow.

Definition Behaviour : Type := Callback → list value → list Action.

(** A [Set<EventCallback>] as the language defines it: the list of its
    entries in insertion order, where [delete] leaves a hole ([None])
    and [add] appends unless the value is present. *)
Abbreviation CallbackSet := (list (option Callback)).

Definition set_has (s : CallbackSet) (c : Callback) : bool :=
  bool_decide (Some c ∈ s).

Definition set_add (s : CallbackSet) (c : Callback) : CallbackSet :=
  if set_has s c then s else s ++ [Some c].

Definition set_delete (s : CallbackSet) (c : Callback) : CallbackSet :=
  (λ e, if bool_decide (e = Some c) then None else e) <$> s.

(** The values of a set, in iteration order. *)
Definition set_values (s : CallbackSet) : list Callback := omap id s.

(** [events : Map<string, Set<EventCallback>>].  A set is an object: the
    map holds its address in [heap], so that [clear] detaches a set a
    running [forEach] keeps iterating. *)
Record Bus : Type := {
  events : gmap string nat;
  heap : list CallbackSet;
}.

Definition empty_bus : Bus := {| events := ∅; heap := [] |}.

Definition on (event : string) (callback : Callback) (b : Bus) : Bus :=
  let b1 :=
    match events b !! event with
    | Some _ => b
    | None => {| events := <[event := length (heap b)]> (events b);
                 heap := heap b ++ [[]] |}
    end in
  match events b1 !! event with
  | Some a => {| events := events b1;
                 heap := alter (λ s, set_add s callback) a (heap b1) |}
  | None => b1
  end.

Definition off (event : string) (callback : Callback) (b : Bus) : Bus :=
  match events b !! event with
  | Some a => {| events := events b;
                 heap := alter (λ s, set_delete s callback) a (heap b) |}
  | None => b
  end.

Definition clear (b : Bus) : Bus := {| events := ∅; heap := heap b |}.

(** The subscribers of a topic, in iteration order. *)
Definition subscribers (b : Bus) (event : string) : list Callback :=
  match events b !! event with
  | Some a => set_values (default [] (heap b !! a))
  | None => []
  end.

Inductive Event : Type :=
  | Called (callback : Callback) (args : list value)
  | ErrorLogged (event : string).

(** [emit] as a machine.  A frame is either a [forEach] in progress (the
    set it walks, the index of the next entry, the topic and the
    arguments) or a callback in progress (what it still has to do, and
    the topic whose [try] block it runs in). *)
Inductive Frame : Type :=
  | ForEach (set : nat) (index : nat) (event : string) (args : list value)
  | Running (todo : list Action) (event : string).

Record Machine : Type := {
  bus : Bus;
  trace : list Event;
  stack : list Frame;
}.

(** [this.events.get(event)?.forEach(...)]: the frames a call of [emit]
    pushes. *)
Definition emit_frames (b : Bus) (event : string) (args : list value) : list Frame :=
  match events b !! event with
  | Some a => [ForEach a 0 event args]
  | None => []
  end.

Definition step (beh : Behaviour) (m : Machine) : Machine :=
  match stack m with
  | [] => m
  | ForEach a i event args :: k =>
      match default [] (heap (bus m) !! a) !! i with
      | None => {| bus := bus m; trace := trace m; stack := k |}
      | Some None =>
          {| bus := bus m; trace := trace m; stack := ForEach a (S i) event args :: k |}
      | Some (Some c) =>
          {| bus := bus m;
             trace := trace m ++ [Called c args];
             stack := Running (beh c args) event :: ForEach a (S i) event args :: k |}
      end
  | Running [] _ :: k => {| bus := bus m; trace := trace m; stack := k |}
  | Running (act :: todo) event :: k =>
      match act with
      | DoOn e c =>
          {| bus := on e c (bus m); trace := trace m; stack := Running todo event :: k |}
      | DoOff e c =>
          {| bus := off e c (bus m); trace := trace m; stack := Running todo event :: k |}
      | DoClear =>
          {| bus := clear (bus m); trace := trace m; stack := Running todo event :: k |}
      | DoEmit e args =>
          {| bus := bus m; trace := trace m;
             stack := emit_frames (bus m) e args ++ Running todo event :: k |}
      | DoThrow =>
          {| bus := bus m; trace := trace m ++ [ErrorLogged event]; stack := k |}
      end
  end.

Fixpoint run (beh : Behaviour) (fuel : nat) (m : Machine) : option Machine :=
  match stack m with
  | [] => Some m
  | _ :: _ =>
      match fuel with
      | O => None
      | S f => run beh f (step beh m)
      end
  end.

(** [emit(event, ...args)] on a bus from the outside: the bus it leaves
    and what it called, or [None] when the fuel does not reach the end of
    the dispatch. *)
Definition emit (beh : Behaviour) (fuel : nat) (event : string) (args : list value)
    (b : Bus) : option (Bus * list Event) :=
  match run beh fuel {| bus := b; trace := []; stack := emit_frames b event args |} with
  | Some m => Some (bus m, trace m)
  | None => None
  end.

(** A callback that leaves the bus alone and returns. *)
Definition quiet (beh : Behaviour) (args : list value) (c : Callback) : Prop :=
  beh c args = [].

(** The set object that [events] holds for a topic. *)
Definition topic_set (b : Bus) (event : string) (s : CallbackSet) : Prop :=
  ∃ a, events b !! event = Some a ∧ heap b !! a = Some s.

Definition called (args : list value) (l : list Callback) : list Event :=
  (λ c, Called c args) <$> l.

Definition seven : value := VNum (Fin false 7 0).

(** The callbacks of the examples: callback 1 subscribes callback 2
    to topic x, callback 3 unsubscribes callback 2 from it, and
    callback 2 only returns. *)
Definition example_behaviour : Behaviour :=
  λ c _, match c with
         | 1 => [DoOn "x" 2]
         | 3 => [DoOff "x" 2]
         | _ => []
         end.

End EventBus.

(* ===================================================================== *)
(** * LifecycleManager: one [habitat(Widget)] and the document it acts on *)
(* ===================================================================== *)

Module Lifecycle.

Import PropExtractor.
Local Open Scope list_scope.

(** An element of the host document, known by its identity. *)
Definition Element : Type := nat.

Inductive ShadowRootMode : Type := ModeOpen | ModeClosed.

Record ShadowRootInit : Type := { mode : ShadowRootMode }.

Record IntersectionObserverInit : Type := {
  rootMargin : option string;
  threshold : list number;
}.

(** [shadowRoot?: boolean | ShadowRootInit] and
    [lazy?: boolean | IntersectionObserverInit]; an absent option is
    [false]. *)
Inductive ShadowOption : Type :=
  | ShadowOff
  | ShadowOn
  | ShadowWith (init : ShadowRootInit).

Inductive LazyOption : Type :=
  | LazyOff
  | LazyOn
  | LazyWith (init : IntersectionObserverInit).

(** The hooks are the caller's functions.  [onBeforeMount] matters by
    what it returns ([None] for [void] or any falsy value); the other
    two only by being called, which the log records.  A hook is taken
    not to call back into the habitat while it runs. *)
Record HabitatOptions : Type := {
  selector : option string;
  inline : bool;
  clientSpecified : bool;
  defaultProps : Props;
  clean : bool;
  shadowRoot : ShadowOption;
  lazy : LazyOption;
  hydrate : bool;
  tagName : option string;
  onBeforeMount : option (Element → Props → option Props);
  onMounted : bool;
  onUnmount : bool;
}.

(** [{}], the initial [globalOptions]. *)
Definition no_options : HabitatOptions :=
  {| selector := None; inline := false; clientSpecified := false;
     defaultProps := ∅; clean := false; shadowRoot := ShadowOff;
     lazy := LazyOff; hydrate := false; tagName := None;
     onBeforeMount := None; onMounted := false; onUnmount := false |}.

(** Truthiness of an optional string. *)
Definition truthy (s : option string) : bool :=
  match s with
  | Some t => negb (String.eqb t EmptyString)
  | None => false
  end.

(** A render target: the host element, or the shadow root that the
    [n]-th call of [attachShadow] returned. *)
Inductive Root : Type :=
  | HostRoot (host : Element)
  | ShadowRoot (host : Element) (init : ShadowRootInit) (n : nat).

(** [h(Widget, props)]; the widget is the habitat's. *)
Record VNode : Type := { vprops : Props }.

(** The environment that the [unmount] and [update] closures of one
    call of [renderOne] capture: [element] and [root] are constants,
    [props] is a variable and is held by its address. *)
Record Closure : Type := {
  cl_element : Element;
  cl_root : Root;
  cl_props : nat;
}.

(** A [WidgetInstance] object: two data fields, and the two closures,
    which share [env]. *)
Record WidgetInstance : Type := {
  element : Element;
  props : Props;
  env : Closure;
}.

Record HabitatMeta : Type := {
  root : Root;
  vnode : VNode;
  meta_unmount : Closure;
}.

(** The [IntersectionObserver] that a lazy mount creates: what it
    watches, whether it still observes, and the [doRender] it calls
    (render function, vnode and root, fixed at mount). *)
Record Observer : Type := {
  target : Element;
  observing : bool;
  init_options : IntersectionObserverInit;
  use_hydrate : bool;
  do_vnode : VNode;
  do_root : Root;
}.

Record IntersectionObserverEntry : Type := { isIntersecting : bool }.

(** The currently executing script, as [findHostElements] reads it. *)
Record ScriptElement : Type := {
  parentElement : option Element;
  data_mount_in : option string;
}.

Record Document : Type := {
  hosts : gmap Element HostData;
  currentScript : option ScriptElement;
  querySelectorAll : string → list Element;
}.

(** Everything the library asks of its collaborators, in order. *)
Inductive Effect : Type :=
  | Warn (d : Diagnostic)
  | CallRender (v : option VNode) (r : Root)
  | CallHydrate (v : VNode) (r : Root)
  | CallAttachShadow (e : Element) (init : ShadowRootInit)
  | CallObserve (observer : nat) (e : Element)
  | CallDisconnect (observer : nat)
  | CallDefine (tagName : string)
  | HookBeforeMount (e : Element) (p : Props)
  | HookMounted (e : Element) (p : Props)
  | HookUnmount (e : Element).

Record State : Type := {
  instances : list WidgetInstance;
  globalOptions : HabitatOptions;
  metas : gmap Element HabitatMeta;
  cells : list Props;
  observers : list Observer;
  shadows : nat;
  document : Document;
  customElements : list string;
  log : list Effect;
}.

(** A fresh habitat, on a document none of whose elements carries
    metadata: the state describes one call of [habitat] and the elements
    that only this habitat mounts onto. *)
Definition initial (doc : Document) : State :=
  {| instances := []; globalOptions := no_options; metas := ∅; cells := [];
     observers := []; shadows := 0; document := doc; customElements := [];
     log := [] |}.

Definition emit_log (l : list Effect) (st : State) : State :=
  {| instances := instances st; globalOptions := globalOptions st;
     metas := metas st; cells := cells st; observers := observers st;
     shadows := shadows st; document := document st;
     customElements := customElements st; log := log st ++ l |}.

Definition set_instances (l : list WidgetInstance) (st : State) : State :=
  {| instances := l; globalOptions := globalOptions st;
     metas := metas st; cells := cells st; observers := observers st;
     shadows := shadows st; document := document st;
     customElements := customElements st; log := log st |}.

Definition set_metas (m : gmap Element HabitatMeta) (st : State) : State :=
  {| instances := instances st; globalOptions := globalOptions st;
     metas := m; cells := cells st; observers := observers st;
     shadows := shadows st; document := document st;
     customElements := customElements st; log := log st |}.

Definition set_cells (c : list Props) (st : State) : State :=
  {| instances := instances st; globalOptions := globalOptions st;
     metas := metas st; cells := c; observers := observers st;
     shadows := shadows st; document := document st;
     customElements := customElements st; log := log st |}.

Definition set_observers (o : list Observer) (st : State) : State :=
  {| instances := instances st; globalOptions := globalOptions st;
     metas := metas st; cells := cells st; observers := o;
     shadows := shadows st; document := document st;
     customElements := customElements st; log := log st |}.

Definition set_shadows (n : nat) (st : State) : State :=
  {| instances := instances st; globalOptions := globalOptions st;
     metas := metas st; cells := cells st; observers := observers st;
     shadows := n; document := document st;
     customElements := customElements st; log := log st |}.

Definition set_document (d : Document) (st : State) : State :=
  {| instances := instances st; globalOptions := globalOptions st;
     metas := metas st; cells := cells st; observers := observers st;
     shadows := shadows st; document := d;
     customElements := customElements st; log := log st |}.

Definition set_options (o : HabitatOptions) (st : State) : State :=
  {| instances := instances st; globalOptions := o;
     metas := metas st; cells := cells st; observers := observers st;
     shadows := shadows st; document := document st;
     customElements := customElements st; log := log st |}.

Definition set_customElements (c : list string) (st : State) : State :=
  {| instances := instances st; globalOptions := globalOptions st;
     metas := metas st; cells := cells st; observers := observers st;
     shadows := shadows st; document := document st;
     customElements := c; log := log st |}.

(** ** The closures *)

(** [findIndex] then [splice(idx, 1)]: the first instance on [e] goes. *)
Fixpoint remove_first (e : Element) (l : list WidgetInstance) : list WidgetInstance :=
  match l with
  | [] => []
  | i :: r => if Nat.eqb (element i) e then r else i :: remove_first e r
  end.

(** The body of the [unmount] arrow function. *)
Definition unmount (c : Closure) (st : State) : State :=
  let st := emit_log [CallRender None (cl_root c)] st in
  let st := set_metas (delete (cl_element c) (metas st)) st in
  let st :=
    if onUnmount (globalOptions st)
    then emit_log [HookUnmount (cl_element c)] st else st in
  set_instances (remove_first (cl_element c) (instances st)) st.

(** The body of the [update] arrow function: it assigns the captured
    [props] variable and renders; nothing else is written. *)
Definition update (c : Closure) (newProps : Props) (st : State) : State :=
  let p := spread (cells st !!! cl_props c) newProps in
  let st := set_cells (<[cl_props c := p]> (cells st)) st in
  emit_log [CallRender (Some {| vprops := p |}) (cl_root c)] st.

(** ** renderOne *)

Definition host_data (st : State) (e : Element) : HostData :=
  default {| attributes := []; childNodes := [] |} (hosts (document st) !! e).

Definition is_prop_script (c : ChildNode) : bool :=
  match c with PropScript _ => true | OtherNode _ => false end.

(** The [clean] pass: every child but the prop scripts is removed. *)
Definition clean_children (e : Element) (st : State) : State :=
  let h := host_data st e in
  let h' := {| attributes := attributes h;
               childNodes := List.filter is_prop_script (childNodes h) |} in
  set_document
    {| hosts := <[e := h']> (hosts (document st));
       currentScript := currentScript (document st);
       querySelectorAll := querySelectorAll (document st) |} st.

(** [doRender]: one call of [render] or of [hydrate]. *)
Definition doRender (use_hydrate : bool) (v : VNode) (r : Root) : Effect :=
  if use_hydrate then CallHydrate v r else CallRender (Some v) r.

(** The first block of [renderOne]: an element that carries metadata
    gets a warning and has the stored [unmount] called. *)
Definition force_unmount (e : Element) (st : State) : State :=
  match metas st !! e with
  | Some existingMeta =>
      unmount (meta_unmount existingMeta) (emit_log [Warn AlreadyMounted] st)
  | None => st
  end.

(** [renderOne] on the path where every call it makes returns: what the
    call returns and the state it leaves.  [PlatformErrors.renderOne] is
    the same function with the calls that can throw ([attachShadow] on
    an element that already hosts a shadow tree, the observer's
    constructor, the runtime and the hooks). *)
Definition renderOne (P : Platform) (e : Element) (overrideProps : Props)
    (st : State) : WidgetInstance * State :=
  (* Already mounted? *)
  let st := force_unmount e st in
  let opts := globalOptions st in
  (* Collect props *)
  let '(collected, warnings) :=
    collectProps P (host_data st e) (spread (defaultProps opts) overrideProps) in
  let st := emit_log (Warn <$> warnings) st in
  (* onBeforeMount *)
  let '(p, st) :=
    match onBeforeMount opts with
    | Some hook =>
        let st := emit_log [HookBeforeMount e collected] st in
        match hook e collected with
        | Some modified => (modified, st)
        | None => (collected, st)
        end
    | None => (collected, st)
    end in
  (* Clean if requested *)
  let st := if clean opts then clean_children e st else st in
  (* Determine render root *)
  let '(r, st) :=
    match shadowRoot opts with
    | ShadowOff => (HostRoot e, st)
    | ShadowOn =>
        let i := {| mode := ModeOpen |} in
        (ShadowRoot e i (shadows st),
         emit_log [CallAttachShadow e i] (set_shadows (S (shadows st)) st))
    | ShadowWith i =>
        (ShadowRoot e i (shadows st),
         emit_log [CallAttachShadow e i] (set_shadows (S (shadows st)) st))
    end in
  let v := {| vprops := p |} in
  (* Lazy or immediate *)
  let st :=
    match lazy opts with
    | LazyOff => emit_log [doRender (hydrate opts) v r] st
    | LazyOn | LazyWith _ =>
        let observerOptions :=
          match lazy opts with
          | LazyWith i => i
          | _ => {| rootMargin := None; threshold := [] |}
          end in
        let o := {| target := e; observing := true; init_options := observerOptions;
                    use_hydrate := hydrate opts; do_vnode := v; do_root := r |} in
        emit_log [CallObserve (length (observers st)) e]
                 (set_observers (observers st ++ [o]) st)
    end in
  (* The closures and the captured props variable *)
  let c := {| cl_element := e; cl_root := r; cl_props := length (cells st) |} in
  let st := set_cells (cells st ++ [p]) st in
  (* Store metadata *)
  let st := set_metas (<[e := {| root := r; vnode := v; meta_unmount := c |}]> (metas st)) st in
  (* Create instance *)
  let instance := {| element := e; props := p; env := c |} in
  let st := set_instances (instances st ++ [instance]) st in
  (* onMounted *)
  let st := if onMounted opts then emit_log [HookMounted e p] st else st in
  (instance, st).

(** ** The observer callback *)

(** The function passed to [new IntersectionObserver]: every entry of
    the batch is looked at, and an intersecting one renders and
    disconnects. *)
Definition disconnected (x : Observer) : Observer :=
  {| target := target x; observing := false; init_options := init_options x;
     use_hydrate := use_hydrate x; do_vnode := do_vnode x; do_root := do_root x |}.

Definition observer_callback (o : nat) (ob : Observer)
    (entries : list IntersectionObserverEntry) (st : State) : State :=
  fold_left
    (λ st entry,
       if isIntersecting entry then
         let st := emit_log [doRender (use_hydrate ob) (do_vnode ob) (do_root ob)] st in
         emit_log [CallDisconnect o]
           (set_observers (alter disconnected o (observers st)) st)
       else st)
    entries st.

(** The platform delivers a batch of entries to an observer that still
    observes, and to no other. *)
Definition intersect (o : nat) (entries : list IntersectionObserverEntry)
    (st : State) : State :=
  match observers st !! o with
  | Some ob => if observing ob then observer_callback o ob entries st else st
  | None => st
  end.

(** ** unmountAll, renderAll *)

(** [[...instances].forEach((instance) => instance.unmount())]. *)
Definition unmountAll (st : State) : State :=
  fold_left (λ st i, unmount (env i) st) (instances st) st.

Definition findHostElements (options : HabitatOptions) (doc : Document) : list Element :=
  if inline options then
    match currentScript doc with
    | Some script =>
        match parentElement script with
        | Some p => [p]
        | None => []
        end
    | None => []
    end
  else if clientSpecified options then
    match currentScript doc with
    | Some script =>
        if truthy (data_mount_in script)
        then querySelectorAll doc (default EmptyString (data_mount_in script))
        else []
    | None => []
    end
  else if truthy (selector options)
  then querySelectorAll doc (default EmptyString (selector options))
  else [].

(** [registerCustomElement], as far as the registry goes, when
    [customElements.define] returns; the element class it defines keeps
    its own state and never touches [instances] or the metadata, also
    when [define] upgrades elements that are already in the document
    (module [CustomElement] has the class). *)
Definition registerCustomElement (tag : string) (st : State) : State :=
  if bool_decide (tag ∈ customElements st)
  then emit_log [Warn (AlreadyRegistered tag)] st
  else emit_log [CallDefine tag] (set_customElements (tag :: customElements st) st).

Definition renderAll (P : Platform) (options : HabitatOptions) (st : State)
  : list WidgetInstance * State :=
  let st := set_options options st in
  if truthy (tagName options) then
    let st := registerCustomElement (default EmptyString (tagName options)) st in
    (instances st, st)
  else
    fold_left
      (λ (acc : list WidgetInstance * State) e,
         let '(instance, st) := renderOne P e ∅ (snd acc) in
         (fst acc ++ [instance], st))
      (findHostElements options (document st)) ([], st).

(** ** What can happen to a habitat *)

Inductive Op : Type :=
  | OpRenderAll (options : HabitatOptions)
  | OpRenderOne (e : Element) (overrideProps : Props)
  | OpUnmount (c : Closure)
  | OpUpdate (c : Closure) (newProps : Props)
  | OpUnmountAll
  | OpIntersect (o : nat) (entries : list IntersectionObserverEntry)
  | OpPage (doc : Document).

Definition apply (P : Platform) (op : Op) (st : State) : State :=
  match op with
  | OpRenderAll options => snd (renderAll P options st)
  | OpRenderOne e overrideProps => snd (renderOne P e overrideProps st)
  | OpUnmount c => unmount c st
  | OpUpdate c newProps => update c newProps st
  | OpUnmountAll => unmountAll st
  | OpIntersect o entries => intersect o entries st
  | OpPage doc => set_document doc st
  end.

(** The states of a habitat created on some document: any sequence of
    calls of its API, of the closures of its instances (here: of any
    closure), of observer deliveries and of changes the page makes to
    its own document.  This is one habitat on elements that no other
    habitat mounts onto, every call returns, and no hook calls back
    into the habitat. *)
Inductive reachable (P : Platform) : State → Prop :=
  | reach_initial doc : reachable P (initial doc)
  | reach_step op st : reachable P st → reachable P (apply P op st).

(** How many instances of the registry sit on [e]. *)
Definition live_on (e : Element) (st : State) : list WidgetInstance :=
  List.filter (λ i, Nat.eqb (element i) e) (instances st).

(** The registry and the metadata agree, and every closure belongs to
    the element it is stored with. *)
Record consistent (st : State) : Prop := {
  one_per_host : ∀ e,
    length (live_on e st) = match metas st !! e with Some _ => 1 | None => 0 end;
  meta_closure : ∀ e m, metas st !! e = Some m → cl_element (meta_unmount m) = e;
  instance_closure : ∀ i, i ∈ instances st → cl_element (env i) = element i;
}.

Definition is_component_render (ev : Effect) : bool :=
  match ev with
  | CallRender (Some _) _ | CallHydrate _ _ => true
  | _ => false
  end.

Definition is_unmount_hook (ev : Effect) : bool :=
  match ev with HookUnmount _ => true | _ => false end.

(** What one delivery of [entries] to observer [o] asks of the
    collaborators. *)
Definition delivery (o : nat) (ob : Observer)
    (entries : list IntersectionObserverEntry) : list Effect :=
  flat_map
    (λ entry,
       if isIntersecting entry
       then [doRender (use_hydrate ob) (do_vnode ob) (do_root ob); CallDisconnect o]
       else [])
    entries.

(** ** The documents and options of the examples *)

Definition blank_page : Document :=
  {| hosts := ∅; currentScript := None; querySelectorAll := λ _, [] |}.

(** A page whose element 0 carries [data-prop-count] with value 0. *)
Definition counter_page : Document :=
  {| hosts := {[ 0 := {| attributes := [("data-prop-count", "0")]; childNodes := [] |} ]};
     currentScript := None; querySelectorAll := λ _, [] |}.

Definition with_hooks : HabitatOptions :=
  {| selector := None; inline := false; clientSpecified := false;
     defaultProps := ∅; clean := false; shadowRoot := ShadowOff;
     lazy := LazyOff; hydrate := false; tagName := None;
     onBeforeMount := None; onMounted := true; onUnmount := true |}.

Definition with_lazy : HabitatOptions :=
  {| selector := None; inline := false; clientSpecified := false;
     defaultProps := ∅; clean := false; shadowRoot := ShadowOff;
     lazy := LazyOn; hydrate := false; tagName := None;
     onBeforeMount := None; onMounted := true; onUnmount := false |}.

Definition visible : IntersectionObserverEntry := {| isIntersecting := true |}.
Definition hidden : IntersectionObserverEntry := {| isIntersecting := false |}.

(** A habitat on [doc] after [render(options)] found no host element. *)
Definition configured (P : Platform) (options : HabitatOptions) (doc : Document) : State :=
  (renderAll P options (initial doc)).2.

(** [renderOne(element0)] on a blank page, with both hooks set. *)
Definition hooked_mount : WidgetInstance * State :=
  renderOne RefPlatform.ref 0 ∅ (configured RefPlatform.ref with_hooks blank_page).

(** [renderOne(element0)] on a blank page, with [lazy: true]. *)
Definition lazy_mount : WidgetInstance * State :=
  renderOne RefPlatform.ref 0 ∅ (configured RefPlatform.ref with_lazy blank_page).

(** [renderOne(element0)] on the counter page, without options. *)
Definition counter_mount : WidgetInstance * State :=
  renderOne RefPlatform.ref 0 ∅ (configured RefPlatform.ref no_options counter_page).

Definition count_is (z : Z) : Props := {[ "count" := RefPlatform.num z ]}.

End Lifecycle.

(* ===================================================================== *)
(** * EventBus: sequences of calls                                        *)
(* ===================================================================== *)

Module EventBusCalls.

Import EventBus.
Local Open Scope list_scope.

(** The calls that change a bus. *)
Inductive BusCall : Type :=
  | CallOn (event : string) (callback : Callback)
  | CallOff (event : string) (callback : Callback)
  | CallClear.

Definition call (c : BusCall) (b : Bus) : Bus :=
  match c with
  | CallOn e cb => on e cb b
  | CallOff e cb => off e cb b
  | CallClear => clear b
  end.

(** The buses that calls of [on], [off] and [clear] make of a new one. *)
Inductive built : Bus → Prop :=
  | built_new : built empty_bus
  | built_call c b : built b → built (call c b).

(** Every topic has its own set object, and no set holds a callback
    twice. *)
Record sound (b : Bus) : Prop := {
  sets_allocated : ∀ e a, events b !! e = Some a → a < length (heap b);
  sets_distinct : ∀ e e' a, events b !! e = Some a → events b !! e' = Some a → e = e';
  sets_no_duplicate : ∀ s, s ∈ heap b → NoDup (set_values s);
}.

(** The callback throws before it does anything to the bus. *)
Definition throws_first (todo : list Action) : bool :=
  match todo with DoThrow :: _ => true | _ => false end.

(** A callback that returns or throws at once. *)
Definition harmless (beh : Behaviour) (args : list value) (c : Callback) : Prop :=
  beh c args = [] ∨ throws_first (beh c args) = true.

(** What one [emit] records for a list of harmless callbacks. *)
Definition outcomes (beh : Behaviour) (event : string) (args : list value)
    (l : list Callback) : list Event :=
  flat_map
    (λ c, Called c args ::
          (if throws_first (beh c args) then [ErrorLogged event] else []))
    l.

(** Callback 1 throws, callback 2 returns. *)
Definition one_throws : Behaviour :=
  λ c _, match c with 1 => [DoThrow] | _ => [] end.

(** Callback 1 emits topic y, callbacks 2 and 3 return. *)
Definition one_emits : Behaviour :=
  λ c _, match c with 1 => [DoEmit "y" []] | _ => [] end.

(** Every callback unsubscribes itself from topic x and subscribes
    again. *)
Definition resubscriber : Behaviour :=
  λ c _, [DoOff "x" c; DoOn "x" c].

(** An action that only changes subscriptions: a call of [on], [off] or
    [clear]. *)
Definition changes_subscriptions (a : Action) : bool :=
  match a with
  | DoOn _ _ | DoOff _ _ | DoClear => true
  | DoEmit _ _ | DoThrow => false
  end.

(** What such actions, done in order, make of the bus. *)
Definition perform (todo : list Action) (b : Bus) : Bus :=
  fold_left
    (λ b a,
       match a with
       | DoOn e c => on e c b
       | DoOff e c => off e c b
       | DoClear => clear b
       | DoEmit _ _ | DoThrow => b
       end)
    todo b.

(** The set object that [emit(event)] on bus [b] got from [events] and
    walks, with the entries it has in bus [b']. *)
Definition walked (b b' : Bus) (event : string) : CallbackSet :=
  match events b !! event with
  | Some a => default [] (heap b' !! a)
  | None => []
  end.

(** Callback 1 unsubscribes callback 2 from topic x, subscribes
    callback 4 to it and clears the bus; the others return. *)
Definition reshuffler : Behaviour :=
  λ c _, match c with 1 => [DoOff "x" 2; DoOn "x" 4; DoClear] | _ => [] end.

End EventBusCalls.

(* ===================================================================== *)
(** * SignalStore                                                         *)
(* ===================================================================== *)

Module SignalStore.

Local Open Scope list_scope.

(** A signal is an object: it is known by the address of its value.
    [globalStore] is a [Map]: its entries, in insertion order. *)
Record Store : Type := {
  globalStore : list (string * nat);
  signals : list value;
}.

Definition empty_store : Store := {| globalStore := []; signals := [] |}.

(** [Map.prototype.has], [get], [set], [delete]. *)
Definition map_has (key : string) (m : list (string * nat)) : bool :=
  bool_decide (key ∈ m.*1).

Fixpoint map_get (key : string) (m : list (string * nat)) : option nat :=
  match m with
  | [] => None
  | (k, a) :: r => if String.eqb k key then Some a else map_get key r
  end.

Fixpoint map_set (key : string) (a : nat) (m : list (string * nat))
  : list (string * nat) :=
  match m with
  | [] => [(key, a)]
  | (k, b) :: r =>
      if String.eqb k key then (k, a) :: r else (k, b) :: map_set key a r
  end.

Definition map_delete (key : string) (m : list (string * nat)) : list (string * nat) :=
  List.filter (λ e, negb (String.eqb e.1 key)) m.

(** [signal(initialValue)]: a new signal object. *)
Definition signal (initialValue : value) (st : Store) : nat * Store :=
  (length (signals st),
   {| globalStore := globalStore st; signals := signals st ++ [initialValue] |}).

Definition getSignal (key : string) (initialValue : value) (st : Store)
  : option nat * Store :=
  let st :=
    if map_has key (globalStore st) then st
    else
      let '(s, st) := signal initialValue st in
      {| globalStore := map_set key s (globalStore st); signals := signals st |} in
  (map_get key (globalStore st), st).

Definition hasSignal (key : string) (st : Store) : bool :=
  map_has key (globalStore st).

Definition deleteSignal (key : string) (st : Store) : bool * Store :=
  (map_has key (globalStore st),
   {| globalStore := map_delete key (globalStore st); signals := signals st |}).

Definition clearSignals (st : Store) : Store :=
  {| globalStore := []; signals := signals st |}.

Definition getSignalKeys (st : Store) : list string := (globalStore st).*1.

(** [useGlobalSignal] is [getSignal]. *)
Definition useGlobalSignal (key : string) (initialValue : value) (st : Store)
  : option nat * Store :=
  getSignal key initialValue st.

(** Reading a signal ([s.peek()]) and assigning it ([s.value = v]). *)
Definition peek (s : nat) (st : Store) : option value := signals st !! s.

Definition assign (s : nat) (v : value) (st : Store) : Store :=
  {| globalStore := globalStore st; signals := <[s := v]> (signals st) |}.

(** What a widget can do with the store. *)
Inductive StoreCall : Type :=
  | DoGetSignal (key : string) (initialValue : value)
  | DoDeleteSignal (key : string)
  | DoClearSignals
  | DoAssign (s : nat) (v : value).

Definition call (c : StoreCall) (st : Store) : Store :=
  match c with
  | DoGetSignal key initialValue => (getSignal key initialValue st).2
  | DoDeleteSignal key => (deleteSignal key st).2
  | DoClearSignals => clearSignals st
  | DoAssign s v => assign s v st
  end.

Inductive reached : Store → Prop :=
  | reached_empty : reached empty_store
  | reached_call c st : reached st → reached (call c st).

(** No key occurs twice, and every entry holds a signal that exists. *)
Record sound (st : Store) : Prop := {
  keys_distinct : NoDup (globalStore st).*1;
  signals_exist : ∀ k a, (k, a) ∈ globalStore st → a < length (signals st);
}.

(** ** createStore *)

(** An action: from the current state and the arguments to a partial
    state, or to nothing ([void]). *)
Definition Action : Type := Props → list value → option Props.

(** The store that [createStore] returns: the actions it was given (the
    own keys of the [actions] object), the value of its [state] signal,
    and how many times that signal has been assigned. *)
Record ReactiveStore : Type := {
  actions : list (string * Action);
  state : Props;
  assignments : nat;
}.

Definition createStore (initialState : Props) (actions : list (string * Action))
  : ReactiveStore :=
  {| actions := actions; state := initialState; assignments := 0 |}.

Fixpoint action_named (key : string) (l : list (string * Action)) : option Action :=
  match l with
  | [] => None
  | (k, f) :: r => if String.eqb k key then Some f else action_named key r
  end.

(** [store.actions[key](...args)]; [None] when [boundActions] has no
    such function. *)
Definition dispatch (key : string) (args : list value) (st : ReactiveStore)
  : option ReactiveStore :=
  match action_named key (actions st) with
  | None => None
  | Some f =>
      match f (state st) args with
      | Some result =>
          Some {| actions := actions st; state := spread (state st) result;
                  assignments := S (assignments st) |}
      | None => Some st
      end
  end.

Definition getSnapshot (st : ReactiveStore) : Props := state st.

(** A run of action calls, stopping at the first that fails. *)
Fixpoint dispatch_all (calls : list (string * list value)) (st : ReactiveStore)
  : option ReactiveStore :=
  match calls with
  | [] => Some st
  | (key, args) :: r =>
      match dispatch key args st with
      | Some st' => dispatch_all r st'
      | None => None
      end
  end.

(** The store of the examples: [inc] adds the field n = 1, [noop]
    returns nothing. *)
Definition example_store : ReactiveStore :=
  createStore {[ "m" := RefPlatform.num 0 ]}
    [("inc", λ _ _, Some {[ "n" := RefPlatform.num 1 ]}); ("noop", λ _ _, None)].

End SignalStore.

(* ===================================================================== *)
(** * CustomElementAdapter: the class [PreactHabitatElement]              *)
(* ===================================================================== *)

Module CustomElement.

Import PropExtractor Lifecycle.
Local Open Scope list_scope.

(** [options.shadowRoot] as the constructor reads it: absent, [false],
    [true] or an init object. *)
Inductive ShadowSetting : Type :=
  | ShadowUnset
  | ShadowFalse
  | ShadowTrue
  | ShadowInit (init : ShadowRootInit).

Record ElementOptions : Type := {
  ce_defaultProps : Props;
  ce_shadowRoot : ShadowSetting;
}.

(** One element of the registered type: its three private fields, and
    what it has asked of the platform and the runtime so far. *)
Record PreactHabitatElement : Type := {
  self : Element;
  _props : Props;
  _root : option Root;
  _mounted : bool;
  effects : list Effect;
}.

(** The constructor; [n] numbers the shadow root that [attachShadow]
    returns. *)
Definition construct (options : ElementOptions) (this : Element) (n : nat)
  : PreactHabitatElement :=
  match ce_shadowRoot options with
  | ShadowFalse =>
      {| self := this; _props := ∅; _root := None; _mounted := false; effects := [] |}
  | setting =>
      let shadowInit :=
        match setting with
        | ShadowInit init => init
        | _ => {| mode := ModeOpen |}
        end in
      {| self := this; _props := ∅; _root := Some (ShadowRoot this shadowInit n);
         _mounted := false; effects := [CallAttachShadow this shadowInit] |}
  end.

(** [this._root || this]. *)
Definition target (el : PreactHabitatElement) : Root :=
  match _root el with
  | Some r => r
  | None => HostRoot (self el)
  end.

Definition _render (el : PreactHabitatElement) : PreactHabitatElement :=
  {| self := self el; _props := _props el; _root := _root el; _mounted := _mounted el;
     effects := effects el ++ [CallRender (Some {| vprops := _props el |}) (target el)] |}.

Definition set_props (p : Props) (w : list Effect) (el : PreactHabitatElement)
  : PreactHabitatElement :=
  {| self := self el; _props := p; _root := _root el; _mounted := _mounted el;
     effects := effects el ++ w |}.

Definition set_mounted (m : bool) (el : PreactHabitatElement) : PreactHabitatElement :=
  {| self := self el; _props := _props el; _root := _root el; _mounted := m;
     effects := effects el |}.

(** The callbacks read the element's markup as it is when they run:
    [dom] is the element itself as [collectProps] sees it. *)
Definition connectedCallback (P : Platform) (options : ElementOptions)
    (dom : HostData) (el : PreactHabitatElement) : PreactHabitatElement :=
  let '(p, w) := collectProps P dom (ce_defaultProps options) in
  set_mounted true (_render (set_props p (Warn <$> w) el)).

Definition disconnectedCallback (el : PreactHabitatElement) : PreactHabitatElement :=
  if _mounted el then
    set_mounted false
      {| self := self el; _props := _props el; _root := _root el;
         _mounted := _mounted el;
         effects := effects el ++ [CallRender None (target el)] |}
  else el.

Definition attributeChangedCallback (P : Platform) (options : ElementOptions)
    (dom : HostData) (el : PreactHabitatElement) : PreactHabitatElement :=
  if _mounted el then
    let '(p, w) := collectProps P dom (ce_defaultProps options) in
    _render (set_props p (Warn <$> w) el)
  else el.

Definition setProps (newProps : Props) (el : PreactHabitatElement)
  : PreactHabitatElement :=
  let el := set_props (spread (_props el) newProps) [] el in
  if _mounted el then _render el else el.

(** [getProps] returns a copy. *)
Definition getProps (el : PreactHabitatElement) : Props := _props el.

(** What the platform and the page can do to an element. *)
Inductive ElementCall : Type :=
  | Connect (dom : HostData)
  | Disconnect
  | AttributeChange (dom : HostData)
  | SetProps (newProps : Props).

Definition call (P : Platform) (options : ElementOptions) (c : ElementCall)
    (el : PreactHabitatElement) : PreactHabitatElement :=
  match c with
  | Connect dom => connectedCallback P options dom el
  | Disconnect => disconnectedCallback el
  | AttributeChange dom => attributeChangedCallback P options dom el
  | SetProps newProps => setProps newProps el
  end.

Definition calls (P : Platform) (options : ElementOptions) (l : list ElementCall)
    (el : PreactHabitatElement) : PreactHabitatElement :=
  fold_left (λ el c, call P options c el) l el.

(** The root an effect renders into, if it is a render. *)
Definition rendered_into (ev : Effect) : option Root :=
  match ev with
  | CallRender _ r => Some r
  | CallHydrate _ r => Some r
  | _ => None
  end.

(** Every render the element has asked for went into its target. *)
Definition renders_into_target (el : PreactHabitatElement) : Prop :=
  ∀ ev r, ev ∈ effects el → rendered_into ev = Some r → r = target el.

Definition plain_options : ElementOptions :=
  {| ce_defaultProps := ∅; ce_shadowRoot := ShadowUnset |}.

Definition no_markup : HostData := {| attributes := []; childNodes := [] |}.

End CustomElement.

(* ===================================================================== *)
(** * The lite build                                                      *)
(* ===================================================================== *)

Module Lite.

Import PropExtractor Lifecycle.
Local Open Scope list_scope.


(** [{ el, unmount: () => render(null, el) }]. *)
Record Instance : Type := { el : Element }.

Definition unmount (i : Instance) : Effect := CallRender None (HostRoot (el i)).

Definition host (doc : Document) (e : Element) : HostData :=
  default {| attributes := []; childNodes := [] |} (hosts doc !! e).



(** The own properties that [gp] gets from the first prop script, if it
    parses: what [Object.assign] makes of its keys. *)
Definition scriptProps (P : Platform) (el : HostData) : Props :=
  match propScripts el with
  | s :: _ =>
      match JSON_parse P s with
      | Some parsed => Object_assign ∅ parsed
      | None => ∅
      end
  | [] => ∅
  end.






End Lite.

(* ===================================================================== *)
(** * Readings of a host element                                          *)
(* ===================================================================== *)

Module Readings.

Import PropExtractor.
Local Open Scope list_scope.

(** The contents of the prop scripts as [getPropsFromScripts] takes
    them: trimmed, and the empty ones left out. *)
Definition contents (element : HostData) : list string :=
  List.filter (λ c, negb (String.eqb c EmptyString)) (trim <$> propScripts element).

Definition parses (P : Platform) (content : string) : bool :=
  match JSON_parse P content with Some _ => true | None => false end.


End Readings.

(* ===================================================================== *)
(** * Views of a habitat                                                  *)
(* ===================================================================== *)

Module LifecycleViews.

Import PropExtractor Lifecycle.
Local Open Scope list_scope.

(** What one [unmount] asks of the collaborators. *)
Definition unmount_effects (hook : bool) (i : WidgetInstance) : list Effect :=
  CallRender None (cl_root (env i)) :: (if hook then [HookUnmount (element i)] else []).

(** The registry is as long as the number of elements with metadata. *)
Definition counted (st : State) : Prop := length (instances st) = size (metas st).

(** What [renderOne] collects for an element, before any hook. *)
Definition collected (P : Platform) (e : Element) (overrideProps : Props) (st : State)
  : Props :=
  (collectProps P (host_data st e)
     (spread (defaultProps (globalOptions st)) overrideProps)).1.

(** Options with an [onBeforeMount] hook that replaces the properties
    by count = 5. *)
Definition with_replacement : HabitatOptions :=
  {| selector := None; inline := false; clientSpecified := false;
     defaultProps := ∅; clean := false; shadowRoot := ShadowOff;
     lazy := LazyOff; hydrate := false; tagName := None;
     onBeforeMount := Some (λ _ _, Some (count_is 5));
     onMounted := false; onUnmount := false |}.


Definition with_tag : HabitatOptions :=
  {| selector := None; inline := false; clientSpecified := false;
     defaultProps := ∅; clean := false; shadowRoot := ShadowOff;
     lazy := LazyOff; hydrate := false; tagName := Some "my-widget";
     onBeforeMount := None; onMounted := false; onUnmount := false |}.

Definition with_shadow : HabitatOptions :=
  {| selector := None; inline := false; clientSpecified := false;
     defaultProps := ∅; clean := false; shadowRoot := ShadowOn;
     lazy := LazyOff; hydrate := false; tagName := None;
     onBeforeMount := None; onMounted := false; onUnmount := false |}.

(** A page on which the selector [.w] finds the elements 0 and 1. *)
Definition two_hosts : Document :=
  {| hosts := ∅; currentScript := None;
     querySelectorAll := λ s, if String.eqb s ".w" then [0; 1] else [] |}.

Definition with_selector : HabitatOptions :=
  {| selector := Some ".w"; inline := false; clientSpecified := false;
     defaultProps := ∅; clean := false; shadowRoot := ShadowOff;
     lazy := LazyOff; hydrate := false; tagName := None;
     onBeforeMount := None; onMounted := false; onUnmount := false |}.

(** The instance of [hooked_mount] is unmounted, and the element is
    mounted again: the first handle is stale, the registry holds the
    second instance. *)
Definition remounted : WidgetInstance * State :=
  renderOne RefPlatform.ref 0 ∅ (unmount (env hooked_mount.1) hooked_mount.2).

(** [e] is one of the elements [l]. *)
Definition among (l : list Element) (e : Element) : bool := existsb (Nat.eqb e) l.

(** The metadata that [renderOne] stores for the instance it returns. *)
Definition meta_of (i : WidgetInstance) : HabitatMeta :=
  {| root := cl_root (env i); vnode := {| vprops := props i |}; meta_unmount := env i |}.

(** The first render of an instance that is not lazy. *)
Definition first_render (use_hydrate : bool) (i : WidgetInstance) : Effect :=
  doRender use_hydrate {| vprops := props i |} (cl_root (env i)).

End LifecycleViews.

(* ===================================================================== *)
(** * Calls that throw                                                    *)
(* ===================================================================== *)

(** The manager calls into the platform ([attachShadow],
    [IntersectionObserver], [customElements.define]), into the component
    runtime ([render], [hydrate]) and into the caller's hooks, and it
    catches nothing: when one of these calls throws, the function that
    made it ends there, with the state as it is at that point.

    [Lifecycle] describes the calls that return.  Here every function is
    given again with its calls allowed to throw; where a function of this
    module returns, it returns what its namesake in [Lifecycle] gives.
    A hook is still taken not to call back into the habitat, and the
    metadata found on an element to be this habitat's. *)
Module PlatformErrors.

Import PropExtractor Lifecycle.
Local Open Scope list_scope.

(** [throws st ev]: the call [ev], made when the habitat is in [st],
    throws.  Which calls throw is the platform's and the caller's
    affair, so the functions below take it as a parameter. *)
Record Limits : Type := { throws : State → Effect → bool }.

(** A call returns a value, or throws at the call [ev] and leaves the
    habitat in [st]. *)
Inductive Outcome (A : Type) : Type :=
  | Returned (a : A)
  | Threw (ev : Effect) (st : State).

Arguments Returned {A} a.
Arguments Threw {A} ev st.

#[export] Instance outcome_ret : MRet Outcome := λ A a, Returned a.

#[export] Instance outcome_bind : MBind Outcome :=
  λ A B k o, match o with Returned a => k a | Threw ev st => Threw ev st end.

(** One call of a collaborator: it is logged when it returns. *)
Definition ask (L : Limits) (ev : Effect) (st : State) : Outcome State :=
  if throws L st ev then Threw ev st else Returned (emit_log [ev] st).

(** The body of the [unmount] arrow function. *)
Definition unmount (L : Limits) (c : Closure) (st : State) : Outcome State :=
  st ← ask L (CallRender None (cl_root c)) st;
  let st := set_metas (delete (cl_element c) (metas st)) st in
  st ← (if onUnmount (globalOptions st)
        then ask L (HookUnmount (cl_element c)) st else mret st);
  mret (set_instances (remove_first (cl_element c) (instances st)) st).

(** The body of the [update] arrow function. *)
Definition update (L : Limits) (c : Closure) (newProps : Props) (st : State)
  : Outcome State :=
  let p := spread (cells st !!! cl_props c) newProps in
  let st := set_cells (<[cl_props c := p]> (cells st)) st in
  ask L (CallRender (Some {| vprops := p |}) (cl_root c)) st.

(** The first block of [renderOne]: the stored [unmount] is called, and
    what it throws is not caught. *)
Definition force_unmount (L : Limits) (e : Element) (st : State) : Outcome State :=
  match metas st !! e with
  | Some existingMeta =>
      unmount L (meta_unmount existingMeta) (emit_log [Warn AlreadyMounted] st)
  | None => mret st
  end.

(** [element.attachShadow(shadowInit)]. *)
Definition attachShadow (L : Limits) (e : Element) (i : ShadowRootInit) (st : State)
  : Outcome (Root * State) :=
  st' ← ask L (CallAttachShadow e i) st;
  mret (ShadowRoot e i (shadows st), set_shadows (S (shadows st)) st').

Definition renderOne (L : Limits) (P : Platform) (e : Element) (overrideProps : Props)
    (st : State) : Outcome (WidgetInstance * State) :=
  (* Already mounted? *)
  st ← force_unmount L e st;
  let opts := globalOptions st in
  (* Collect props *)
  let '(collected, warnings) :=
    collectProps P (host_data st e) (spread (defaultProps opts) overrideProps) in
  let st := emit_log (Warn <$> warnings) st in
  (* onBeforeMount *)
  '(p, st) ←
    match onBeforeMount opts with
    | Some hook =>
        st ← ask L (HookBeforeMount e collected) st;
        match hook e collected with
        | Some modified => mret (modified, st)
        | None => mret (collected, st)
        end
    | None => mret (collected, st)
    end;
  (* Clean if requested *)
  let st := if clean opts then clean_children e st else st in
  (* Determine render root *)
  '(r, st) ←
    match shadowRoot opts with
    | ShadowOff => mret (HostRoot e, st)
    | ShadowOn => attachShadow L e {| mode := ModeOpen |} st
    | ShadowWith i => attachShadow L e i st
    end;
  let v := {| vprops := p |} in
  (* Lazy or immediate *)
  st ←
    match lazy opts with
    | LazyOff => ask L (doRender (hydrate opts) v r) st
    | LazyOn | LazyWith _ =>
        let observerOptions :=
          match lazy opts with
          | LazyWith i => i
          | _ => {| rootMargin := None; threshold := [] |}
          end in
        let o := {| target := e; observing := true; init_options := observerOptions;
                    use_hydrate := hydrate opts; do_vnode := v; do_root := r |} in
        (* new IntersectionObserver(callback, observerOptions), then observe *)
        st' ← ask L (CallObserve (length (observers st)) e) st;
        mret (set_observers (observers st ++ [o]) st')
    end;
  (* The closures and the captured props variable *)
  let c := {| cl_element := e; cl_root := r; cl_props := length (cells st) |} in
  let st := set_cells (cells st ++ [p]) st in
  (* Store metadata *)
  let st := set_metas (<[e := {| root := r; vnode := v; meta_unmount := c |}]> (metas st)) st in
  (* Create instance *)
  let instance := {| element := e; props := p; env := c |} in
  let st := set_instances (instances st ++ [instance]) st in
  (* onMounted *)
  st ← (if onMounted opts then ask L (HookMounted e p) st else mret st);
  mret (instance, st).

(** [[...instances].forEach((instance) => instance.unmount())]: a call
    that throws ends the loop. *)
Definition unmountAll (L : Limits) (st : State) : Outcome State :=
  fold_left (λ (acc : Outcome State) i, st ← acc; unmount L (env i) st)
            (instances st) (mret st).

(** [registerCustomElement], as far as the registry goes:
    [customElements.define] throws on a name that is not a valid
    custom element name. *)
Definition registerCustomElement (L : Limits) (tag : string) (st : State)
  : Outcome State :=
  if bool_decide (tag ∈ customElements st)
  then mret (emit_log [Warn (AlreadyRegistered tag)] st)
  else
    st' ← ask L (CallDefine tag) st;
    mret (set_customElements (tag :: customElements st) st').

Definition renderAll (L : Limits) (P : Platform) (options : HabitatOptions) (st : State)
  : Outcome (list WidgetInstance * State) :=
  let st := set_options options st in
  if truthy (tagName options) then
    st ← registerCustomElement L (default EmptyString (tagName options)) st;
    mret (instances st, st)
  else
    fold_left
      (λ (acc : Outcome (list WidgetInstance * State)) e,
         '(newInstances, st) ← acc;
         '(instance, st) ← renderOne L P e ∅ st;
         mret (newInstances ++ [instance], st))
      (findHostElements options (document st)) (mret ([], st)).

(** The call at which a function threw, if it did, and the state it
    left the habitat in either way. *)
Definition thrown {A} (o : Outcome A) : option Effect :=
  match o with
  | Returned _ => None
  | Threw ev _ => Some ev
  end.

Definition state_after {A} (o : Outcome (A * State)) : State :=
  match o with
  | Returned (_, st) => st
  | Threw _ st => st
  end.

(** A platform on which nothing throws. *)
Definition lenient : Limits := {| throws := λ _ _, false |}.

(** The host already has a shadow tree that this habitat attached. *)
Definition attached (e : Element) (ev : Effect) : bool :=
  match ev with
  | CallAttachShadow e' _ => Nat.eqb e' e
  | _ => false
  end.

(** The rule of the DOM for [attachShadow]: on a host that already has
    a shadow tree it throws NotSupportedError.  Nothing else throws. *)
Definition dom : Limits :=
  {| throws := λ st ev,
       match ev with
       | CallAttachShadow e _ => existsb (attached e) (log st)
       | _ => false
       end |}.

(** [renderOne(element0)] on a blank page, with [shadowRoot: true]. *)
Definition shadow_mount : Outcome (WidgetInstance * State) :=
  renderOne dom RefPlatform.ref 0 ∅
    (configured RefPlatform.ref LifecycleViews.with_shadow blank_page).

(** The same call once more, on the state the first one left. *)
Definition shadow_remount : Outcome (WidgetInstance * State) :=
  '(_, st) ← shadow_mount; renderOne dom RefPlatform.ref 0 ∅ st.

End PlatformErrors.

(* ===================================================================== *)
(** * Properties of the extractor                                         *)
(* ===================================================================== *)

Module PropExtractorProofs.

Import PropExtractor RefPlatform.

(** [camelCase] looks two characters ahead, so its properties go by an
    induction that steps over one or two characters. *)
Lemma string_pair_ind (Q : string → Prop) :
  Q EmptyString →
  (∀ c, Q (String c EmptyString)) →
  (∀ c l r, Q r → Q (String l r) → Q (String c (String l r))) →
  ∀ s, Q s.
Proof.
  intros H0 H1 H2 s.
  assert (Q s ∧ ∀ c, Q (String c s)) as [? _]; [|assumption].
  induction s as [|l r [IHr IHlr]]; split; auto.
Qed.

Lemma letter_not_hyphen l : is_letter l = true → Ascii.eqb l hyphen = false.
Proof. destruct l as [[] [] [] [] [] [] [] []]; vm_compute; congruence. Qed.

Lemma toUpperCase_letter l : is_letter l = true → is_letter (toUpperCase l) = true.
Proof. destruct l as [[] [] [] [] [] [] [] []]; vm_compute; congruence. Qed.

Lemma hyphen_not_letter : is_letter hyphen = false.
Proof. reflexivity. Qed.

Lemma eqb_hyphen c : Ascii.eqb c hyphen = true → c = hyphen.
Proof. apply Ascii.eqb_eq. Qed.

(** The first character of a converted string is a letter only when
    the string starts with a letter or with a hyphen and a letter. *)
Lemma head_letter_camelCase s :
  head_letter (camelCase s) =
  match s with
  | String c (String l _) =>
      if Ascii.eqb c hyphen then is_letter l else is_letter c
  | String c EmptyString => is_letter c
  | EmptyString => false
  end.
Proof.
  destruct s as [|c [|l r]]; simpl; try reflexivity.
  - destruct (Ascii.eqb c hyphen) eqn:E; simpl; [|reflexivity].
    apply eqb_hyphen in E. subst. reflexivity.
  - destruct (Ascii.eqb c hyphen) eqn:E; simpl; [|reflexivity].
    destruct (is_letter l) eqn:L; simpl.
    + apply toUpperCase_letter. assumption.
    + apply eqb_hyphen in E. subst. reflexivity.
Qed.

(** A string without a hyphen-letter pair is left as it is. *)
Lemma camelCase_fixed s : hyphen_letter s = false → camelCase s = s.
Proof.
  induction s as [|c|c l r IHr IHlr] using string_pair_ind; intros H.
  - reflexivity.
  - simpl. destruct (Ascii.eqb c hyphen); reflexivity.
  - change (hyphen_letter (String c (String l r)))
      with ((Ascii.eqb c hyphen && is_letter l) || hyphen_letter (String l r)) in H.
    apply orb_false_iff in H as [H1 H2].
    change (camelCase (String c (String l r)))
      with (if Ascii.eqb c hyphen
            then if is_letter l then String (toUpperCase l) (camelCase r)
                 else String c (camelCase (String l r))
            else String c (camelCase (String l r))).
    destruct (Ascii.eqb c hyphen); simpl in H1.
    + rewrite H1. rewrite IHlr by assumption. reflexivity.
    + rewrite IHlr by assumption. reflexivity.
Qed.

(** After one conversion a hyphen-letter pair is left exactly where the
    input had two hyphens before a letter. *)
Lemma hyphen_letter_camelCase s :
  hyphen_letter (camelCase s) = hyphen_hyphen_letter s.
Proof.
  induction s as [|c|c l r IHr IHlr] using string_pair_ind.
  - reflexivity.
  - simpl. destruct (Ascii.eqb c hyphen) eqn:E; simpl; rewrite E; reflexivity.
  - change (hyphen_hyphen_letter (String c (String l r)))
      with ((Ascii.eqb c hyphen &&
               match r with
               | String l' _ => Ascii.eqb l hyphen && is_letter l'
               | EmptyString => false
               end) || hyphen_hyphen_letter (String l r)).
    change (camelCase (String c (String l r)))
      with (if Ascii.eqb c hyphen
            then if is_letter l then String (toUpperCase l) (camelCase r)
                 else String c (camelCase (String l r))
            else String c (camelCase (String l r))).
    assert (Hstep : ∀ t, hyphen_letter (String c t)
                         = (Ascii.eqb c hyphen && head_letter t) || hyphen_letter t)
      by (intros t; destruct t; reflexivity).
    destruct (Ascii.eqb c hyphen) eqn:E.
    + destruct (is_letter l) eqn:L.
      * (* the pair is consumed *)
        assert (Hup : ∀ t, hyphen_letter (String (toUpperCase l) t) = hyphen_letter t).
        { intros t. destruct t; simpl;
            rewrite (letter_not_hyphen _ (toUpperCase_letter _ L)); reflexivity. }
        rewrite Hup, IHr.
        change (hyphen_hyphen_letter (String l r))
          with ((Ascii.eqb l hyphen &&
                   match r with
                   | String c' (String l' _) => Ascii.eqb c' hyphen && is_letter l'
                   | _ => false
                   end) || hyphen_hyphen_letter r).
        rewrite (letter_not_hyphen _ L). simpl.
        destruct r; reflexivity.
      * rewrite Hstep, IHlr, head_letter_camelCase. simpl.
        f_equal.
        destruct r as [|l' r'].
        -- exact L.
        -- destruct (Ascii.eqb l hyphen); [reflexivity | exact L].
    + rewrite Hstep, IHlr. reflexivity.
Qed.

Lemma camelCase_length s : (String.length (camelCase s) <= String.length s)%nat.
Proof.
  induction s as [|c|c l r IHr IHlr] using string_pair_ind.
  - reflexivity.
  - simpl. destruct (Ascii.eqb c hyphen); reflexivity.
  - change (camelCase (String c (String l r)))
      with (if Ascii.eqb c hyphen
            then if is_letter l then String (toUpperCase l) (camelCase r)
                 else String c (camelCase (String l r))
            else String c (camelCase (String l r))).
    destruct (Ascii.eqb c hyphen); [destruct (is_letter l)|];
      simpl String.length in *; lia.
Qed.

(** A hyphen-letter pair makes the conversion strictly shorter. *)
Lemma camelCase_shrinks s :
  hyphen_letter s = true → (String.length (camelCase s) < String.length s)%nat.
Proof.
  induction s as [|c|c l r IHr IHlr] using string_pair_ind; intros H.
  - discriminate.
  - simpl in H. rewrite andb_false_r in H. discriminate.
  - change (hyphen_letter (String c (String l r)))
      with ((Ascii.eqb c hyphen && is_letter l) || hyphen_letter (String l r)) in H.
    change (camelCase (String c (String l r)))
      with (if Ascii.eqb c hyphen
            then if is_letter l then String (toUpperCase l) (camelCase r)
                 else String c (camelCase (String l r))
            else String c (camelCase (String l r))).
    pose proof (camelCase_length r) as Hr.
    destruct (Ascii.eqb c hyphen); [destruct (is_letter l)|];
      simpl in H; simpl String.length in *; try lia.
    + specialize (IHlr H). simpl String.length in IHlr. lia.
    + specialize (IHlr H). simpl String.length in IHlr. lia.
Qed.

(** C9, as the claim states it, fails: two hyphens before a letter are
    converted in two rounds, ["--a"] becomes ["-A"] and then ["A"]. *)
Lemma camelCase_not_idempotent :
  camelCase "--a" = "-A" ∧ camelCase (camelCase "--a") = "A" ∧
  ¬ (∀ s, camelCase (camelCase s) = camelCase s).
Proof.
  split; [reflexivity|]. split; [reflexivity|].
  intros H. specialize (H "--a"). vm_compute in H. discriminate.
Qed.

(** C9 (amended): converting twice equals converting once exactly for
    the strings in which no two consecutive hyphens stand before a
    letter, which covers every hyphen-free and every singly hyphenated
    name; ["price"] stays ["price"] and ["discount-percent"] becomes
    ["discountPercent"].  The lite build's [cc] is the same function. *)
Theorem camelCase_idempotent_iff :
  (∀ s, camelCase (camelCase s) = camelCase s ↔ hyphen_hyphen_letter s = false) ∧
  (∀ s, cc s = camelCase s) ∧
  camelCase "price" = "price" ∧
  camelCase "discount-percent" = "discountPercent".
Proof.
  split; [|split; [reflexivity | split; reflexivity]].
  intros s. split.
  - intros Heq. destruct (hyphen_hyphen_letter s) eqn:E; [|reflexivity].
    rewrite <- hyphen_letter_camelCase in E.
    apply camelCase_shrinks in E. rewrite Heq in E. lia.
  - intros E. apply camelCase_fixed. rewrite hyphen_letter_camelCase. exact E.
Qed.

Lemma camelCase_idempotent_iff_witness :
  hyphen_hyphen_letter "discount-percent" = false ∧
  camelCase (camelCase "discount-percent") = camelCase "discount-percent".
Proof.
  split; [reflexivity|].
  apply (proj2 (proj1 camelCase_idempotent_iff "discount-percent")). reflexivity.
Defined.

(** ** Coercion *)

Lemma typeof_object v :
  v ≠ VNull → String.eqb (typeof v) "object" = is_object_or_array v.
Proof. destruct v; intros H; try reflexivity. congruence. Qed.

(** C7, as the claim states it, fails in both builds.  In the full build
    a padded [null] parses to null, whose [typeof] is ["object"], and is
    kept; in the lite build [pv] returns whatever [JSON.parse] returns, so
    a quoted string loses its quotes. *)
Lemma coercion_keeps_non_objects :
  coerce ref " null" = VNull ∧
  coerce_spec ref " null" = VStr " null" ∧
  pv ref (q ++ "hi" ++ q) = VStr "hi" ∧
  coerce_spec ref (q ++ "hi" ++ q) = VStr (q ++ "hi" ++ q) ∧
  ¬ (∀ v, coerce ref v = coerce_spec ref v) ∧
  ¬ (∀ v, pv ref v = coerce_spec ref v).
Proof.
  split; [vm_compute; reflexivity|].
  split; [vm_compute; reflexivity|].
  split; [vm_compute; reflexivity|].
  split; [vm_compute; reflexivity|].
  split.
  - intros H. specialize (H " null"). vm_compute in H. discriminate.
  - intros H. specialize (H (q ++ "hi" ++ q)). vm_compute in H. discriminate.
Qed.

(** C7 (amended): the coercion of the full build applies in order, first
    match winning: ["true"]/["false"] give booleans, ["null"] gives
    null, a non-empty string that [Number] accepts gives that number,
    then a string that parses to an object or an array gives the parsed
    value, and a string that does not parse, or parses to a string, a
    number or a boolean, is kept raw (so is the empty string); a string
    that parses to null is left aside.  The lite build's [pv] shares the
    first three rules and then keeps the result of any successful parse,
    whatever its type, and the raw string only when the parse fails.  On
    the examples: ["true"], ["false"], ["null"], ["42"], ["3.14"],
    ["hello"], an object text and the empty string. *)
Theorem coercion_order :
  (∀ P v, JSON_parse P v ≠ Some VNull → coerce P v = coerce_spec P v) ∧
  (∀ P v, pv P v =
          if literal_or_numeric P v then coerce_spec P v
          else default (VStr v) (JSON_parse P v)) ∧
  (coerce ref "true" = VBool true ∧ coerce ref "false" = VBool false ∧
   coerce ref "null" = VNull ∧ coerce ref "42" = num 42 ∧
   coerce ref "3.14" = VNum (Fin false 314 (-2)) ∧
   coerce ref "hello" = VStr "hello" ∧
   coerce ref ("{" ++ q ++ "a" ++ q ++ ":1}") = VObj {[ "a" := num 1 ]} ∧
   coerce ref EmptyString = VStr EmptyString).
Proof.
  split; [|split].
  - intros P v Hnull. unfold coerce, coerce_spec.
    destruct (String.eqb v "true"); [reflexivity|].
    destruct (String.eqb v "false"); [reflexivity|].
    destruct (String.eqb v "null"); [reflexivity|].
    rewrite andb_comm.
    destruct (negb (String.eqb v EmptyString) && negb (isNaN (Number_ P v))); [reflexivity|].
    destruct (JSON_parse P v) as [parsed|]; [|reflexivity].
    rewrite typeof_object; [reflexivity|]. congruence.
  - intros P v. unfold pv, coerce_spec, literal_or_numeric.
    destruct (String.eqb v "true"); [reflexivity|].
    destruct (String.eqb v "false"); [reflexivity|].
    destruct (String.eqb v "null"); [reflexivity|].
    cbn [orb]. rewrite andb_comm.
    destruct (negb (String.eqb v EmptyString) && negb (isNaN (Number_ P v))); [reflexivity|].
    destruct (JSON_parse P v); reflexivity.
  - repeat split; vm_compute; reflexivity.
Qed.

Lemma coercion_order_witness :
  JSON_parse ref "[1, 2]" ≠ Some VNull ∧
  coerce ref "[1, 2]" = coerce_spec ref "[1, 2]".
Proof.
  split; [vm_compute; discriminate|].
  apply (proj1 coercion_order ref "[1, 2]"). vm_compute. discriminate.
Defined.

(** ** Merging *)

Lemma spread_lookup (a b : Props) k :
  spread a b !! k = match b !! k with Some x => Some x | None => a !! k end.
Proof.
  unfold spread. rewrite lookup_union.
  destruct (b !! k), (a !! k); reflexivity.
Qed.

(** A recognised attribute assigns one property, named by the
    converted rest of its name, with its coerced value; any other
    attribute adds nothing. *)
Lemma getPropsFromAttributes_snoc P attrs kids name val :
  getPropsFromAttributes P
    {| attributes := (attrs ++ [(name, val)])%list; childNodes := kids |} =
  let before := getPropsFromAttributes P {| attributes := attrs; childNodes := kids |} in
  if String.prefix "data-prop-" name
  then assign (camelCase (slice 10 name)) (coerce P val) before
  else before.
Proof.
  unfold getPropsFromAttributes. simpl attributes.
  rewrite fold_left_app. reflexivity.
Qed.

(** A later prop script is spread over the earlier ones; an empty one
    is skipped; one that does not parse adds nothing but a warning. *)
Lemma getPropsFromScripts_snoc P attrs kids innerHTML :
  getPropsFromScripts P
    {| attributes := attrs; childNodes := (kids ++ [PropScript innerHTML])%list |} =
  let before := getPropsFromScripts P {| attributes := attrs; childNodes := kids |} in
  if String.eqb (trim innerHTML) EmptyString then before
  else
    match JSON_parse P (trim innerHTML) with
    | Some parsed => (spread before.1 (ownProps parsed), before.2)
    | None => (before.1, (before.2 ++ [JsonParseFailed (trim innerHTML)])%list)
    end.
Proof.
  unfold getPropsFromScripts, propScripts. simpl childNodes.
  rewrite flat_map_app, fold_left_app. simpl.
  destruct (String.eqb (trim innerHTML) EmptyString); [reflexivity|].
  unfold safeJsonParse. destruct (JSON_parse P (trim innerHTML)).
  - rewrite app_nil_r. reflexivity.
  - simpl. unfold spread. rewrite (left_id_L ∅ (∪)). reflexivity.
Qed.

(** C6: the collected properties take, key by key, the attribute-derived
    value if there is one, else the value from the embedded data blocks,
    else the default; with defaults [{a:1,b:2}], a block [{b:3,c:4}] and
    the attribute-derived [{c:5}] the result is exactly [{a:1,b:3,c:5}]. *)
Theorem collectProps_precedence :
  (∀ P element defaultProps k,
     (collectProps P element defaultProps).1 !! k =
     match getPropsFromAttributes P element !! k with
     | Some x => Some x
     | None =>
         match (getPropsFromScripts P element).1 !! k with
         | Some x => Some x
         | None => defaultProps !! k
         end
     end) ∧
  getPropsFromAttributes ref precedence_host = {[ "c" := num 5 ]} ∧
  (getPropsFromScripts ref precedence_host).1 = <["b" := num 3]> {[ "c" := num 4 ]} ∧
  (collectProps ref precedence_host precedence_defaults).1 =
    <["a" := num 1]> (<["b" := num 3]> {[ "c" := num 5 ]}).
Proof.
  split; [|repeat split; vm_compute; reflexivity].
  intros P element defaultProps k. unfold collectProps.
  destruct (getPropsFromScripts P element) as [scriptProps w]. simpl.
  rewrite !spread_lookup. reflexivity.
Qed.

(** The lite build's [gp] orders the sources differently: the first
    prop script is assigned over the attributes. *)
Lemma gp_script_over_attribute :
  gp ref precedence_host precedence_defaults =
  <["a" := num 1]> (<["b" := num 3]> {[ "c" := num 4 ]}).
Proof. vm_compute. reflexivity. Qed.

End PropExtractorProofs.

(* ===================================================================== *)
(** * Properties of the event bus                                         *)
(* ===================================================================== *)

Module EventBusProofs.

Import EventBus.
Local Open Scope list_scope.
Local Open Scope nat_scope.

Lemma run_step beh f b tr fr k :
  run beh (S f) {| bus := b; trace := tr; stack := fr :: k |} =
  run beh f (step beh {| bus := b; trace := tr; stack := fr :: k |}).
Proof. reflexivity. Qed.

Lemma step_forEach beh b tr a i event args k :
  step beh {| bus := b; trace := tr; stack := ForEach a i event args :: k |} =
  match default [] (heap b !! a) !! i with
  | None => {| bus := b; trace := tr; stack := k |}
  | Some None => {| bus := b; trace := tr; stack := ForEach a (S i) event args :: k |}
  | Some (Some c) =>
      {| bus := b; trace := tr ++ [Called c args];
         stack := Running (beh c args) event :: ForEach a (S i) event args :: k |}
  end.
Proof. reflexivity. Qed.

Lemma step_return beh b tr event k :
  step beh {| bus := b; trace := tr; stack := Running [] event :: k |} =
  {| bus := b; trace := tr; stack := k |}.
Proof. reflexivity. Qed.

Lemma step_on beh b tr e c todo event k :
  step beh {| bus := b; trace := tr; stack := Running (DoOn e c :: todo) event :: k |} =
  {| bus := on e c b; trace := tr; stack := Running todo event :: k |}.
Proof. reflexivity. Qed.

Lemma step_off beh b tr e c todo event k :
  step beh {| bus := b; trace := tr; stack := Running (DoOff e c :: todo) event :: k |} =
  {| bus := off e c b; trace := tr; stack := Running todo event :: k |}.
Proof. reflexivity. Qed.

Lemma run_finished beh f b tr :
  run beh f {| bus := b; trace := tr; stack := [] |} =
  Some {| bus := b; trace := tr; stack := [] |}.
Proof. destruct f; reflexivity. Qed.

Lemma set_values_app (s t : CallbackSet) :
  set_values (s ++ t) = set_values s ++ set_values t.
Proof. unfold set_values. apply omap_app. Qed.

Lemma set_values_length (s : CallbackSet) : length (set_values s) ≤ length s.
Proof.
  induction s as [|[c|] s IH]; simpl; [lia| |];
    change (omap id s) with (set_values s); simpl; lia.
Qed.

Lemma set_delete_app (s t : CallbackSet) c :
  set_delete (s ++ t) c = set_delete s c ++ set_delete t c.
Proof. unfold set_delete. apply fmap_app. Qed.

Lemma set_delete_length (s : CallbackSet) c : length (set_delete s c) = length s.
Proof. unfold set_delete. apply length_fmap. Qed.

Lemma set_values_delete (s : CallbackSet) c :
  set_values (set_delete s c) = List.filter (λ x, negb (Nat.eqb x c)) (set_values s).
Proof.
  induction s as [|[x|] s IH]; simpl; [reflexivity| |exact IH].
  change (omap id (set_delete s c)) with (set_values (set_delete s c)).
  change (omap id s) with (set_values s).
  destruct (bool_decide (Some x = Some c)) eqn:E.
  - apply bool_decide_eq_true in E. injection E as ->.
    simpl. rewrite Nat.eqb_refl. simpl. exact IH.
  - apply bool_decide_eq_false in E.
    simpl. destruct (Nat.eqb x c) eqn:N.
    + apply Nat.eqb_eq in N. subst. congruence.
    + simpl. f_equal. exact IH.
Qed.

(** A stretch of the set whose callbacks are all quiet is walked entry
    by entry: each value is called once, in order, and the bus stays as
    it is. *)
Lemma sweep_quiet beh event args a k mid :
  ∀ pre post b tr f,
    heap b !! a = Some (pre ++ mid ++ post) →
    Forall (quiet beh args) (set_values mid) →
    run beh (length mid + length (set_values mid) + f)
        {| bus := b; trace := tr; stack := ForEach a (length pre) event args :: k |} =
    run beh f
        {| bus := b; trace := tr ++ called args (set_values mid);
           stack := ForEach a (length pre + length mid) event args :: k |}.
Proof.
  induction mid as [|x mid IH]; intros pre post b tr f Hheap Hquiet.
  - simpl. rewrite app_nil_r, Nat.add_0_r. reflexivity.
  - assert (Hx : default [] (heap b !! a) !! length pre = Some x).
    { rewrite Hheap. simpl. rewrite lookup_app_r by lia.
      rewrite Nat.sub_diag. reflexivity. }
    assert (Hheap' : heap b !! a = Some ((pre ++ [x]) ++ mid ++ post))
      by (rewrite <- app_assoc; exact Hheap).
    assert (Hlen : length (pre ++ [x]) = S (length pre))
      by (rewrite length_app; simpl; lia).
    destruct x as [c|].
    + change (set_values (Some c :: mid)) with (c :: set_values mid) in *.
      apply Forall_cons in Hquiet as [Hc Hquiet].
      simpl length.
      replace (S (length mid) + S (length (set_values mid)) + f)
        with (S (S (length mid + length (set_values mid) + f))) by lia.
      rewrite run_step, step_forEach, Hx, Hc, run_step, step_return.
      rewrite <- Hlen.
      rewrite (IH _ post b _ f Hheap' Hquiet).
      rewrite Hlen. unfold called. simpl. rewrite <- app_assoc. simpl.
      rewrite Nat.add_succ_r. reflexivity.
    + change (set_values (None :: mid)) with (set_values mid) in *.
      simpl length.
      replace (S (length mid) + length (set_values mid) + f)
        with (S (length mid + length (set_values mid) + f)) by lia.
      rewrite run_step, step_forEach, Hx.
      rewrite <- Hlen.
      rewrite (IH _ post b _ f Hheap' Hquiet).
      rewrite Hlen. simpl. rewrite Nat.add_succ_r. reflexivity.
Qed.

(** At the end of the set the [forEach] returns. *)
Lemma sweep_end beh event args a k s b tr f :
  heap b !! a = Some s →
  run beh (S f) {| bus := b; trace := tr; stack := ForEach a (length s) event args :: k |} =
  run beh f {| bus := b; trace := tr; stack := k |}.
Proof.
  intros Hheap. rewrite run_step, step_forEach, Hheap. simpl.
  rewrite lookup_ge_None_2 by lia. reflexivity.
Qed.

Lemma on_present event c b a s :
  events b !! event = Some a → heap b !! a = Some s →
  events (on event c b) = events b ∧
  heap (on event c b) !! a = Some (set_add s c).
Proof.
  intros He Hh. unfold on. rewrite He. simpl. rewrite He. simpl.
  split; [reflexivity|]. rewrite list_lookup_alter_eq, Hh. reflexivity.
Qed.

Lemma off_present event c b a s :
  events b !! event = Some a → heap b !! a = Some s →
  events (off event c b) = events b ∧
  heap (off event c b) !! a = Some (set_delete s c).
Proof.
  intros He Hh. unfold off. rewrite He. simpl.
  split; [reflexivity|]. rewrite list_lookup_alter_eq, Hh. reflexivity.
Qed.

Lemma set_add_absent (s : CallbackSet) c : Some c ∉ s → set_add s c = s ++ [Some c].
Proof.
  intros H. unfold set_add, set_has. rewrite bool_decide_eq_false_2; auto.
Qed.

Lemma quiet_after_delete beh args (s : CallbackSet) c :
  Forall (quiet beh args) (set_values s) →
  Forall (quiet beh args) (set_values (set_delete s c)).
Proof.
  rewrite set_values_delete. rewrite !List.Forall_forall.
  intros H x Hx. apply filter_In in Hx as [Hx _]. auto.
Qed.

(** C2, as the claim states it, fails: [emit] walks the live set.  With
    only callback 1 subscribed to x, and callback 1 subscribing callback
    2, one [emit] calls both; with callbacks 3 and 2 subscribed, and
    callback 3 unsubscribing callback 2, one [emit] calls only 3. *)
Lemma emit_not_a_snapshot :
  subscribers (on "x" 1 empty_bus) "x" = [1] ∧
  emit example_behaviour 10 "x" [seven] (on "x" 1 empty_bus) =
    Some (on "x" 2 (on "x" 1 empty_bus), [Called 1 [seven]; Called 2 [seven]]) ∧
  subscribers (on "x" 2 (on "x" 3 empty_bus)) "x" = [3; 2] ∧
  emit example_behaviour 10 "x" [seven] (on "x" 2 (on "x" 3 empty_bus)) =
    Some (off "x" 2 (on "x" 2 (on "x" 3 empty_bus)), [Called 3 [seven]]).
Proof. repeat split; vm_compute; reflexivity. Qed.

(** Four dispatches, each within the stated fuel.  A topic nobody
    subscribed to is a no-op.  When no callback touches the bus, [emit]
    calls exactly the callbacks subscribed at the moment of the call,
    each once, with the arguments given.  When one callback's only bus
    call subscribes a callback that was not subscribed to the topic, and
    the others leave the bus alone, that callback is called in the same
    pass, after the others.  When one callback's only bus call
    unsubscribes a callback, and the others leave the bus alone, that
    callback is not called if the walk has not reached it. *)
Lemma emit_live_iteration beh event args b :
  (events b !! event = None → ∀ fuel, emit beh fuel event args b = Some (b, [])) ∧
  (∀ s fuel,
     topic_set b event s →
     Forall (quiet beh args) (set_values s) →
     2 * length s + 1 ≤ fuel →
     emit beh fuel event args b = Some (b, called args (set_values s))) ∧
  (∀ pre cb post c fuel,
     topic_set b event (pre ++ Some cb :: post) →
     beh cb args = [DoOn event c] →
     Some c ∉ pre ++ Some cb :: post →
     Forall (quiet beh args) (set_values pre ++ set_values post ++ [c]) →
     2 * length (pre ++ Some cb :: post) + 5 ≤ fuel →
     emit beh fuel event args b =
       Some (on event c b,
             called args (set_values pre ++ cb :: set_values post ++ [c]))) ∧
  (∀ pre cb post c fuel,
     topic_set b event (pre ++ Some cb :: post) →
     beh cb args = [DoOff event c] →
     Forall (quiet beh args) (set_values pre ++ set_values post) →
     2 * length (pre ++ Some cb :: post) + 5 ≤ fuel →
     emit beh fuel event args b =
       Some (off event c b,
             called args (set_values pre ++ cb ::
                          List.filter (λ x, negb (Nat.eqb x c)) (set_values post)))).
Proof.
  split; [|split; [|split]].
  - intros He fuel. unfold emit, emit_frames. rewrite He.
    rewrite run_finished. reflexivity.
  - intros s fuel (a & He & Hh) Hq Hfuel.
    unfold emit, emit_frames. rewrite He.
    pose proof (set_values_length s) as Hl.
    replace fuel
      with (length s + length (set_values s)
            + S (fuel - length s - length (set_values s) - 1)) by lia.
    rewrite (sweep_quiet beh event args a [] s [] [] b); [|rewrite app_nil_r; exact Hh|exact Hq].
    change (length [] + length s) with (length s).
    rewrite (sweep_end _ _ _ _ _ s) by exact Hh.
    rewrite run_finished. reflexivity.
  - intros pre cb post c fuel (a & He & Hh) Hcb Hfresh Hq Hfuel.
    unfold emit, emit_frames. rewrite He.
    apply Forall_app in Hq as [Hpre Hq].
    pose proof (set_values_length pre) as Hl1.
    pose proof (set_values_length post) as Hl2.
    rewrite length_app in Hfuel. simpl in Hfuel.
    destruct (on_present event c b a _ He Hh) as [_ Hh'].
    rewrite (set_add_absent _ _ Hfresh) in Hh'.
    set (f := fuel - (length pre + length (set_values pre)) - 3
              - (length (post ++ [Some c]) + length (set_values (post ++ [Some c]))) - 1).
    replace fuel
      with (length pre + length (set_values pre)
            + S (S (S (length (post ++ [Some c])
                       + length (set_values (post ++ [Some c])) + S f)))).
    2:{ subst f. rewrite set_values_app, !length_app. simpl. lia. }
    rewrite (sweep_quiet beh event args a _ pre [] (Some cb :: post) b) by assumption.
    change (length [] + length pre) with (length pre).
    rewrite run_step, step_forEach, Hh. simpl default.
    rewrite list_lookup_middle by reflexivity.
    rewrite Hcb, run_step, step_on, run_step, step_return.
    replace (S (length pre)) with (length (pre ++ [Some cb]))
      by (rewrite length_app; simpl; lia).
    rewrite (sweep_quiet beh event args a _ (post ++ [Some c]) (pre ++ [Some cb]) []).
    2:{ rewrite Hh', app_nil_r, <- !app_assoc. reflexivity. }
    2:{ rewrite set_values_app. exact Hq. }
    rewrite <- length_app.
    rewrite (sweep_end _ _ _ _ _ ((pre ++ [Some cb]) ++ post ++ [Some c])).
    2:{ rewrite Hh', <- !app_assoc. reflexivity. }
    rewrite run_finished. simpl. unfold called.
    rewrite set_values_app, !fmap_app, fmap_cons, !fmap_app, <- !app_assoc.
    reflexivity.
  - intros pre cb post c fuel (a & He & Hh) Hcb Hq Hfuel.
    unfold emit, emit_frames. rewrite He.
    apply Forall_app in Hq as [Hpre Hpost].
    pose proof (set_values_length pre) as Hl1.
    pose proof (set_values_length (set_delete post c)) as Hl2.
    rewrite set_delete_length in Hl2.
    rewrite length_app in Hfuel. simpl in Hfuel.
    destruct (off_present event c b a _ He Hh) as [_ Hh'].
    set (f := fuel - (length pre + length (set_values pre)) - 3
              - (length (set_delete post c)
                 + length (set_values (set_delete post c))) - 1).
    replace fuel
      with (length pre + length (set_values pre)
            + S (S (S (length (set_delete post c)
                       + length (set_values (set_delete post c)) + S f)))).
    2:{ subst f. rewrite set_delete_length in *. lia. }
    rewrite (sweep_quiet beh event args a _ pre [] (Some cb :: post) b) by assumption.
    change (length [] + length pre) with (length pre).
    rewrite run_step, step_forEach, Hh. simpl default.
    rewrite list_lookup_middle by reflexivity.
    rewrite Hcb, run_step, step_off, run_step, step_return.
    replace (S (length pre)) with (length (set_delete (pre ++ [Some cb]) c))
      by (rewrite set_delete_length, length_app; simpl; lia).
    rewrite (sweep_quiet beh event args a _ (set_delete post c)
               (set_delete (pre ++ [Some cb]) c) []).
    2:{ rewrite Hh', app_nil_r, <- set_delete_app, <- app_assoc. reflexivity. }
    2:{ apply quiet_after_delete. exact Hpost. }
    rewrite <- length_app.
    rewrite (sweep_end _ _ _ _ _ (set_delete (pre ++ [Some cb]) c ++ set_delete post c)).
    2:{ rewrite Hh', <- set_delete_app, <- app_assoc. reflexivity. }
    rewrite run_finished. simpl. unfold called.
    rewrite set_values_delete, !fmap_app, fmap_cons, <- !app_assoc.
    reflexivity.
Qed.

End EventBusProofs.

(* ===================================================================== *)
(** * Properties of the lifecycle manager                                 *)
(* ===================================================================== *)

Module LifecycleProofs.

Import PropExtractor Lifecycle.
Local Open Scope list_scope.
Local Open Scope nat_scope.

(** ** The registry *)

Lemma remove_first_other e e' l :
  e ≠ e' →
  List.filter (λ i, Nat.eqb (element i) e') (remove_first e l) =
  List.filter (λ i, Nat.eqb (element i) e') l.
Proof.
  intros Hne. induction l as [|i l IH]; simpl; [reflexivity|].
  destruct (Nat.eqb (element i) e) eqn:E.
  - apply Nat.eqb_eq in E.
    destruct (Nat.eqb (element i) e') eqn:E'; [|reflexivity].
    apply Nat.eqb_eq in E'. congruence.
  - simpl. rewrite IH. reflexivity.
Qed.

Lemma remove_first_same e l :
  length (List.filter (λ i, Nat.eqb (element i) e) (remove_first e l)) =
  length (List.filter (λ i, Nat.eqb (element i) e) l) - 1.
Proof.
  induction l as [|i l IH]; simpl; [reflexivity|].
  destruct (Nat.eqb (element i) e) eqn:E; simpl.
  - lia.
  - rewrite E. exact IH.
Qed.

Lemma remove_first_absent e l :
  List.filter (λ i, Nat.eqb (element i) e) l = [] → remove_first e l = l.
Proof.
  induction l as [|i l IH]; simpl; [reflexivity|].
  destruct (Nat.eqb (element i) e) eqn:E; [discriminate|].
  intros H. rewrite IH by assumption. reflexivity.
Qed.

Lemma remove_first_present e l :
  List.filter (λ i, Nat.eqb (element i) e) l ≠ [] →
  length (remove_first e l) + 1 = length l.
Proof.
  induction l as [|i l IH]; simpl; [congruence|].
  destruct (Nat.eqb (element i) e) eqn:E; simpl; [lia|].
  intros H. specialize (IH H). lia.
Qed.

Lemma remove_first_subset e l i : i ∈ remove_first e l → i ∈ l.
Proof.
  induction l as [|j l IH]; simpl; [auto|].
  destruct (Nat.eqb (element j) e).
  - intros H. apply elem_of_cons. auto.
  - intros H. apply elem_of_cons in H as [->|H]; apply elem_of_cons; auto.
Qed.

(** ** The [unmount] closure, field by field *)

Lemma unmount_instances c st :
  instances (unmount c st) = remove_first (cl_element c) (instances st).
Proof. unfold unmount. simpl. destruct (onUnmount (globalOptions st)); reflexivity. Qed.

Lemma unmount_metas c st :
  metas (unmount c st) = delete (cl_element c) (metas st).
Proof. unfold unmount. simpl. destruct (onUnmount (globalOptions st)); reflexivity. Qed.

Lemma unmount_log c st :
  log (unmount c st) =
  log st ++ CallRender None (cl_root c) ::
            (if onUnmount (globalOptions st) then [HookUnmount (cl_element c)] else []).
Proof.
  unfold unmount. simpl. destruct (onUnmount (globalOptions st)); simpl;
    [rewrite <- app_assoc|]; reflexivity.
Qed.

Lemma unmount_rest c st :
  globalOptions (unmount c st) = globalOptions st ∧
  cells (unmount c st) = cells st ∧
  observers (unmount c st) = observers st ∧
  shadows (unmount c st) = shadows st ∧
  document (unmount c st) = document st ∧
  customElements (unmount c st) = customElements st.
Proof.
  unfold unmount. simpl. destruct (onUnmount (globalOptions st)); simpl; auto 10.
Qed.

Lemma live_on_unmount_other c e st :
  cl_element c ≠ e → live_on e (unmount c st) = live_on e st.
Proof.
  intros H. unfold live_on. rewrite unmount_instances.
  apply remove_first_other. exact H.
Qed.

(** ** Consistency is kept by every operation *)

Lemma consistent_initial doc : consistent (initial doc).
Proof.
  split.
  - intros e. reflexivity.
  - intros e m H. simpl in H. rewrite lookup_empty in H. discriminate.
  - intros i H. simpl in H. inversion H.
Qed.

Lemma consistent_unmount c st : consistent st → consistent (unmount c st).
Proof.
  intros [H1 H2 H3]. split.
  - intros e. rewrite unmount_metas.
    destruct (decide (cl_element c = e)) as [<-|Hne].
    + rewrite lookup_delete_eq. unfold live_on. rewrite unmount_instances.
      rewrite remove_first_same. specialize (H1 (cl_element c)).
      unfold live_on in H1. rewrite H1.
      destruct (metas st !! cl_element c); reflexivity.
    + rewrite lookup_delete_ne by assumption.
      rewrite live_on_unmount_other by assumption. apply H1.
  - intros e m. rewrite unmount_metas. intros H.
    apply lookup_delete_Some in H as [_ H]. eauto.
  - intros i. rewrite unmount_instances. intros H.
    apply remove_first_subset in H. auto.
Qed.

Lemma consistent_same_registry st st' :
  instances st' = instances st → metas st' = metas st →
  consistent st → consistent st'.
Proof.
  intros Hi Hm [H1 H2 H3]. split.
  - intros e. unfold live_on. rewrite Hi, Hm. apply H1.
  - intros e m. rewrite Hm. apply H2.
  - intros i. rewrite Hi. apply H3.
Qed.

Lemma consistent_force_unmount e st : consistent st → consistent (force_unmount e st).
Proof.
  intros H. unfold force_unmount. destruct (metas st !! e); [|exact H].
  apply consistent_unmount.
  apply (consistent_same_registry st); [reflexivity|reflexivity|exact H].
Qed.

(** After the first block of [renderOne] the element is free. *)
Lemma force_unmount_frees e st :
  consistent st →
  metas (force_unmount e st) !! e = None ∧ live_on e (force_unmount e st) = [].
Proof.
  intros H.
  assert (Hm : metas (force_unmount e st) !! e = None).
  { unfold force_unmount. destruct (metas st !! e) as [m|] eqn:E; [|exact E].
    rewrite unmount_metas. simpl.
    rewrite (meta_closure st H e m E). apply lookup_delete_eq. }
  split; [exact Hm|].
  pose proof (one_per_host _ (consistent_force_unmount e st H) e) as Hl.
  rewrite Hm in Hl. destruct (live_on e (force_unmount e st)); [reflexivity|discriminate].
Qed.

Lemma force_unmount_rest e st :
  globalOptions (force_unmount e st) = globalOptions st ∧
  cells (force_unmount e st) = cells st ∧
  observers (force_unmount e st) = observers st ∧
  shadows (force_unmount e st) = shadows st ∧
  document (force_unmount e st) = document st ∧
  customElements (force_unmount e st) = customElements st.
Proof.
  unfold force_unmount. destruct (metas st !! e); [|auto 10].
  apply (unmount_rest _ (emit_log [Warn AlreadyMounted] st)).
Qed.

Lemma force_unmount_log e st :
  log (force_unmount e st) =
  log st ++
  match metas st !! e with
  | Some m =>
      Warn AlreadyMounted :: CallRender None (cl_root (meta_unmount m)) ::
      (if onUnmount (globalOptions st)
       then [HookUnmount (cl_element (meta_unmount m))] else [])
  | None => []
  end.
Proof.
  unfold force_unmount. destruct (metas st !! e) as [m|].
  - rewrite unmount_log. simpl. rewrite <- app_assoc. reflexivity.
  - rewrite app_nil_r. reflexivity.
Qed.

(** ** [renderOne], field by field *)

(** Every path through [renderOne]: the hook, the cleaning, the choice
    of the root, the lazy branch and the last hook. *)
Ltac renderOne_paths P e ov :=
  unfold renderOne;
  generalize (force_unmount e);
  let st0 := fresh "st0" in
  let f := fresh "f" in
  intros f st0; generalize (f st0); clear f st0; intros st0;
  destruct (collectProps P (host_data st0 e)
              (spread (defaultProps (globalOptions st0)) ov)) as [collected w];
  destruct (onBeforeMount (globalOptions st0)) as [hook|];
  [destruct (hook e collected) as [modified|]|];
  destruct (clean (globalOptions st0));
  destruct (shadowRoot (globalOptions st0));
  destruct (lazy (globalOptions st0)) eqn:Hlazy;
  destruct (onMounted (globalOptions st0)) eqn:Hmounted;
  simpl.

Lemma renderOne_fields P e ov st :
  let st0 := force_unmount e st in
  let i := (renderOne P e ov st).1 in
  let s1 := (renderOne P e ov st).2 in
  element i = e ∧ cl_element (env i) = e ∧
  cl_props (env i) = length (cells st0) ∧
  instances s1 = instances st0 ++ [i] ∧
  metas s1 = <[e := {| root := cl_root (env i); vnode := {| vprops := props i |};
                       meta_unmount := env i |}]> (metas st0) ∧
  cells s1 = cells st0 ++ [props i] ∧
  globalOptions s1 = globalOptions st0 ∧
  customElements s1 = customElements st0.
Proof.
  cbv zeta. revert st. renderOne_paths P e ov; repeat split; reflexivity.
Qed.

Lemma forallb_warnings (f : Effect → bool) (w : list Diagnostic) :
  (∀ d, f (Warn d) = true) → forallb f (Warn <$> w) = true.
Proof.
  intros H. induction w as [|d w IH]; simpl; [reflexivity|].
  rewrite H. exact IH.
Qed.

(** A lazy mount: the observer it leaves, and a log without a render of
    the component that ends with the [onMounted] hook. *)
Lemma renderOne_lazy P e ov st :
  let st0 := force_unmount e st in
  let i := (renderOne P e ov st).1 in
  let s1 := (renderOne P e ov st).2 in
  lazy (globalOptions st0) ≠ LazyOff →
  observers s1 =
    observers st0 ++
    [{| target := e; observing := true;
        init_options := match lazy (globalOptions st0) with
                        | LazyWith init => init
                        | _ => {| rootMargin := None; threshold := [] |}
                        end;
        use_hydrate := hydrate (globalOptions st0);
        do_vnode := {| vprops := props i |};
        do_root := cl_root (env i) |}] ∧
  ∃ new,
    log s1 = log st0 ++ new ∧
    forallb (λ ev, negb (is_component_render ev)) new = true ∧
    (onMounted (globalOptions st0) = true → last new = Some (HookMounted e (props i))).
Proof.
  cbv zeta. revert st. renderOne_paths P e ov; intros Hl; try congruence;
    (split; [reflexivity|]);
    rewrite <- ?app_assoc; eexists; (split; [reflexivity|]);
    (split; [rewrite forallb_app, forallb_warnings by reflexivity; reflexivity|]);
    intros Hm; try discriminate; rewrite ?last_app; reflexivity.
Qed.

(** An immediate mount renders once, at mount time. *)
Lemma renderOne_eager P e ov st :
  let st0 := force_unmount e st in
  let i := (renderOne P e ov st).1 in
  let s1 := (renderOne P e ov st).2 in
  lazy (globalOptions st0) = LazyOff →
  observers s1 = observers st0 ∧
  ∃ new,
    log s1 = log st0 ++ new ∧
    List.filter is_component_render new =
      [doRender (hydrate (globalOptions st0)) {| vprops := props i |} (cl_root (env i))].
Proof.
  cbv zeta. revert st. renderOne_paths P e ov; intros Hl; try congruence;
    (split; [reflexivity|]);
    rewrite <- ?app_assoc; eexists; (split; [reflexivity|]);
    rewrite List.filter_app;
    (replace (List.filter is_component_render (Warn <$> w)) with (@nil Effect)
      by (induction w; [reflexivity | assumption]));
    simpl; destruct (hydrate (globalOptions st0)); reflexivity.
Qed.

Lemma consistent_renderOne P e ov st :
  consistent st → consistent (renderOne P e ov st).2.
Proof.
  intros H.
  pose proof (consistent_force_unmount e st H) as H0.
  destruct (force_unmount_frees e st H) as [Hm0 Hl0].
  destruct (renderOne_fields P e ov st) as (Hel & Hcl & _ & Hi & Hm & _).
  destruct H0 as [H1 H2 H3]. split.
  - intros e'. unfold live_on. rewrite Hi, Hm, List.filter_app. simpl.
    rewrite Hel. destruct (decide (e = e')) as [<-|Hne].
    + rewrite lookup_insert_eq, Nat.eqb_refl.
      unfold live_on in Hl0. rewrite Hl0. reflexivity.
    + rewrite lookup_insert_ne by assumption.
      replace (Nat.eqb e e') with false by (symmetry; apply Nat.eqb_neq; assumption).
      rewrite app_nil_r. apply H1.
  - intros e' m. rewrite Hm. intros Hlook.
    apply lookup_insert_Some in Hlook as [[<- <-]|[_ Hlook]]; [exact Hcl|eauto].
  - intros i. rewrite Hi. intros Hin.
    apply elem_of_app in Hin as [Hin|Hin]; [auto|].
    apply list_elem_of_singleton in Hin. subst. congruence.
Qed.

(** ** The other operations *)

Lemma observer_callback_registry o ob entries st :
  instances (observer_callback o ob entries st) = instances st ∧
  metas (observer_callback o ob entries st) = metas st ∧
  cells (observer_callback o ob entries st) = cells st ∧
  globalOptions (observer_callback o ob entries st) = globalOptions st.
Proof.
  unfold observer_callback. revert st.
  induction entries as [|en entries IH]; intros st; simpl; [auto|].
  destruct (isIntersecting en); rewrite !(proj1 (IH _)), !(proj1 (proj2 (IH _))),
    !(proj1 (proj2 (proj2 (IH _)))), !(proj2 (proj2 (proj2 (IH _)))); auto.
Qed.

Lemma observer_callback_log o ob entries st :
  log (observer_callback o ob entries st) = log st ++ delivery o ob entries.
Proof.
  unfold observer_callback, delivery. revert st.
  induction entries as [|en entries IH]; intros st; simpl.
  - rewrite app_nil_r. reflexivity.
  - rewrite IH. destruct (isIntersecting en); simpl; [|reflexivity].
    rewrite <- !app_assoc. reflexivity.
Qed.

Lemma alter_disconnected_twice o (l : list Observer) :
  alter disconnected o (alter disconnected o l) = alter disconnected o l.
Proof.
  apply list_eq. intros j.
  destruct (decide (o = j)) as [<-|Hne].
  - rewrite !list_lookup_alter_eq. destruct (l !! o); reflexivity.
  - rewrite !list_lookup_alter_ne by assumption. reflexivity.
Qed.

Lemma observer_callback_observers o ob entries st :
  observers (observer_callback o ob entries st) =
  if existsb isIntersecting entries
  then alter disconnected o (observers st) else observers st.
Proof.
  unfold observer_callback. revert st.
  induction entries as [|en entries IH]; intros st; simpl; [reflexivity|].
  rewrite IH. destruct (isIntersecting en); simpl; [|reflexivity].
  rewrite alter_disconnected_twice.
  destruct (existsb isIntersecting entries); reflexivity.
Qed.

Lemma intersect_registry o entries st :
  instances (intersect o entries st) = instances st ∧
  metas (intersect o entries st) = metas st.
Proof.
  unfold intersect. destruct (observers st !! o) as [ob|]; [|auto].
  destruct (observing ob); [|auto].
  destruct (observer_callback_registry o ob entries st) as (? & ? & _). auto.
Qed.

Lemma consistent_unmountAll st : consistent st → consistent (unmountAll st).
Proof.
  unfold unmountAll. generalize (instances st) as l. intros l. revert st.
  induction l as [|i l IH]; intros st H; simpl; [exact H|].
  apply IH. apply consistent_unmount. exact H.
Qed.

Lemma consistent_renderAll P options st :
  consistent st → consistent (renderAll P options st).2.
Proof.
  intros H. unfold renderAll.
  assert (H0 : consistent (set_options options st))
    by (apply (consistent_same_registry st); auto).
  destruct (truthy (tagName options)).
  - simpl. unfold registerCustomElement.
    destruct (bool_decide _);
      apply (consistent_same_registry (set_options options st)); auto.
  - generalize (findHostElements options (document (set_options options st))).
    intros l.
    assert (Hgen : ∀ acc, consistent acc.2 →
              consistent (fold_left
                (λ (acc : list WidgetInstance * State) e,
                   let '(instance, st) := renderOne P e ∅ acc.2 in
                   (acc.1 ++ [instance], st)) l acc).2).
    { induction l as [|e l IH]; intros acc Hacc; simpl; [exact Hacc|].
      apply IH. pose proof (consistent_renderOne P e ∅ acc.2 Hacc) as Hr.
      destruct (renderOne P e ∅ acc.2). exact Hr. }
    apply Hgen. exact H0.
Qed.

Lemma consistent_apply P op st : consistent st → consistent (apply P op st).
Proof.
  intros H. destruct op; simpl.
  - apply consistent_renderAll. exact H.
  - apply consistent_renderOne. exact H.
  - apply consistent_unmount. exact H.
  - apply (consistent_same_registry st); [reflexivity|reflexivity|exact H].
  - apply consistent_unmountAll. exact H.
  - destruct (intersect_registry o entries st).
    apply (consistent_same_registry st); assumption.
  - apply (consistent_same_registry st); [reflexivity|reflexivity|exact H].
Qed.

(** In every state a habitat can reach, the registry and the metadata
    agree. *)
Lemma reachable_consistent P st : reachable P st → consistent st.
Proof.
  induction 1 as [doc|op st _ IH].
  - apply consistent_initial.
  - apply consistent_apply. exact IH.
Qed.

Lemma configured_reachable P options doc : reachable P (configured P options doc).
Proof. apply (reach_step P (OpRenderAll options)). apply reach_initial. Qed.

(** ** Unmounting twice *)

(** C1: the code breaks the claim.  The [unmount] closure has no mounted
    flag: only the removal from the registry is guarded (by the index
    that the search gives); the render of the empty tree, the clearing
    of the metadata and the [onUnmount] hook are not.  With the hook
    set, a second call of [unmount] on an instance that has been
    unmounted and removed calls the hook a second time and renders the
    empty tree again.  And when the element has been mounted again in
    between, a second call of the first instance's [unmount] clears the
    metadata of the new instance and takes the new instance out of the
    registry: the registry shrinks further, from one entry to none. *)
Theorem second_unmount_is_not_a_noop :
  let i := hooked_mount.1 in
  let once := unmount (env i) hooked_mount.2 in
  let twice := unmount (env i) once in
  let stale := unmount (env i) LifecycleViews.remounted.2 in
  instances hooked_mount.2 = [i] ∧
  instances once = [] ∧
  metas once !! 0 = None ∧
  List.filter is_unmount_hook (log once) = [HookUnmount 0] ∧
  List.filter is_unmount_hook (log twice) = [HookUnmount 0; HookUnmount 0] ∧
  log twice = log once ++ [CallRender None (HostRoot 0); HookUnmount 0] ∧
  instances LifecycleViews.remounted.2 = [LifecycleViews.remounted.1] ∧
  cl_props (env LifecycleViews.remounted.1) ≠ cl_props (env i) ∧
  meta_unmount <$> metas LifecycleViews.remounted.2 !! 0 =
    Some (env LifecycleViews.remounted.1) ∧
  instances stale = [] ∧
  metas stale !! 0 = None.
Proof.
  cbv zeta.
  split; [vm_compute; reflexivity|]. split; [vm_compute; reflexivity|].
  split; [vm_compute; reflexivity|]. split; [vm_compute; reflexivity|].
  split; [vm_compute; reflexivity|]. split; [vm_compute; reflexivity|].
  split; [vm_compute; reflexivity|]. split; [vm_compute; discriminate|].
  split; [vm_compute; reflexivity|]. split; vm_compute; reflexivity.
Qed.

(** Two calls of [unmount] in a row, on an instance of a registry that
    agrees with the metadata: the first removes exactly that element's
    entry and its metadata; the second leaves the registry, the
    metadata and the captured properties as they are, but renders the
    empty tree again and, when an [onUnmount] hook is set, calls the
    hook again. *)
Lemma unmount_twice st i :
  consistent st → i ∈ instances st →
  let s1 := unmount (env i) st in
  let s2 := unmount (env i) s1 in
  length (instances s1) + 1 = length (instances st) ∧
  live_on (element i) s1 = [] ∧
  metas s1 !! element i = None ∧
  instances s2 = instances s1 ∧
  metas s2 = metas s1 ∧
  cells s2 = cells s1 ∧
  observers s2 = observers s1 ∧
  log s2 = log s1 ++ CallRender None (cl_root (env i)) ::
             (if onUnmount (globalOptions st) then [HookUnmount (element i)] else []).
Proof.
  intros Hc Hin s1 s2.
  pose proof (instance_closure st Hc i Hin) as Hcl.
  pose proof (consistent_unmount (env i) st Hc) as Hc1.
  assert (Hm1 : metas s1 !! element i = None).
  { subst s1. rewrite unmount_metas, Hcl. apply lookup_delete_eq. }
  assert (Hl1 : live_on (element i) s1 = []).
  { pose proof (one_per_host s1 Hc1 (element i)) as Hl. rewrite Hm1 in Hl.
    destruct (live_on (element i) s1); [reflexivity|discriminate]. }
  split.
  { subst s1. rewrite unmount_instances, Hcl. apply remove_first_present.
    intros Hnil.
    assert (Hi : i ∈ List.filter (λ j, Nat.eqb (element j) (element i)) (instances st)).
    { apply list_elem_of_In, filter_In. split; [apply list_elem_of_In; exact Hin|].
      apply Nat.eqb_refl. }
    rewrite Hnil in Hi. inversion Hi. }
  split; [exact Hl1|]. split; [exact Hm1|].
  destruct (unmount_rest (env i) s1) as (Ho & Hce & Hob & _).
  split.
  { subst s2. rewrite unmount_instances, Hcl. apply remove_first_absent. exact Hl1. }
  split.
  { subst s2. rewrite unmount_metas, Hcl. apply delete_id. exact Hm1. }
  split; [exact Hce|]. split; [exact Hob|].
  subst s2. rewrite unmount_log, Hcl.
  subst s1. rewrite (proj1 (unmount_rest (env i) st)). reflexivity.
Qed.

Lemma hooked_mount_reachable : reachable RefPlatform.ref hooked_mount.2.
Proof.
  apply (reach_step RefPlatform.ref (OpRenderOne 0 ∅)). apply configured_reachable.
Qed.

(** ** One instance per host *)

Lemma renderOne_log_extends P e ov st :
  ∃ new, log (renderOne P e ov st).2 = log (force_unmount e st) ++ new.
Proof.
  destruct (lazy (globalOptions (force_unmount e st))) eqn:E.
  - destruct (renderOne_eager P e ov st E) as (_ & new & H & _). eauto.
  - destruct (renderOne_lazy P e ov st) as (_ & new & H & _); [congruence|eauto].
  - destruct (renderOne_lazy P e ov st) as (_ & new & H & _); [congruence|eauto].
Qed.

Lemma renderOne_live P e ov st :
  consistent st → live_on e (renderOne P e ov st).2 = [(renderOne P e ov st).1].
Proof.
  intros Hc.
  destruct (renderOne_fields P e ov st) as (Hel & _ & _ & Hi & _).
  destruct (force_unmount_frees e st Hc) as [_ Hl].
  unfold live_on in *. rewrite Hi, List.filter_app, Hl. simpl.
  rewrite Hel, Nat.eqb_refl. reflexivity.
Qed.

(** ** Lazy activation *)

(** The observer that a lazy [renderOne] creates. *)
Lemma lazy_observer P e ov st :
  lazy (globalOptions st) ≠ LazyOff →
  ∃ ob,
    observers (renderOne P e ov st).2 = observers st ++ [ob] ∧
    observing ob = true ∧ target ob = e ∧
    use_hydrate ob = hydrate (globalOptions st) ∧
    do_vnode ob = {| vprops := props (renderOne P e ov st).1 |} ∧
    do_root ob = cl_root (env (renderOne P e ov st).1).
Proof.
  intros Hl. destruct (force_unmount_rest e st) as (Ho & _ & Hob & _).
  destruct (renderOne_lazy P e ov st) as [H _]; [rewrite Ho; exact Hl|].
  rewrite Hob, Ho in H. eexists. split; [exact H|]. repeat split.
Qed.

Lemma intersect_observing o ob entries st :
  observers st !! o = Some ob → observing ob = true →
  log (intersect o entries st) = log st ++ delivery o ob entries ∧
  observers (intersect o entries st) =
    (if existsb isIntersecting entries
     then alter disconnected o (observers st) else observers st).
Proof.
  intros Hlook Hobs. unfold intersect. rewrite Hlook, Hobs.
  split; [apply observer_callback_log | apply observer_callback_observers].
Qed.

Lemma intersect_disconnected o ob entries st :
  observers st !! o = Some ob → observing ob = false → intersect o entries st = st.
Proof. intros Hlook Hobs. unfold intersect. rewrite Hlook, Hobs. reflexivity. Qed.

(** What the observer of a lazy mount does with the batches it is given:
    a batch renders once for each intersecting entry in it; until a
    batch has one, nothing is rendered and the observer keeps observing;
    after such a batch the observer is disconnected and later batches do
    nothing. *)
Lemma lazy_activation P st e ov entries :
  lazy (globalOptions st) ≠ LazyOff →
  let i := (renderOne P e ov st).1 in
  let s1 := (renderOne P e ov st).2 in
  let o := length (observers st) in
  let shot := doRender (hydrate (globalOptions st)) {| vprops := props i |}
                       (cl_root (env i)) in
  log (intersect o entries s1) =
    log s1 ++ flat_map (λ en, if isIntersecting en then [shot; CallDisconnect o] else [])
                       entries ∧
  (existsb isIntersecting entries = false →
     observers (intersect o entries s1) = observers s1) ∧
  (existsb isIntersecting entries = true →
     ∀ later, intersect o later (intersect o entries s1) = intersect o entries s1).
Proof.
  intros Hl i s1 o shot.
  destruct (lazy_observer P e ov st Hl) as (ob & Hobs & Hon & _ & Hh & Hv & Hr).
  fold s1 i in Hobs, Hv, Hr.
  assert (Hlook : observers s1 !! o = Some ob)
    by (rewrite Hobs; apply list_lookup_middle; reflexivity).
  destruct (intersect_observing o ob entries s1 Hlook Hon) as [Hlog Hafter].
  split; [|split].
  - rewrite Hlog. unfold delivery, shot. rewrite Hh, Hv, Hr. reflexivity.
  - intros Hnone. rewrite Hafter, Hnone. reflexivity.
  - intros Hsome later. rewrite Hsome in Hafter.
    apply (intersect_disconnected o (disconnected ob)); [|reflexivity].
    rewrite Hafter, list_lookup_alter_eq, Hlook. reflexivity.
Qed.

(** C3: the code breaks the claim.  [unmount] renders the empty tree,
    clears the metadata, calls the hook and removes the instance from
    the registry, and never reaches the observer that the lazy mount
    created.  After a lazy mount followed by [unmount], the element
    carries no metadata, the registry is empty, the observer is still
    observing, and the first visibility event renders the component
    into the root that [unmount] has just emptied. *)
Theorem unmount_leaves_observer_connected :
  let unmounted := unmount (env lazy_mount.1) lazy_mount.2 in
  instances unmounted = [] ∧
  metas unmounted !! 0 = None ∧
  observing <$> observers unmounted !! 0 = Some true ∧
  log unmounted =
    [CallObserve 0 0; HookMounted 0 ∅; CallRender None (HostRoot 0)] ∧
  log (intersect 0 [visible] unmounted) =
    [CallObserve 0 0; HookMounted 0 ∅; CallRender None (HostRoot 0);
     CallRender (Some {| vprops := ∅ |}) (HostRoot 0); CallDisconnect 0] ∧
  instances (intersect 0 [visible] unmounted) = [].
Proof.
  cbv zeta.
  split; [vm_compute; reflexivity|]. split; [vm_compute; reflexivity|].
  split; [vm_compute; reflexivity|]. split; [vm_compute; reflexivity|].
  split; vm_compute; reflexivity.
Qed.

(** C8: the code breaks the claim on a batch with two intersecting
    entries.  The callback goes on through the batch after
    [disconnect], so the component is rendered twice. *)
Theorem lazy_batch_renders_twice :
  List.filter is_component_render (log lazy_mount.2) = [] ∧
  List.filter is_component_render (log (intersect 0 [hidden] lazy_mount.2)) = [] ∧
  List.filter is_component_render (log (intersect 0 [visible; visible] lazy_mount.2)) =
    [CallRender (Some {| vprops := ∅ |}) (HostRoot 0);
     CallRender (Some {| vprops := ∅ |}) (HostRoot 0)].
Proof. repeat split; vm_compute; reflexivity. Qed.


(** ** Updating *)

(** C4: the code breaks the claim.  [update] assigns the [props]
    variable that the closures capture and renders with the merged
    properties, but the instance object was built from the value the
    variable had at mount time and nothing writes its [props] field: in
    every state, after [update] the registry is unchanged, the instance
    still shows the properties of the mount, and the merged properties
    are only in the captured variable and in the render.  On the counter
    page, an instance mounted with count 0 and updated with count 5
    still shows count 0. *)
Theorem update_leaves_props_field :
  (∀ P st e ov newProps,
     let i := (renderOne P e ov st).1 in
     let s1 := (renderOne P e ov st).2 in
     let s2 := update (env i) newProps s1 in
     instances s2 = instances s1 ∧
     last (instances s2) = Some i ∧
     metas s2 = metas s1 ∧
     cells s2 !! cl_props (env i) = Some (spread (props i) newProps) ∧
     log s2 = log s1 ++ [CallRender (Some {| vprops := spread (props i) newProps |})
                                    (cl_root (env i))]) ∧
  props counter_mount.1 = count_is 0 ∧
  spread (props counter_mount.1) (count_is 5) = count_is 5 ∧
  props <$> instances (update (env counter_mount.1) (count_is 5) counter_mount.2) =
    [count_is 0].
Proof.
  split; [|repeat split; vm_compute; reflexivity].
  intros P st e ov newProps i s1 s2.
  destruct (renderOne_fields P e ov st) as (_ & _ & Hcp & Hi & _ & Hce & _).
  fold s1 i in Hcp, Hi, Hce.
  assert (Hcell : cells s1 !!! cl_props (env i) = props i).
  { rewrite Hce, Hcp. apply list_lookup_total_middle. reflexivity. }
  split; [reflexivity|]. split; [subst s2; simpl; rewrite Hi; apply last_snoc|].
  split; [reflexivity|]. split.
  - subst s2. unfold update. simpl. rewrite Hcell.
    apply list_lookup_insert_eq. rewrite Hce, Hcp, length_app. simpl. lia.
  - subst s2. unfold update. simpl. rewrite Hcell. reflexivity.
Qed.

End LifecycleProofs.

(* ===================================================================== *)
(** * More on the event bus                                               *)
(* ===================================================================== *)

Module EventBusCallsProofs.

Import EventBus EventBusCalls EventBusProofs.
Local Open Scope list_scope.
Local Open Scope nat_scope.

Lemma step_throw beh b tr todo event k :
  step beh {| bus := b; trace := tr; stack := Running (DoThrow :: todo) event :: k |} =
  {| bus := b; trace := tr ++ [ErrorLogged event]; stack := k |}.
Proof. reflexivity. Qed.

Lemma step_emit beh b tr e args todo event k :
  step beh {| bus := b; trace := tr; stack := Running (DoEmit e args :: todo) event :: k |} =
  {| bus := b; trace := tr; stack := emit_frames b e args ++ Running todo event :: k |}.
Proof. reflexivity. Qed.

Lemma elem_of_set_values (s : CallbackSet) c : c ∈ set_values s ↔ Some c ∈ s.
Proof.
  unfold set_values. rewrite list_elem_of_omap. split.
  - intros (x & Hx & Hid). simpl in Hid. subst. exact Hx.
  - intros H. exists (Some c). auto.
Qed.

Lemma set_values_add (s : CallbackSet) c :
  set_values (set_add s c) =
  if bool_decide (c ∈ set_values s) then set_values s else set_values s ++ [c].
Proof.
  unfold set_add, set_has.
  rewrite (bool_decide_ext (c ∈ set_values s) (Some c ∈ s)) by apply elem_of_set_values.
  destruct (bool_decide (Some c ∈ s)); [reflexivity|].
  rewrite set_values_app. reflexivity.
Qed.

Lemma set_add_twice (s : CallbackSet) c : set_add (set_add s c) c = set_add s c.
Proof.
  unfold set_add at 1. unfold set_has.
  rewrite bool_decide_eq_true_2; [reflexivity|].
  unfold set_add, set_has. destruct (bool_decide (Some c ∈ s)) eqn:E.
  - apply bool_decide_eq_true in E. exact E.
  - apply elem_of_app. right. apply list_elem_of_singleton. reflexivity.
Qed.

(** What [on] does when the topic has no set yet. *)
Lemma on_new event c b :
  events b !! event = None →
  on event c b = {| events := <[event := length (heap b)]> (events b);
                    heap := heap b ++ [[Some c]] |}.
Proof.
  intros He. unfold on. rewrite He. simpl. rewrite lookup_insert_eq. simpl.
  f_equal. apply list_eq. intros j.
  destruct (decide (j = length (heap b))) as [->|Hne].
  - rewrite list_lookup_alter_eq, !lookup_app_r, Nat.sub_diag by lia. reflexivity.
  - rewrite list_lookup_alter_ne by auto.
    destruct (decide (j < length (heap b))).
    + rewrite !lookup_app_l by assumption. reflexivity.
    + rewrite !lookup_app_r by lia.
      destruct (j - length (heap b)) as [|m] eqn:E; [lia|]. reflexivity.
Qed.

(** ** Soundness of the buses that calls build *)

Lemma elem_of_alter_set (f : CallbackSet → CallbackSet) a (h : list CallbackSet) s :
  s ∈ alter f a h → s ∈ h ∨ ∃ s0, s0 ∈ h ∧ s = f s0.
Proof.
  intros H. apply list_elem_of_lookup in H as [j Hj].
  destruct (decide (a = j)) as [<-|Hne].
  - rewrite list_lookup_alter_eq in Hj.
    destruct (h !! a) as [s0|] eqn:E; [|discriminate].
    right. exists s0. split; [|simpl in Hj; congruence].
    apply list_elem_of_lookup. eauto.
  - rewrite list_lookup_alter_ne in Hj by assumption.
    left. apply list_elem_of_lookup. eauto.
Qed.

Lemma NoDup_set_add (s : CallbackSet) c :
  NoDup (set_values s) → NoDup (set_values (set_add s c)).
Proof.
  intros H. rewrite set_values_add.
  destruct (bool_decide (c ∈ set_values s)) eqn:E; [exact H|].
  apply bool_decide_eq_false in E. apply NoDup_app. split; [exact H|].
  split; [|apply NoDup_singleton].
  intros x Hx Hx'. apply list_elem_of_singleton in Hx'. subst. auto.
Qed.

Lemma NoDup_set_delete (s : CallbackSet) c :
  NoDup (set_values s) → NoDup (set_values (set_delete s c)).
Proof.
  intros H. rewrite set_values_delete.
  apply NoDup_ListNoDup. apply List.NoDup_filter. apply NoDup_ListNoDup. exact H.
Qed.

Lemma sound_new : sound empty_bus.
Proof.
  split.
  - intros e a H. simpl in H. rewrite lookup_empty in H. discriminate.
  - intros e e' a H. simpl in H. rewrite lookup_empty in H. discriminate.
  - intros s H. simpl in H. inversion H.
Qed.

Lemma sound_alter (f : CallbackSet → CallbackSet) a b :
  (∀ s, NoDup (set_values s) → NoDup (set_values (f s))) →
  sound b → sound {| events := events b; heap := alter f a (heap b) |}.
Proof.
  intros Hf [H1 H2 H3]. split; simpl.
  - intros e a' He. rewrite length_alter. eauto.
  - exact H2.
  - intros s Hs. apply elem_of_alter_set in Hs as [Hs|(s0 & Hs0 & ->)]; auto.
Qed.

Lemma sound_call c b : sound b → sound (call c b).
Proof.
  intros Hs. destruct c as [e cb|e cb|]; simpl.
  - destruct (events b !! e) as [a|] eqn:He.
    + unfold on. rewrite He. simpl. rewrite He.
      apply sound_alter; [|exact Hs]. intros s. apply NoDup_set_add.
    + rewrite on_new by exact He. destruct Hs as [H1 H2 H3]. split; simpl.
      * intros e' a Hl. rewrite length_app. simpl.
        apply lookup_insert_Some in Hl as [[_ <-]|[_ Hl]]; [lia|].
        specialize (H1 _ _ Hl). lia.
      * intros e1 e2 a Hl1 Hl2.
        apply lookup_insert_Some in Hl1 as [[<- <-]|[Hn1 Hl1]];
          apply lookup_insert_Some in Hl2 as [[<- Ha]|[Hn2 Hl2]]; try congruence.
        -- specialize (H1 _ _ Hl2). lia.
        -- specialize (H1 _ _ Hl1). lia.
        -- eauto.
      * intros s Hin. apply elem_of_app in Hin as [Hin|Hin]; [auto|].
        apply list_elem_of_singleton in Hin. subst. apply NoDup_singleton.
  - unfold off. destruct (events b !! e) as [a|]; [|exact Hs].
    apply sound_alter; [|exact Hs]. intros s. apply NoDup_set_delete.
  - destruct Hs as [H1 H2 H3]. split; simpl.
    + intros e a H. rewrite lookup_empty in H. discriminate.
    + intros e e' a H. rewrite lookup_empty in H. discriminate.
    + exact H3.
Qed.

Lemma built_sound b : built b → sound b.
Proof.
  induction 1 as [|c b _ IH]; [apply sound_new | apply sound_call; exact IH].
Qed.

Lemma subscribers_NoDup b event : sound b → NoDup (subscribers b event).
Proof.
  intros [H1 _ H3]. unfold subscribers.
  destruct (events b !! event) as [a|] eqn:He; [|apply NoDup_nil_2].
  destruct (heap b !! a) as [s|] eqn:Hh; simpl; [|apply NoDup_nil_2].
  apply H3. apply list_elem_of_lookup. eauto.
Qed.

(** ** The subscribers after each call *)

Lemma subscribers_on_same event c b :
  sound b →
  subscribers (on event c b) event =
  if bool_decide (c ∈ subscribers b event)
  then subscribers b event else subscribers b event ++ [c].
Proof.
  intros Hs.
  destruct (events b !! event) as [a|] eqn:He.
  - destruct (heap b !! a) as [s|] eqn:Hh.
    + destruct (on_present event c b a s He Hh) as [He' Hh'].
      assert (Hsub : subscribers b event = set_values s)
        by (unfold subscribers; rewrite He, Hh; reflexivity).
      rewrite Hsub. unfold subscribers. rewrite He', He, Hh'. simpl.
      apply set_values_add.
    + apply lookup_ge_None in Hh. pose proof (sets_allocated b Hs _ _ He). lia.
  - assert (Hsub : subscribers b event = [])
      by (unfold subscribers; rewrite He; reflexivity).
    rewrite Hsub, on_new by exact He. unfold subscribers. simpl.
    rewrite lookup_insert_eq, lookup_app_r, Nat.sub_diag by lia. reflexivity.
Qed.

Lemma subscribers_on_other event event' c b :
  sound b → event ≠ event' →
  subscribers (on event c b) event' = subscribers b event'.
Proof.
  intros Hs Hne. destruct (events b !! event) as [a|] eqn:He.
  - unfold on. rewrite He. simpl. rewrite He. unfold subscribers. simpl.
    destruct (events b !! event') as [a'|] eqn:He'; [|reflexivity].
    rewrite list_lookup_alter_ne; [reflexivity|].
    intros ->. apply Hne. eapply sets_distinct; eauto.
  - rewrite on_new by exact He. unfold subscribers. simpl.
    rewrite lookup_insert_ne by assumption.
    destruct (events b !! event') as [a'|] eqn:He'; [|reflexivity].
    rewrite lookup_app_l; [reflexivity|]. eapply sets_allocated; eauto.
Qed.

Lemma subscribers_off_same event c b :
  subscribers (off event c b) event =
  List.filter (λ x, negb (Nat.eqb x c)) (subscribers b event).
Proof.
  unfold off, subscribers. destruct (events b !! event) as [a|] eqn:He; simpl.
  - rewrite He, list_lookup_alter_eq.
    destruct (heap b !! a) as [s|]; simpl; [apply set_values_delete|reflexivity].
  - rewrite He. reflexivity.
Qed.

Lemma subscribers_off_other event event' c b :
  sound b → event ≠ event' →
  subscribers (off event c b) event' = subscribers b event'.
Proof.
  intros Hs Hne. unfold off. destruct (events b !! event) as [a|] eqn:He; [|reflexivity].
  unfold subscribers. simpl.
  destruct (events b !! event') as [a'|] eqn:He'; [|reflexivity].
  rewrite list_lookup_alter_ne; [reflexivity|].
  intros ->. apply Hne. eapply sets_distinct; eauto.
Qed.

Lemma filter_absent (l : list Callback) c :
  c ∉ l → List.filter (λ x, negb (Nat.eqb x c)) l = l.
Proof.
  induction l as [|x l IH]; intros H; simpl; [reflexivity|].
  apply not_elem_of_cons in H as [Hx Hl].
  replace (Nat.eqb x c) with false by (symmetry; apply Nat.eqb_neq; congruence).
  simpl. rewrite IH by assumption. reflexivity.
Qed.

Lemma filter_removes (l : list Callback) c :
  c ∉ List.filter (λ x, negb (Nat.eqb x c)) l.
Proof.
  intros H. apply list_elem_of_In, filter_In in H as [_ H].
  rewrite Nat.eqb_refl in H. discriminate.
Qed.

(** X1: subscribing is idempotent, on any bus: a second [on] with the
    same topic and callback changes nothing. *)
Theorem on_twice event c b : on event c (on event c b) = on event c b.
Proof.
  assert (Hgen : ∀ b' a, events b' !! event = Some a →
            on event c {| events := events b';
                          heap := alter (λ s, set_add s c) a (heap b') |} =
            {| events := events b'; heap := alter (λ s, set_add s c) a (heap b') |}).
  { intros b' a He. unfold on. simpl. rewrite He. simpl. rewrite He. f_equal.
    rewrite list_alter_alter_eq. apply list_alter_ext; [|reflexivity].
    intros s _. apply set_add_twice. }
  destruct (events b !! event) as [a|] eqn:He.
  - assert (Hon : on event c b =
                  {| events := events b;
                     heap := alter (λ s, set_add s c) a (heap b) |})
      by (unfold on; rewrite He; simpl; rewrite He; reflexivity).
    rewrite Hon. apply Hgen. exact He.
  - set (b1 := {| events := <[event := length (heap b)]> (events b);
                  heap := heap b ++ [[]] |}).
    assert (Hon : on event c b =
                  {| events := events b1;
                     heap := alter (λ s, set_add s c) (length (heap b)) (heap b1) |})
      by (unfold on; rewrite He; simpl; rewrite lookup_insert_eq; reflexivity).
    rewrite Hon. apply Hgen. simpl. apply lookup_insert_eq.
Qed.

(** X2: on a bus that calls of [on], [off] and [clear] have built, no
    topic ever holds a callback twice, a new subscriber goes to the end
    of its topic, and [on] leaves the other topics as they are. *)
Theorem on_subscribes b event c :
  built b →
  NoDup (subscribers b event) ∧
  c ∈ subscribers (on event c b) event ∧
  (c ∉ subscribers b event →
   subscribers (on event c b) event = subscribers b event ++ [c]) ∧
  (c ∈ subscribers b event →
   subscribers (on event c b) event = subscribers b event) ∧
  ∀ event', event ≠ event' → subscribers (on event c b) event' = subscribers b event'.
Proof.
  intros Hb. pose proof (built_sound b Hb) as Hs.
  pose proof (subscribers_on_same event c b Hs) as Hon.
  split; [apply subscribers_NoDup; exact Hs|]. split; [|split; [|split]].
  - rewrite Hon. destruct (bool_decide (c ∈ subscribers b event)) eqn:E.
    + apply bool_decide_eq_true in E. exact E.
    + apply elem_of_app. right. apply list_elem_of_singleton. reflexivity.
  - intros H. rewrite Hon, bool_decide_eq_false_2 by exact H. reflexivity.
  - intros H. rewrite Hon, bool_decide_eq_true_2 by exact H. reflexivity.
  - intros event' Hne. apply subscribers_on_other; assumption.
Qed.

Lemma on_subscribes_witness :
  built (on "x" 1 empty_bus) ∧
  subscribers (on "x" 2 (on "x" 1 empty_bus)) "x" = subscribers (on "x" 1 empty_bus) "x" ++ [2].
Proof.
  assert (Hb : built (on "x" 1 empty_bus)) by apply (built_call (CallOn "x" 1)), built_new.
  split; [exact Hb|].
  apply (proj1 (proj2 (proj2 (on_subscribes (on "x" 1 empty_bus) "x" 2 Hb)))).
  vm_compute. intros H. inversion H as [|? ? ? H']; inversion H'.
Defined.

(** X3: [off] takes exactly the given callback out of the given topic:
    the others keep their order, the other topics are untouched, a
    callback subscribed and then unsubscribed is no longer a subscriber,
    and [off] for an unknown topic or a callback that is not subscribed
    leaves the subscribers as they are. *)
Theorem off_unsubscribes b event c :
  built b →
  subscribers (off event c b) event =
    List.filter (λ x, negb (Nat.eqb x c)) (subscribers b event) ∧
  (c ∉ subscribers (off event c b) event) ∧
  (c ∉ subscribers (off event c (on event c b)) event) ∧
  (c ∉ subscribers b event → subscribers (off event c b) event = subscribers b event) ∧
  (events b !! event = None → off event c b = b) ∧
  ∀ event', event ≠ event' → subscribers (off event c b) event' = subscribers b event'.
Proof.
  intros Hb. pose proof (built_sound b Hb) as Hs.
  split; [apply subscribers_off_same|]. split; [|split; [|split; [|split]]].
  - rewrite subscribers_off_same. apply filter_removes.
  - rewrite subscribers_off_same. apply filter_removes.
  - intros H. rewrite subscribers_off_same. apply filter_absent. exact H.
  - intros He. unfold off. rewrite He. reflexivity.
  - intros event' Hne. apply subscribers_off_other; assumption.
Qed.

Lemma off_unsubscribes_witness :
  built (on "x" 2 (on "x" 1 empty_bus)) ∧
  subscribers (off "x" 1 (on "x" 2 (on "x" 1 empty_bus))) "x" = [2].
Proof.
  assert (Hb : built (on "x" 2 (on "x" 1 empty_bus))).
  { apply (built_call (CallOn "x" 2)), (built_call (CallOn "x" 1)), built_new. }
  split; [exact Hb|].
  rewrite (proj1 (off_unsubscribes (on "x" 2 (on "x" 1 empty_bus)) "x" 1 Hb)).
  vm_compute. reflexivity.
Defined.

(** After [clear] no topic has a subscriber, and an [emit] on any topic
    calls nobody and leaves the bus as it is. *)
Lemma clear_unsubscribes_all beh b event args fuel :
  subscribers (clear b) event = [] ∧
  emit beh fuel event args (clear b) = Some (clear b, []).
Proof.
  split.
  - unfold subscribers, clear. simpl. rewrite lookup_empty. reflexivity.
  - unfold emit, emit_frames, clear. simpl. rewrite lookup_empty.
    rewrite run_finished. reflexivity.
Qed.

(** ** Callbacks that throw *)

(** A stretch of harmless callbacks is walked like a quiet one; a throw
    is logged under the topic and the walk goes on. *)
Lemma sweep_harmless beh event args a k mid :
  ∀ pre post b tr f,
    heap b !! a = Some (pre ++ mid ++ post) →
    Forall (harmless beh args) (set_values mid) →
    run beh (length mid + length (set_values mid) + f)
        {| bus := b; trace := tr; stack := ForEach a (length pre) event args :: k |} =
    run beh f
        {| bus := b; trace := tr ++ outcomes beh event args (set_values mid);
           stack := ForEach a (length pre + length mid) event args :: k |}.
Proof.
  induction mid as [|x mid IH]; intros pre post b tr f Hheap Hh.
  - simpl. rewrite app_nil_r, Nat.add_0_r. reflexivity.
  - assert (Hx : default [] (heap b !! a) !! length pre = Some x).
    { rewrite Hheap. simpl. rewrite lookup_app_r by lia.
      rewrite Nat.sub_diag. reflexivity. }
    assert (Hheap' : heap b !! a = Some ((pre ++ [x]) ++ mid ++ post))
      by (rewrite <- app_assoc; exact Hheap).
    assert (Hlen : length (pre ++ [x]) = S (length pre))
      by (rewrite length_app; simpl; lia).
    destruct x as [c|].
    + change (set_values (Some c :: mid)) with (c :: set_values mid) in *.
      apply Forall_cons in Hh as [Hc Hh].
      simpl length.
      replace (S (length mid) + S (length (set_values mid)) + f)
        with (S (S (length mid + length (set_values mid) + f))) by lia.
      rewrite run_step, step_forEach, Hx, run_step.
      unfold outcomes. simpl flat_map. fold (outcomes beh event args (set_values mid)).
      destruct Hc as [Hc|Hc].
      * rewrite Hc, step_return. simpl throws_first. cbv iota.
        rewrite <- Hlen, (IH _ post b _ f Hheap' Hh), Hlen.
        simpl. rewrite <- app_assoc. simpl. rewrite Nat.add_succ_r. reflexivity.
      * destruct (beh c args) as [|[] todo]; try discriminate.
        rewrite step_throw. simpl throws_first. cbv iota.
        rewrite <- Hlen, (IH _ post b _ f Hheap' Hh), Hlen.
        simpl. rewrite <- !app_assoc. simpl. rewrite Nat.add_succ_r. reflexivity.
    + change (set_values (None :: mid)) with (set_values mid) in *.
      simpl length.
      replace (S (length mid) + length (set_values mid) + f)
        with (S (length mid + length (set_values mid) + f)) by lia.
      rewrite run_step, step_forEach, Hx.
      rewrite <- Hlen, (IH _ post b _ f Hheap' Hh), Hlen.
      simpl. rewrite Nat.add_succ_r. reflexivity.
Qed.

(** X4: a callback that throws does not stop the dispatch.  When every
    subscriber of the topic either returns or throws, [emit] calls every
    one of them once, in order, logs one error for each that throws, and
    leaves the bus as it is. *)
Theorem emit_survives_throw beh event args b s fuel :
  topic_set b event s →
  Forall (harmless beh args) (set_values s) →
  2 * length s + 1 ≤ fuel →
  emit beh fuel event args b = Some (b, outcomes beh event args (set_values s)).
Proof.
  intros (a & He & Hh) Hq Hfuel.
  unfold emit, emit_frames. rewrite He.
  pose proof (set_values_length s) as Hl.
  replace fuel
    with (length s + length (set_values s)
          + S (fuel - length s - length (set_values s) - 1)) by lia.
  rewrite (sweep_harmless beh event args a [] s [] [] b);
    [|rewrite app_nil_r; exact Hh|exact Hq].
  change (length [] + length s) with (length s).
  rewrite (sweep_end _ _ _ _ _ s) by exact Hh.
  rewrite run_finished. reflexivity.
Qed.

Lemma emit_survives_throw_witness :
  emit one_throws 5 "x" [seven] (on "x" 2 (on "x" 1 empty_bus)) =
  Some (on "x" 2 (on "x" 1 empty_bus),
        [Called 1 [seven]; ErrorLogged "x"; Called 2 [seven]]).
Proof.
  apply (emit_survives_throw one_throws "x" [seven] _ [Some 1; Some 2] 5).
  - exists 0. split; vm_compute; reflexivity.
  - constructor; [right; reflexivity|]. constructor; [left; reflexivity|]. constructor.
  - simpl. lia.
Defined.

(** ** Dispatch within a dispatch *)

(** X5: [emit] is re-entrant.  A callback that emits a second topic has
    that topic's subscribers called at once, before the next subscriber
    of the first topic is reached. *)
Theorem emit_nested beh event args b pre cb post event' args' s' fuel :
  topic_set b event (pre ++ Some cb :: post) →
  topic_set b event' s' →
  beh cb args = [DoEmit event' args'] →
  Forall (quiet beh args) (set_values pre ++ set_values post) →
  Forall (quiet beh args') (set_values s') →
  2 * length (pre ++ Some cb :: post) + 2 * length s' + 5 ≤ fuel →
  emit beh fuel event args b =
    Some (b, called args (set_values pre) ++ Called cb args ::
             called args' (set_values s') ++ called args (set_values post)).
Proof.
  intros (a & He & Hh) (a' & He' & Hh') Hcb Hq Hq' Hfuel.
  unfold emit, emit_frames. rewrite He.
  apply Forall_app in Hq as [Hpre Hpost].
  pose proof (set_values_length pre) as Hl1.
  pose proof (set_values_length post) as Hl2.
  pose proof (set_values_length s') as Hl3.
  rewrite length_app in Hfuel. simpl in Hfuel.
  set (f := fuel - (length pre + length (set_values pre)) - 2
            - (length s' + length (set_values s')) - 2
            - (length post + length (set_values post)) - 1).
  replace fuel
    with (length pre + length (set_values pre)
          + S (S (length s' + length (set_values s')
                  + S (S (length post + length (set_values post) + S f)))))
    by (subst f; lia).
  rewrite (sweep_quiet beh event args a _ pre [] (Some cb :: post) b) by assumption.
  change (length [] + length pre) with (length pre).
  rewrite run_step, step_forEach, Hh. simpl default.
  rewrite list_lookup_middle by reflexivity.
  rewrite Hcb, run_step, step_emit. unfold emit_frames. rewrite He'. simpl app.
  rewrite (sweep_quiet beh event' args' a' _ s' [] [] b);
    [|rewrite app_nil_r; exact Hh'|exact Hq'].
  change (length [] + length s') with (length s').
  rewrite (sweep_end _ _ _ _ _ s') by exact Hh'.
  rewrite run_step, step_return.
  replace (S (length pre)) with (length (pre ++ [Some cb]))
    by (rewrite length_app; simpl; lia).
  rewrite (sweep_quiet beh event args a _ post (pre ++ [Some cb]) []).
  2:{ rewrite Hh, app_nil_r, <- app_assoc. reflexivity. }
  2:{ exact Hpost. }
  rewrite <- length_app.
  rewrite (sweep_end _ _ _ _ _ ((pre ++ [Some cb]) ++ post)).
  2:{ rewrite Hh, <- app_assoc. reflexivity. }
  rewrite run_finished. simpl. rewrite <- !app_assoc. reflexivity.
Qed.

Lemma emit_nested_witness :
  emit one_emits 11 "x" [seven] (on "y" 3 (on "x" 2 (on "x" 1 empty_bus))) =
  Some (on "y" 3 (on "x" 2 (on "x" 1 empty_bus)),
        [Called 1 [seven]; Called 3 []; Called 2 [seven]]).
Proof.
  apply (emit_nested one_emits "x" [seven] _ [] 1 [Some 2] "y" [] [Some 3] 11).
  - exists 0. split; vm_compute; reflexivity.
  - exists 1. split; vm_compute; reflexivity.
  - reflexivity.
  - repeat constructor.
  - repeat constructor.
  - simpl. lia.
Defined.

(** ** A dispatch that never ends *)

Lemma run_more beh f k m r : run beh f m = Some r → run beh (f + k) m = Some r.
Proof.
  revert m. induction f as [|f IH]; intros m H.
  - destruct m as [b tr [|fr st]]; simpl in H; [|discriminate].
    injection H as <-. apply run_finished.
  - destruct m as [b tr [|fr st]].
    + simpl in H. injection H as <-. apply run_finished.
    + change (S f + k) with (S (f + k)). rewrite run_step.
      rewrite run_step in H. apply IH. exact H.
Qed.

Lemma run_stuck beh f k m : run beh (f + k) m = None → run beh f m = None.
Proof.
  intros H. destruct (run beh f m) eqn:E; [|reflexivity].
  rewrite (run_more _ _ k _ _ E) in H. discriminate.
Qed.

(** A callback that takes itself out of the set and puts itself back is
    appended behind the index of the walk, so the walk meets it again. *)
Lemma resubscribe_loops beh event args a c k fuel :
  beh c args = [DoOff event c; DoOn event c] →
  ∀ b tr passed,
    events b !! event = Some a →
    heap b !! a = Some (passed ++ [Some c]) →
    run beh fuel {| bus := b; trace := tr;
                    stack := ForEach a (length passed) event args :: k |} = None.
Proof.
  intros Hc. induction fuel as [fuel IH] using lt_wf_ind.
  intros b tr passed He Hh.
  destruct fuel as [|[|[|[|f]]]]; try reflexivity;
    rewrite run_step, step_forEach, Hh; simpl default;
    rewrite list_lookup_middle by reflexivity; rewrite Hc; try reflexivity;
    rewrite run_step, step_off; try reflexivity;
    rewrite run_step, step_on; try reflexivity;
    rewrite run_step, step_return.
  destruct (off_present event c b a _ He Hh) as [He1 Hh1].
  rewrite <- He1 in He.
  destruct (on_present event c (off event c b) a _ He Hh1) as [He2 Hh2].
  rewrite set_delete_app in Hh2.
  assert (Hgone : Some c ∉ set_delete passed c ++ set_delete [Some c] c).
  { rewrite <- set_delete_app. unfold set_delete. intros Hin.
    apply list_elem_of_fmap in Hin as (x & Hx & _).
    destruct (bool_decide (x = Some c)) eqn:E; [discriminate|].
    apply bool_decide_eq_false in E. congruence. }
  rewrite (set_add_absent _ _ Hgone) in Hh2.
  replace (S (length passed))
    with (length (set_delete passed c ++ set_delete [Some c] c)).
  2:{ rewrite length_app, !set_delete_length. simpl. lia. }
  apply IH; [lia| |exact Hh2].
  rewrite He2. exact He.
Qed.

(** X6: a callback that unsubscribes itself and subscribes again while
    it runs makes the dispatch endless: the live set grows behind the
    walk, and no amount of fuel reaches the end of [emit]. *)
Theorem emit_resubscribe_diverges beh event args b pre c fuel :
  topic_set b event (pre ++ [Some c]) →
  Forall (quiet beh args) (set_values pre) →
  beh c args = [DoOff event c; DoOn event c] →
  emit beh fuel event args b = None.
Proof.
  intros (a & He & Hh) Hq Hc. unfold emit, emit_frames. rewrite He.
  assert (H : run beh fuel
                {| bus := b; trace := []; stack := [ForEach a 0 event args] |} = None).
  { apply (run_stuck _ _ (length pre + length (set_values pre))).
    rewrite Nat.add_comm.
    rewrite (sweep_quiet beh event args a [] pre [] [Some c] b) by assumption.
    apply (resubscribe_loops beh event args a c); assumption. }
  rewrite H. reflexivity.
Qed.

Lemma emit_resubscribe_diverges_witness :
  emit resubscriber 1000 "x" [] (on "x" 1 empty_bus) = None.
Proof.
  apply (emit_resubscribe_diverges resubscriber "x" [] _ [] 1 1000).
  - exists 0. split; vm_compute; reflexivity.
  - constructor.
  - reflexivity.
Defined.

End EventBusCallsProofs.

(* ===================================================================== *)
(** * EventBus: the dispatch walks the live set                           *)
(* ===================================================================== *)

Module EventBusWalkProofs.

Import EventBus EventBusCalls EventBusProofs EventBusCallsProofs.
Local Open Scope list_scope.
Local Open Scope nat_scope.

Lemma step_clear beh b tr todo event k :
  step beh {| bus := b; trace := tr; stack := Running (DoClear :: todo) event :: k |} =
  {| bus := clear b; trace := tr; stack := Running todo event :: k |}.
Proof. reflexivity. Qed.

(** A callback that only changes subscriptions runs to its end, and the
    bus is then what its calls make of it. *)
Lemma run_changes beh event k tr f :
  ∀ todo b,
    forallb changes_subscriptions todo = true →
    run beh (length todo + 1 + f)
        {| bus := b; trace := tr; stack := Running todo event :: k |} =
    run beh f {| bus := perform todo b; trace := tr; stack := k |}.
Proof.
  induction todo as [|act todo IH]; intros b Hs.
  - simpl. rewrite step_return. reflexivity.
  - simpl in Hs. apply andb_true_iff in Hs as [Hact Hs].
    change (length (act :: todo) + 1 + f) with (S (length todo + 1 + f)).
    rewrite run_step.
    destruct act as [e c|e c|e a'| |]; try discriminate.
    + rewrite step_on. apply IH. exact Hs.
    + rewrite step_off. apply IH. exact Hs.
    + rewrite step_clear. apply IH. exact Hs.
Qed.

(** A set object is never taken off the heap and never gets shorter:
    [on] appends to it, [off] leaves a hole, [clear] only empties the
    map that points to it. *)
Lemma on_keeps_set event c b a s :
  heap b !! a = Some s →
  ∃ s', heap (on event c b) !! a = Some s' ∧ length s ≤ length s'.
Proof.
  intros Hh. unfold on. destruct (events b !! event) as [a0|] eqn:He.
  - rewrite He. simpl. destruct (decide (a0 = a)) as [->|Hne].
    + rewrite list_lookup_alter_eq, Hh. simpl. eexists. split; [reflexivity|].
      unfold set_add. destruct (set_has s c); [lia|]. rewrite length_app. lia.
    + rewrite list_lookup_alter_ne by assumption. eauto.
  - simpl. rewrite lookup_insert_eq. simpl.
    assert (Hlt : a < length (heap b)) by (apply lookup_lt_is_Some; eauto).
    rewrite list_lookup_alter_ne by lia.
    rewrite lookup_app_l by assumption. eauto.
Qed.

Lemma off_keeps_set event c b a s :
  heap b !! a = Some s →
  ∃ s', heap (off event c b) !! a = Some s' ∧ length s ≤ length s'.
Proof.
  intros Hh. unfold off. destruct (events b !! event) as [a0|]; [|eauto].
  simpl. destruct (decide (a0 = a)) as [->|Hne].
  - rewrite list_lookup_alter_eq, Hh. simpl. eexists. split; [reflexivity|].
    rewrite set_delete_length. lia.
  - rewrite list_lookup_alter_ne by assumption. eauto.
Qed.

Lemma perform_keeps_set todo :
  ∀ b a s,
    heap b !! a = Some s →
    ∃ s', heap (perform todo b) !! a = Some s' ∧ length s ≤ length s'.
Proof.
  induction todo as [|act todo IH]; intros b a s Hh; [simpl; eauto|].
  assert (Hstep : ∃ s1, heap (match act with
                              | DoOn e c => on e c b
                              | DoOff e c => off e c b
                              | DoClear => clear b
                              | DoEmit _ _ | DoThrow => b
                              end) !! a = Some s1 ∧ length s ≤ length s1).
  { destruct act as [e c|e c|e a'| |]; eauto using on_keeps_set, off_keeps_set. }
  destruct Hstep as (s1 & H1 & Hl1).
  destruct (IH _ a s1 H1) as (s' & H' & Hl').
  exists s'. split; [exact H'|lia].
Qed.

(** One callback changes subscriptions while it runs and the others
    leave the bus alone: after it, the walk goes on over the set object
    it started on, from the next position, with the entries that the
    set has when the callback returns. *)
Lemma walk_after_changes beh event args b pre cb post fuel :
  topic_set b event (pre ++ Some cb :: post) →
  forallb changes_subscriptions (beh cb args) = true →
  Forall (quiet beh args)
    (set_values pre ++
     set_values (drop (S (length pre)) (walked b (perform (beh cb args) b) event))) →
  2 * length (walked b (perform (beh cb args) b) event) + length (beh cb args) + 3 ≤ fuel →
  emit beh fuel event args b =
    Some (perform (beh cb args) b,
          called args
            (set_values pre ++ cb ::
             set_values (drop (S (length pre))
                           (walked b (perform (beh cb args) b) event)))).
Proof.
  intros (a & He & Hh) Hs Hq Hfuel.
  destruct (perform_keeps_set (beh cb args) b a _ Hh) as (s' & Hh' & Hlen).
  assert (Hw : walked b (perform (beh cb args) b) event = s')
    by (unfold walked; rewrite He, Hh'; reflexivity).
  rewrite Hw in *. clear Hw.
  rewrite length_app in Hlen. simpl in Hlen.
  set (behind := drop (S (length pre)) s') in *.
  apply Forall_app in Hq as [Hpre Hbehind].
  pose proof (set_values_length pre) as Hl1.
  pose proof (set_values_length behind) as Hl2.
  assert (Htake : length (take (S (length pre)) s') = S (length pre))
    by (rewrite length_take; lia).
  assert (Hsplit : s' = take (S (length pre)) s' ++ behind)
    by (symmetry; apply take_drop).
  assert (Hb : length behind + S (length pre) = length s').
  { pose proof (f_equal length Hsplit) as Hb'. rewrite length_app, Htake in Hb'. lia. }
  set (need := length pre + length (set_values pre)
               + S (length (beh cb args) + 1
                    + (length behind + length (set_values behind) + 1))).
  assert (Hneed : need ≤ fuel) by (subst need; lia).
  replace fuel with (need + (fuel - need)) by lia.
  unfold emit, emit_frames. rewrite He.
  assert (Hrun : run beh need {| bus := b; trace := [];
                                 stack := [ForEach a 0 event args] |} =
                 Some {| bus := perform (beh cb args) b;
                         trace := called args (set_values pre ++ cb :: set_values behind);
                         stack := [] |});
    [|rewrite (run_more _ _ _ _ _ Hrun); reflexivity].
  subst need.
  rewrite (sweep_quiet beh event args a _ pre [] (Some cb :: post) b) by assumption.
  change (length [] + length pre) with (length pre).
  rewrite run_step, step_forEach, Hh. simpl default.
  rewrite list_lookup_middle by reflexivity.
  rewrite run_changes by exact Hs.
  rewrite <- Htake.
  rewrite (sweep_quiet beh event args a _ behind (take (S (length pre)) s') []).
  2:{ rewrite app_nil_r, <- Hsplit. exact Hh'. }
  2:{ exact Hbehind. }
  rewrite <- length_app, <- Hsplit.
  rewrite (sweep_end _ _ _ _ _ s') by exact Hh'.
  rewrite run_finished. simpl. unfold called.
  rewrite !fmap_app, fmap_cons, <- !app_assoc. reflexivity.
Qed.

(** C2 (amended): [emit] dispatches synchronously by walking the topic's
    subscriber set itself, entry by entry in subscription order; it
    takes no copy.  A topic nobody subscribed to is a no-op.  When no
    callback touches the bus, [emit] calls exactly the callbacks
    subscribed at the moment of the call, each once, with the arguments
    given.  When one callback changes subscriptions while it runs (any
    calls of [on], [off] and [clear]) and the callbacks before it and
    those still to be walked leave the bus alone, the rest of the pass
    calls exactly the callbacks that the walked set holds behind that
    callback once it has returned.  So, the other callbacks leaving the
    bus alone: a callback whose one bus call subscribes a callback that
    was not subscribed to the same topic makes [emit] call that callback
    in the same pass, after all the others; and a callback whose one bus
    call unsubscribes a callback makes [emit] skip that callback if the
    walk has not reached it yet.  In each case the dispatch ends, within
    the stated fuel. *)
Theorem emit_walks_live_set beh event args b :
  (events b !! event = None → ∀ fuel, emit beh fuel event args b = Some (b, [])) ∧
  (∀ s fuel,
     topic_set b event s →
     Forall (quiet beh args) (set_values s) →
     2 * length s + 1 ≤ fuel →
     emit beh fuel event args b = Some (b, called args (set_values s))) ∧
  (∀ pre cb post fuel,
     topic_set b event (pre ++ Some cb :: post) →
     forallb changes_subscriptions (beh cb args) = true →
     Forall (quiet beh args)
       (set_values pre ++
        set_values (drop (S (length pre)) (walked b (perform (beh cb args) b) event))) →
     2 * length (walked b (perform (beh cb args) b) event) + length (beh cb args) + 3
       ≤ fuel →
     emit beh fuel event args b =
       Some (perform (beh cb args) b,
             called args
               (set_values pre ++ cb ::
                set_values (drop (S (length pre))
                              (walked b (perform (beh cb args) b) event))))) ∧
  (∀ pre cb post c fuel,
     topic_set b event (pre ++ Some cb :: post) →
     beh cb args = [DoOn event c] →
     Some c ∉ pre ++ Some cb :: post →
     Forall (quiet beh args) (set_values pre ++ set_values post ++ [c]) →
     2 * length (pre ++ Some cb :: post) + 5 ≤ fuel →
     emit beh fuel event args b =
       Some (on event c b,
             called args (set_values pre ++ cb :: set_values post ++ [c]))) ∧
  (∀ pre cb post c fuel,
     topic_set b event (pre ++ Some cb :: post) →
     beh cb args = [DoOff event c] →
     Forall (quiet beh args) (set_values pre ++ set_values post) →
     2 * length (pre ++ Some cb :: post) + 5 ≤ fuel →
     emit beh fuel event args b =
       Some (off event c b,
             called args (set_values pre ++ cb ::
                          List.filter (λ x, negb (Nat.eqb x c)) (set_values post)))).
Proof.
  destruct (emit_live_iteration beh event args b) as (H1 & H2 & H3 & H4).
  split; [exact H1|]. split; [exact H2|]. split; [|split; [exact H3|exact H4]].
  intros pre cb post fuel. apply walk_after_changes.
Qed.

Lemma emit_walks_live_set_witness :
  subscribers (on "x" 3 (on "x" 2 (on "x" 1 empty_bus))) "x" = [1; 2; 3] ∧
  emit reshuffler 20 "x" [seven] (on "x" 3 (on "x" 2 (on "x" 1 empty_bus))) =
  Some (clear (on "x" 4 (off "x" 2 (on "x" 3 (on "x" 2 (on "x" 1 empty_bus))))),
        called [seven] [1; 3; 4]).
Proof.
  split; [vm_compute; reflexivity|].
  rewrite (proj1 (proj2 (proj2 (emit_walks_live_set reshuffler "x" [seven]
                                  (on "x" 3 (on "x" 2 (on "x" 1 empty_bus))))))
             [] 1 [Some 2; Some 3] 20).
  - vm_compute. reflexivity.
  - exists 0. split; vm_compute; reflexivity.
  - reflexivity.
  - vm_compute. repeat constructor.
  - vm_compute. lia.
Defined.

End EventBusWalkProofs.

(* ===================================================================== *)
(** * Properties of the signal store                                      *)
(* ===================================================================== *)

Module SignalStoreProofs.

Import SignalStore.
Local Open Scope list_scope.
Local Open Scope nat_scope.

Lemma map_get_set key a m : map_get key (map_set key a m) = Some a.
Proof.
  induction m as [|[k b] m IH]; simpl.
  - rewrite String.eqb_refl. reflexivity.
  - destruct (String.eqb k key) eqn:E; simpl; rewrite E; [reflexivity|exact IH].
Qed.

Lemma map_set_absent key a m : key ∉ m.*1 → map_set key a m = m ++ [(key, a)].
Proof.
  induction m as [|[k b] m IH]; intros H; simpl; [reflexivity|].
  simpl in H. apply not_elem_of_cons in H as [Hk Hm].
  destruct (String.eqb k key) eqn:E.
  - apply String.eqb_eq in E. congruence.
  - rewrite IH by assumption. reflexivity.
Qed.

Lemma map_get_has key m : key ∈ m.*1 → ∃ a, map_get key m = Some a ∧ (key, a) ∈ m.
Proof.
  induction m as [|[k b] m IH]; intros H; simpl in *; [inversion H|].
  destruct (String.eqb k key) eqn:E.
  - apply String.eqb_eq in E. subst. exists b. split; [reflexivity|left].
  - apply elem_of_cons in H as [H|H].
    + apply String.eqb_neq in E. congruence.
    + destruct (IH H) as (a & Ha & Hin). exists a. split; [exact Ha|right; exact Hin].
Qed.

Lemma map_delete_keys key m :
  (map_delete key m).*1 = List.filter (λ k, negb (String.eqb k key)) m.*1.
Proof.
  unfold map_delete. induction m as [|[k b] m IH]; simpl; [reflexivity|].
  destruct (String.eqb k key); simpl; [exact IH|f_equal; exact IH].
Qed.

Lemma map_delete_absent key m : key ∉ (map_delete key m).*1.
Proof.
  rewrite map_delete_keys. intros H.
  apply list_elem_of_In, filter_In in H as [_ H].
  rewrite String.eqb_refl in H. discriminate.
Qed.

Lemma map_get_delete_other key k m :
  k ≠ key → map_get k (map_delete key m) = map_get k m.
Proof.
  intros Hne. unfold map_delete.
  induction m as [|[k' b] m IH]; simpl; [reflexivity|].
  destruct (String.eqb k' key) eqn:E; simpl.
  - apply String.eqb_eq in E. subst.
    replace (String.eqb key k) with false
      by (symmetry; apply String.eqb_neq; congruence).
    exact IH.
  - rewrite IH. reflexivity.
Qed.

(** A key that is present: [getSignal] changes nothing. *)
Lemma getSignal_present key a st :
  hasSignal key st = true → getSignal key a st = (map_get key (globalStore st), st).
Proof. intros H. unfold getSignal. unfold hasSignal in H. rewrite H. reflexivity. Qed.

(** A key that is absent: a new signal goes to the end of the map. *)
Lemma getSignal_absent key a st :
  hasSignal key st = false →
  getSignal key a st =
  (Some (length (signals st)),
   {| globalStore := globalStore st ++ [(key, length (signals st))];
      signals := signals st ++ [a] |}).
Proof.
  intros H. unfold getSignal. unfold hasSignal in H. rewrite H. simpl.
  rewrite map_get_set. f_equal. f_equal. apply map_set_absent.
  unfold map_has in H. apply bool_decide_eq_false in H. exact H.
Qed.

Lemma hasSignal_after_get key a st : hasSignal key (getSignal key a st).2 = true.
Proof.
  destruct (hasSignal key st) eqn:E.
  - rewrite getSignal_present by exact E. exact E.
  - rewrite getSignal_absent by exact E. unfold hasSignal, map_has. simpl.
    apply bool_decide_eq_true. rewrite fmap_app. apply elem_of_app. right.
    simpl. apply list_elem_of_singleton. reflexivity.
Qed.

Lemma store_sound_empty : sound empty_store.
Proof.
  split; simpl.
  - apply NoDup_nil_2.
  - intros k a H. inversion H.
Qed.

Lemma store_sound_call c st : sound st → sound (call c st).
Proof.
  intros [H1 H2]. destruct c as [key a|key| |s v]; unfold call.
  - destruct (hasSignal key st) eqn:E.
    + rewrite getSignal_present by exact E. split; assumption.
    + rewrite getSignal_absent by exact E. split; simpl.
      * rewrite fmap_app. apply NoDup_app. split; [exact H1|].
        split; [|apply NoDup_singleton].
        intros x Hx Hx'. simpl in Hx'. apply list_elem_of_singleton in Hx'. subst.
        unfold hasSignal, map_has in E. apply bool_decide_eq_false in E. auto.
      * intros k b Hin. rewrite length_app. simpl.
        apply elem_of_app in Hin as [Hin|Hin].
        -- specialize (H2 _ _ Hin). lia.
        -- apply list_elem_of_singleton in Hin. injection Hin as -> ->. lia.
  - split; simpl.
    + rewrite map_delete_keys. apply NoDup_ListNoDup, List.NoDup_filter, NoDup_ListNoDup.
      exact H1.
    + intros k b Hin. apply (H2 k b). unfold map_delete in Hin.
      apply list_elem_of_In, filter_In in Hin as [Hin _]. apply list_elem_of_In. exact Hin.
  - split; simpl; [apply NoDup_nil_2|]. intros k b Hin. inversion Hin.
  - split; simpl; [exact H1|]. intros k b Hin. rewrite length_insert. eauto.
Qed.

Lemma reached_sound st : reached st → sound st.
Proof.
  induction 1 as [|c st _ IH]; [apply store_sound_empty | apply store_sound_call; exact IH].
Qed.

(** The signal that [getSignal] returns exists. *)
Lemma getSignal_exists key a st :
  sound st →
  ∃ s, (getSignal key a st).1 = Some s ∧ s < length (signals (getSignal key a st).2).
Proof.
  intros Hs. destruct (hasSignal key st) eqn:E.
  - rewrite getSignal_present by exact E. simpl.
    unfold hasSignal, map_has in E. apply bool_decide_eq_true in E.
    destruct (map_get_has _ _ E) as (s & Hs1 & Hin).
    exists s. split; [exact Hs1|]. eapply signals_exist; eauto.
  - rewrite getSignal_absent by exact E. simpl. eexists. split; [reflexivity|].
    rewrite length_app. simpl. lia.
Qed.

(** X7: [getSignal] gets or creates.  The first call for a key makes a
    signal that holds the initial value; every later call for that key
    returns the very same signal, leaves the store as it is and ignores
    the initial value it is given. *)
Theorem getSignal_get_or_create key a b st :
  (hasSignal key st = false →
   ∃ s, (getSignal key a st).1 = Some s ∧ peek s (getSignal key a st).2 = Some a) ∧
  (hasSignal key st = true → (getSignal key a st).2 = st) ∧
  getSignal key b (getSignal key a st).2 = getSignal key a st.
Proof.
  split; [|split].
  - intros E. rewrite getSignal_absent by exact E. simpl. eexists.
    split; [reflexivity|]. unfold peek. simpl.
    apply list_lookup_middle. reflexivity.
  - intros E. rewrite getSignal_present by exact E. reflexivity.
  - rewrite (getSignal_present key b) by apply hasSignal_after_get.
    destruct (hasSignal key st) eqn:E.
    + rewrite getSignal_present by exact E. reflexivity.
    + rewrite getSignal_absent by exact E. simpl.
      f_equal. rewrite <- (map_set_absent key (length (signals st)) (globalStore st)).
      * apply map_get_set.
      * unfold hasSignal, map_has in E. apply bool_decide_eq_false in E. exact E.
Qed.

Lemma getSignal_get_or_create_witness :
  ∃ s, (getSignal "count" (RefPlatform.num 0) empty_store).1 = Some s ∧
       peek s (getSignal "count" (RefPlatform.num 0) empty_store).2 =
         Some (RefPlatform.num 0).
Proof.
  apply (proj1 (getSignal_get_or_create "count" (RefPlatform.num 0) VNull empty_store)).
  reflexivity.
Defined.

(** X8: the signal of a key is shared.  A value assigned through the
    signal that one call of [getSignal] returned is what any later call
    for that key finds, in the same signal. *)
Theorem signal_is_shared key a b v st :
  reached st →
  ∃ s, (getSignal key a st).1 = Some s ∧
       (getSignal key b (assign s v (getSignal key a st).2)).1 = Some s ∧
       peek s (getSignal key b (assign s v (getSignal key a st).2)).2 = Some v.
Proof.
  intros Hr. pose proof (reached_sound st Hr) as Hs.
  destruct (getSignal_exists key a st Hs) as (s & Hs1 & Hlt).
  exists s. split; [exact Hs1|].
  set (st1 := (getSignal key a st).2) in *.
  assert (Hhas : hasSignal key (assign s v st1) = true)
    by (unfold st1; apply (hasSignal_after_get key a st)).
  rewrite getSignal_present by exact Hhas. simpl. split.
  - pose proof (proj2 (proj2 (getSignal_get_or_create key a a st))) as H2.
    fold st1 in H2. rewrite (getSignal_present key a st1) in H2
      by (apply hasSignal_after_get).
    rewrite <- H2 in Hs1. exact Hs1.
  - unfold peek. simpl. apply list_lookup_insert_eq. exact Hlt.
Qed.

Lemma signal_is_shared_witness :
  ∃ s, (getSignal "count" (RefPlatform.num 0) empty_store).1 = Some s ∧
       (getSignal "count" VNull
          (assign s (RefPlatform.num 5)
             (getSignal "count" (RefPlatform.num 0) empty_store).2)).1 = Some s ∧
       peek s (getSignal "count" VNull
                 (assign s (RefPlatform.num 5)
                    (getSignal "count" (RefPlatform.num 0) empty_store).2)).2
       = Some (RefPlatform.num 5).
Proof.
  exact (signal_is_shared "count" (RefPlatform.num 0) VNull (RefPlatform.num 5)
           empty_store reached_empty).
Defined.

(** X9: [deleteSignal] says whether the key was there, and removes it
    and nothing else: the key is gone, a second [deleteSignal] returns
    false, the other keys keep their signals, and no signal object is
    touched. *)
Theorem deleteSignal_removes key st :
  (deleteSignal key st).1 = hasSignal key st ∧
  hasSignal key (deleteSignal key st).2 = false ∧
  (deleteSignal key (deleteSignal key st).2).1 = false ∧
  signals (deleteSignal key st).2 = signals st ∧
  ∀ k, k ≠ key →
    hasSignal k (deleteSignal key st).2 = hasSignal k st ∧
    map_get k (globalStore (deleteSignal key st).2) = map_get k (globalStore st).
Proof.
  assert (Hgone : hasSignal key (deleteSignal key st).2 = false).
  { unfold hasSignal, map_has. simpl. apply bool_decide_eq_false, map_delete_absent. }
  split; [reflexivity|]. split; [exact Hgone|]. split; [exact Hgone|].
  split; [reflexivity|].
  intros k Hne. split; [|apply map_get_delete_other; exact Hne].
  unfold hasSignal, map_has. simpl. apply bool_decide_ext.
  rewrite map_delete_keys. rewrite !list_elem_of_In, filter_In.
  split; [tauto|]. intros H. split; [exact H|].
  apply negb_true_iff, String.eqb_neq. exact Hne.
Qed.

Lemma deleteSignal_removes_witness :
  hasSignal "a" (deleteSignal "b" (getSignal "a" VNull empty_store).2).2 =
  hasSignal "a" (getSignal "a" VNull empty_store).2.
Proof.
  apply (proj2 (proj2 (proj2 (proj2
           (deleteSignal_removes "b" (getSignal "a" VNull empty_store).2))))).
  discriminate.
Defined.

(** X10: deleting a key detaches its signal.  After [deleteSignal], the
    next [getSignal] for the key makes a new signal with the new initial
    value; the old signal still exists and keeps its value, but it is no
    longer the one the key gives. *)
Theorem deleteSignal_detaches key a b st :
  reached st →
  ∃ s s',
    (getSignal key a st).1 = Some s ∧
    (getSignal key b (deleteSignal key (getSignal key a st).2).2).1 = Some s' ∧
    s ≠ s' ∧
    peek s' (getSignal key b (deleteSignal key (getSignal key a st).2).2).2 = Some b ∧
    peek s (getSignal key b (deleteSignal key (getSignal key a st).2).2).2 =
      peek s (getSignal key a st).2.
Proof.
  intros Hr. pose proof (reached_sound st Hr) as Hs.
  destruct (getSignal_exists key a st Hs) as (s & Hs1 & Hlt).
  set (st1 := (getSignal key a st).2) in *.
  assert (Hgone : hasSignal key (deleteSignal key st1).2 = false)
    by apply (proj1 (proj2 (deleteSignal_removes key st1))).
  exists s, (length (signals st1)).
  rewrite (getSignal_absent key b) by exact Hgone. simpl.
  split; [exact Hs1|]. split; [reflexivity|]. split; [lia|]. split.
  - unfold peek. simpl. apply list_lookup_middle. reflexivity.
  - unfold peek. simpl. apply lookup_app_l. exact Hlt.
Qed.

Lemma deleteSignal_detaches_witness :
  ∃ s s',
    (getSignal "k" VNull empty_store).1 = Some s ∧
    (getSignal "k" (VBool true)
       (deleteSignal "k" (getSignal "k" VNull empty_store).2).2).1 = Some s' ∧
    s ≠ s' ∧
    peek s' (getSignal "k" (VBool true)
               (deleteSignal "k" (getSignal "k" VNull empty_store).2).2).2
      = Some (VBool true) ∧
    peek s (getSignal "k" (VBool true)
              (deleteSignal "k" (getSignal "k" VNull empty_store).2).2).2 =
      peek s (getSignal "k" VNull empty_store).2.
Proof.
  exact (deleteSignal_detaches "k" VNull (VBool true) empty_store reached_empty).
Defined.

(** X11: [getSignalKeys] lists the keys in the order in which they were
    first created, each once.  A key is listed exactly when [hasSignal]
    holds for it; [getSignal] adds a new key at the end and leaves the
    list alone for a known key; [deleteSignal] takes its key out and
    keeps the order of the rest; [clearSignals] leaves no key. *)
Theorem getSignalKeys_order key a st :
  reached st →
  NoDup (getSignalKeys st) ∧
  (hasSignal key st = true ↔ key ∈ getSignalKeys st) ∧
  getSignalKeys (getSignal key a st).2 =
    (if hasSignal key st then getSignalKeys st else getSignalKeys st ++ [key]) ∧
  getSignalKeys (deleteSignal key st).2 =
    List.filter (λ k, negb (String.eqb k key)) (getSignalKeys st) ∧
  getSignalKeys (clearSignals st) = [] ∧
  ∀ k, hasSignal k (clearSignals st) = false.
Proof.
  intros Hr. pose proof (reached_sound st Hr) as [H1 _].
  split; [exact H1|]. split; [|split; [|split; [|split]]].
  - unfold hasSignal, map_has, getSignalKeys. apply bool_decide_eq_true.
  - destruct (hasSignal key st) eqn:E.
    + rewrite getSignal_present by exact E. reflexivity.
    + rewrite getSignal_absent by exact E. unfold getSignalKeys. simpl.
      rewrite fmap_app. reflexivity.
  - unfold getSignalKeys. simpl. apply map_delete_keys.
  - reflexivity.
  - intros k. reflexivity.
Qed.

Lemma getSignalKeys_order_witness :
  getSignalKeys (getSignal "b" VNull (getSignal "a" VNull empty_store).2).2 =
  getSignalKeys (getSignal "a" VNull empty_store).2 ++ ["b"].
Proof.
  assert (Hr : reached (getSignal "a" VNull empty_store).2)
    by apply (reached_call (DoGetSignal "a" VNull)), reached_empty.
  exact (proj1 (proj2 (proj2
           (getSignalKeys_order "b" VNull (getSignal "a" VNull empty_store).2 Hr)))).
Defined.

(** ** createStore *)

Lemma dispatch_keeps key args st st' :
  dispatch key args st = Some st' →
  actions st' = actions st ∧
  assignments st ≤ assignments st' ∧
  ∀ k, is_Some (state st !! k) → is_Some (state st' !! k).
Proof.
  unfold dispatch. destruct (action_named key (actions st)) as [f|]; [|discriminate].
  destruct (f (state st) args) as [result|]; intros H; injection H as <-; simpl.
  - split; [reflexivity|]. split; [lia|]. intros k [v Hv].
    unfold spread. rewrite lookup_union, Hv.
    destruct (result !! k); eauto.
  - auto.
Qed.

(** X12: the actions of a store never drop a field.  After any run of
    action calls that goes through, every field the state had is still
    there, the actions are the same, and the state signal has been
    assigned at most once for each call. *)
Theorem actions_keep_fields calls st st' :
  dispatch_all calls st = Some st' →
  actions st' = actions st ∧
  assignments st ≤ assignments st' ≤ assignments st + length calls ∧
  ∀ k, is_Some (state st !! k) → is_Some (state st' !! k).
Proof.
  revert st. induction calls as [|[key args] calls IH]; intros st H; simpl in H.
  - injection H as <-. simpl. split; [reflexivity|]. split; [lia|auto].
  - destruct (dispatch key args st) as [st1|] eqn:E; [|discriminate].
    destruct (IH st1 H) as (Ha & Hn & Hk).
    destruct (dispatch_keeps key args st st1 E) as (Ha1 & Hn1 & Hk1).
    assert (Hup : assignments st1 ≤ S (assignments st)).
    { unfold dispatch in E. destruct (action_named key (actions st)); [|discriminate].
      destruct (a (state st) args); injection E as <-; simpl; lia. }
    split; [congruence|]. split; [simpl; lia|]. auto.
Qed.

Lemma actions_keep_fields_witness :
  ∃ st', dispatch_all [("inc", []); ("noop", [])] example_store = Some st' ∧
         assignments st' = 1 ∧ is_Some (state st' !! "m").
Proof.
  eexists. split; [vm_compute; reflexivity|]. split; [reflexivity|].
  refine (proj2 (proj2 (actions_keep_fields [("inc", []); ("noop", [])]
                          example_store _ _)) "m" _).
  - vm_compute. reflexivity.
  - vm_compute. eauto.
Defined.

(** An action that returns nothing leaves the store exactly as it is,
    without an assignment; an action that returns a partial state, even
    an empty one, assigns the signal once; and calling a name that is
    not among the actions fails. *)
Lemma dispatch_void_or_partial key args st :
  (action_named key (actions st) = None → dispatch key args st = None) ∧
  (∀ f, action_named key (actions st) = Some f → f (state st) args = None →
        dispatch key args st = Some st) ∧
  (∀ f result, action_named key (actions st) = Some f →
        f (state st) args = Some result →
        ∃ st', dispatch key args st = Some st' ∧
               assignments st' = S (assignments st) ∧
               ∀ k, state st' !! k =
                    match result !! k with Some v => Some v | None => state st !! k end).
Proof.
  unfold dispatch. split; [|split].
  - intros ->. reflexivity.
  - intros f -> ->. reflexivity.
  - intros f result -> ->. eexists. split; [reflexivity|]. simpl.
    split; [reflexivity|]. intros k. unfold spread. rewrite lookup_union.
    destruct (result !! k), (state st !! k); reflexivity.
Qed.

End SignalStoreProofs.

(* ===================================================================== *)
(** * Properties of the custom element                                    *)
(* ===================================================================== *)

Module CustomElementProofs.

Import PropExtractor Lifecycle CustomElement.
Local Open Scope list_scope.
Local Open Scope nat_scope.

(** X13: [disconnectedCallback] is guarded by the mounted flag: on an
    element that is mounted it renders the empty tree into the target
    once and clears the flag, and on an element that is not mounted,
    whether never connected or already disconnected, it does nothing;
    so a second call in a row changes nothing. *)
Theorem disconnect_is_idempotent el :
  (_mounted el = true →
   effects (disconnectedCallback el) = effects el ++ [CallRender None (target el)] ∧
   _mounted (disconnectedCallback el) = false) ∧
  (_mounted el = false → disconnectedCallback el = el) ∧
  disconnectedCallback (disconnectedCallback el) = disconnectedCallback el.
Proof.
  unfold disconnectedCallback. destruct (_mounted el) eqn:E; simpl.
  - split; [auto|]. split; [discriminate|reflexivity].
  - split; [discriminate|]. split; [reflexivity|]. rewrite E. reflexivity.
Qed.

Lemma disconnect_is_idempotent_witness :
  effects (disconnectedCallback
             (connectedCallback RefPlatform.ref plain_options no_markup
                (construct plain_options 0 0))) =
  effects (connectedCallback RefPlatform.ref plain_options no_markup
             (construct plain_options 0 0))
  ++ [CallRender None
        (target (connectedCallback RefPlatform.ref plain_options no_markup
                   (construct plain_options 0 0)))].
Proof.
  apply (proj1 (disconnect_is_idempotent
                  (connectedCallback RefPlatform.ref plain_options no_markup
                     (construct plain_options 0 0)))).
  reflexivity.
Defined.

(** X14: what the element shows comes from its markup each time it is
    connected or, while mounted, an attribute changes: properties given
    to [setProps] before are discarded, whatever they were. *)
Theorem markup_overrides_setProps P options dom p el :
  getProps (connectedCallback P options dom (setProps p el)) =
    (collectProps P dom (ce_defaultProps options)).1 ∧
  _mounted (connectedCallback P options dom (setProps p el)) = true ∧
  (_mounted el = true →
   getProps (attributeChangedCallback P options dom (setProps p el)) =
     (collectProps P dom (ce_defaultProps options)).1) ∧
  (_mounted el = false →
   getProps (attributeChangedCallback P options dom (setProps p el)) =
     spread (getProps el) p).
Proof.
  unfold connectedCallback, attributeChangedCallback, setProps, getProps.
  destruct (collectProps P dom (ce_defaultProps options)) as [c w].
  destruct (_mounted el) eqn:E; simpl; rewrite ?E; simpl; rewrite ?E; simpl;
    (split; [reflexivity|]); (split; [reflexivity|]);
    split; intros H; first [discriminate H | reflexivity].
Qed.

Lemma markup_overrides_setProps_witness :
  getProps (attributeChangedCallback RefPlatform.ref plain_options no_markup
              (setProps (count_is 5) (construct plain_options 0 0))) =
  spread (getProps (construct plain_options 0 0)) (count_is 5).
Proof.
  apply (proj2 (proj2 (proj2
           (markup_overrides_setProps RefPlatform.ref plain_options no_markup
              (count_is 5) (construct plain_options 0 0))))).
  reflexivity.
Defined.

Lemma call_keeps_target P options c el :
  renders_into_target el →
  self (call P options c el) = self el ∧
  _root (call P options c el) = _root el ∧
  renders_into_target (call P options c el).
Proof.
  intros Hinv.
  assert (Hwarn : ∀ (w : list Diagnostic) ev r,
            ev ∈ Warn <$> w → rendered_into ev = Some r → r = target el).
  { intros w ev r Hin Hr. apply list_elem_of_fmap in Hin as (d & -> & _). discriminate. }
  assert (Hmore : ∀ el' (w : list Diagnostic) last,
            self el' = self el → _root el' = _root el →
            (∀ r, rendered_into last = Some r → r = target el) →
            effects el' = (effects el ++ (Warn <$> w)) ++ [last] →
            renders_into_target el').
  { intros el' w last Hs Hr Hlast Heff ev r Hin Hev.
    replace (target el') with (target el) by (unfold target; rewrite Hs, Hr; reflexivity).
    rewrite Heff in Hin. apply elem_of_app in Hin as [Hin|Hin].
    - apply elem_of_app in Hin as [Hin|Hin]; [eapply Hinv; eauto|eapply Hwarn; eauto].
    - apply list_elem_of_singleton in Hin. subst. auto. }
  assert (Hrender : ∀ v r, rendered_into (CallRender v (target el)) = Some r →
                           r = target el)
    by (intros v r H; simpl in H; congruence).
  destruct c as [dom| |dom|p]; simpl.
  - unfold connectedCallback.
    destruct (collectProps P dom (ce_defaultProps options)) as [c w].
    split; [reflexivity|]. split; [reflexivity|].
    eapply (Hmore _ w); [reflexivity|reflexivity|apply Hrender|reflexivity].
  - unfold disconnectedCallback. destruct (_mounted el); [|auto].
    split; [reflexivity|]. split; [reflexivity|].
    eapply (Hmore _ []); [reflexivity|reflexivity|apply Hrender|].
    simpl. rewrite app_nil_r. reflexivity.
  - unfold attributeChangedCallback. destruct (_mounted el); [|auto].
    destruct (collectProps P dom (ce_defaultProps options)) as [c w].
    split; [reflexivity|]. split; [reflexivity|].
    eapply (Hmore _ w); [reflexivity|reflexivity|apply Hrender|reflexivity].
  - unfold setProps. simpl. destruct (_mounted el).
    + split; [reflexivity|]. split; [reflexivity|].
      eapply (Hmore _ []); [reflexivity|reflexivity|apply Hrender|reflexivity].
    + split; [reflexivity|]. split; [reflexivity|].
      intros ev r Hin Hr. simpl in Hin. rewrite app_nil_r in Hin.
      apply (Hinv ev r Hin Hr).
Qed.

Lemma calls_keep_target P options l :
  ∀ el, renders_into_target el →
    self (calls P options l el) = self el ∧
    _root (calls P options l el) = _root el ∧
    renders_into_target (calls P options l el).
Proof.
  unfold calls. induction l as [|c l IH]; intros el Hinv; simpl; [auto|].
  destruct (call_keeps_target P options c el Hinv) as (Hs & Hr & Hi).
  destruct (IH _ Hi) as (Hs' & Hr' & Hi').
  split; [congruence|]. split; [congruence|]. exact Hi'.
Qed.

(** X15: an element of the registered type renders into one root for
    all its life.  Whatever the platform and the page do to it, every
    render, empty or not, goes into the target fixed by the constructor:
    the element itself only when the [shadowRoot] option is [false], and
    otherwise a shadow root, which is open unless the option is an init
    object; an absent option attaches one too. *)
Theorem element_keeps_its_root P options this n l :
  let el := calls P options l (construct options this n) in
  target el = target (construct options this n) ∧
  (∀ ev r, ev ∈ effects el → rendered_into ev = Some r →
           r = target (construct options this n)) ∧
  target (construct options this n) =
    match ce_shadowRoot options with
    | ShadowFalse => HostRoot this
    | ShadowInit init => ShadowRoot this init n
    | _ => ShadowRoot this {| mode := ModeOpen |} n
    end.
Proof.
  intros el.
  assert (H0 : renders_into_target (construct options this n)).
  { intros ev r Hin Hr. unfold construct in Hin.
    destruct (ce_shadowRoot options); simpl in Hin;
      try (apply list_elem_of_singleton in Hin; subst; discriminate);
      inversion Hin. }
  destruct (calls_keep_target P options l _ H0) as (Hs & Hr & Hi).
  fold el in Hs, Hr, Hi.
  assert (Ht : target el = target (construct options this n))
    by (unfold target; rewrite Hs, Hr; reflexivity).
  split; [exact Ht|]. split.
  - intros ev r Hin Hrr. rewrite <- Ht. eapply Hi; eauto.
  - unfold construct. destruct (ce_shadowRoot options); reflexivity.
Qed.

Lemma element_keeps_its_root_witness :
  ShadowRoot 0 {| mode := ModeOpen |} 0 = target (construct plain_options 0 0).
Proof.
  apply (proj1 (proj2 (element_keeps_its_root RefPlatform.ref plain_options 0 0
                         [Connect no_markup; Disconnect]))
           (CallRender None (ShadowRoot 0 {| mode := ModeOpen |} 0))).
  - vm_compute. right. right. left.
  - reflexivity.
Defined.

End CustomElementProofs.

(* ===================================================================== *)
(** * Properties of the lite build                                        *)
(* ===================================================================== *)

Module LiteProofs.

Import PropExtractor Lifecycle.
Local Open Scope list_scope.
Local Open Scope nat_scope.









End LiteProofs.

(* ===================================================================== *)
(** * More on the lifecycle manager                                       *)
(* ===================================================================== *)

Module LifecycleMoreProofs.

Import PropExtractor Lifecycle LifecycleViews LifecycleProofs.
Local Open Scope list_scope.
Local Open Scope nat_scope.

(** ** unmountAll *)

Lemma unmount_snapshot l :
  ∀ st, consistent st → instances st = l →
    let st' := fold_left (λ st i, unmount (env i) st) l st in
    instances st' = [] ∧ consistent st' ∧
    observers st' = observers st ∧
    log st' = log st ++ flat_map (unmount_effects (onUnmount (globalOptions st))) l.
Proof.
  induction l as [|i l IH]; intros st Hc Hi; simpl.
  - rewrite app_nil_r. auto.
  - assert (Hcl : cl_element (env i) = element i).
    { apply (instance_closure st Hc). rewrite Hi. left. }
    destruct (unmount_rest (env i) st) as (Ho & _ & Hob & _).
    destruct (IH (unmount (env i) st)) as (H1 & H2 & H3 & H4).
    + apply consistent_unmount. exact Hc.
    + rewrite unmount_instances, Hi, Hcl. simpl. rewrite Nat.eqb_refl. reflexivity.
    + split; [exact H1|]. split; [exact H2|]. split; [congruence|].
      rewrite H4, unmount_log, Ho, Hcl, <- app_assoc. reflexivity.
Qed.

(** X18: [unmountAll] empties the habitat.  In every state a habitat can
    reach it leaves no instance in the registry and no metadata on any
    element, and it unmounts each instance of the registry exactly once,
    in order: one render of the empty tree into its root and, when the
    hook is set, one call of [onUnmount].  The observers of lazy mounts
    are left as they are. *)
Theorem unmountAll_empties P st :
  reachable P st →
  instances (unmountAll st) = [] ∧
  metas (unmountAll st) = ∅ ∧
  observers (unmountAll st) = observers st ∧
  log (unmountAll st) =
    log st ++ flat_map (unmount_effects (onUnmount (globalOptions st))) (instances st).
Proof.
  intros Hr. pose proof (reachable_consistent P st Hr) as Hc.
  destruct (unmount_snapshot (instances st) st Hc eq_refl) as (H1 & H2 & H3 & H4).
  fold (unmountAll st) in H1, H2, H3, H4.
  split; [exact H1|]. split; [|split; [exact H3|exact H4]].
  apply map_empty. intros e. pose proof (one_per_host _ H2 e) as Hl.
  unfold live_on in Hl. rewrite H1 in Hl. simpl in Hl.
  destruct (metas (unmountAll st) !! e); [discriminate|reflexivity].
Qed.

Lemma unmountAll_empties_witness : instances (unmountAll hooked_mount.2) = [].
Proof.
  exact (proj1 (unmountAll_empties RefPlatform.ref hooked_mount.2 hooked_mount_reachable)).
Defined.

(** ** The registry counts the metadata *)

Lemma counted_unmount c st : consistent st → counted st → counted (unmount c st).
Proof.
  intros Hc Hn. unfold counted in *. rewrite unmount_instances, unmount_metas.
  pose proof (one_per_host st Hc (cl_element c)) as Hl. unfold live_on in Hl.
  destruct (metas st !! cl_element c) as [m|] eqn:E.
  - rewrite map_size_delete, E.
    assert (Hp : List.filter (λ i, Nat.eqb (element i) (cl_element c)) (instances st) ≠ [])
      by (intros H0; rewrite H0 in Hl; discriminate).
    pose proof (remove_first_present _ _ Hp). lia.
  - rewrite delete_id by exact E. rewrite remove_first_absent; [exact Hn|].
    destruct (List.filter _ (instances st)); [reflexivity|discriminate].
Qed.

Lemma counted_force_unmount e st :
  consistent st → counted st → counted (force_unmount e st).
Proof.
  intros Hc Hn. unfold force_unmount. destruct (metas st !! e); [|exact Hn].
  apply counted_unmount; [|exact Hn].
  apply (consistent_same_registry st); [reflexivity|reflexivity|exact Hc].
Qed.

Lemma counted_renderOne P e ov st :
  consistent st → counted st → counted (renderOne P e ov st).2.
Proof.
  intros Hc Hn. pose proof (counted_force_unmount e st Hc Hn) as H0.
  destruct (force_unmount_frees e st Hc) as [Hm0 _].
  destruct (renderOne_fields P e ov st) as (_ & _ & _ & Hi & Hm & _).
  unfold counted in *. rewrite Hi, Hm, length_app, map_size_insert, Hm0. simpl. lia.
Qed.

Lemma counted_apply P op st :
  consistent st → counted st → counted (apply P op st).
Proof.
  intros Hc Hn. destruct op; simpl.
  - unfold renderAll.
    assert (Hc0 : consistent (set_options options st))
      by (apply (consistent_same_registry st); auto).
    destruct (truthy (tagName options)).
    + simpl. unfold registerCustomElement. destruct (bool_decide _); exact Hn.
    + generalize (findHostElements options (document (set_options options st))).
      intros l.
      assert (Hgen : ∀ acc, consistent acc.2 → counted acc.2 →
                counted (fold_left
                  (λ (acc : list WidgetInstance * State) e,
                     let '(instance, st) := renderOne P e ∅ acc.2 in
                     (acc.1 ++ [instance], st)) l acc).2).
      { induction l as [|e l IH]; intros acc Hacc Hnacc; simpl; [exact Hnacc|].
        pose proof (consistent_renderOne P e ∅ acc.2 Hacc) as Hr.
        pose proof (counted_renderOne P e ∅ acc.2 Hacc Hnacc) as Hr'.
        destruct (renderOne P e ∅ acc.2). apply IH; assumption. }
      apply Hgen; [exact Hc0|exact Hn].
  - apply counted_renderOne; assumption.
  - apply counted_unmount; assumption.
  - exact Hn.
  - unfold unmountAll. generalize (instances st) as l. intros l.
    revert st Hc Hn. induction l as [|i l IH]; intros st Hc Hn; simpl; [exact Hn|].
    apply IH; [apply consistent_unmount|apply counted_unmount]; assumption.
  - destruct (intersect_registry o entries st) as [Hi Hm].
    unfold counted. rewrite Hi, Hm. exact Hn.
  - exact Hn.
Qed.

(** An element carries metadata exactly when the registry holds an
    instance on it. *)
Lemma metadata_iff_instance st e :
  consistent st →
  is_Some (metas st !! e) ↔ ∃ i, i ∈ instances st ∧ element i = e.
Proof.
  intros Hc. pose proof (one_per_host st Hc e) as Hl. unfold live_on in Hl. split.
  - intros [m Hm]. rewrite Hm in Hl.
    destruct (List.filter _ (instances st)) as [|i r] eqn:E; [discriminate|].
    assert (Hin : In i (List.filter (λ i, Nat.eqb (element i) e) (instances st)))
      by (rewrite E; left; reflexivity).
    apply filter_In in Hin as [Hin He]. exists i. split.
    + apply list_elem_of_In. exact Hin.
    + apply Nat.eqb_eq. exact He.
  - intros (i & Hin & He). destruct (metas st !! e) eqn:Hm; [eauto|].
    assert (Hf : In i (List.filter (λ i, Nat.eqb (element i) e) (instances st))).
    { apply filter_In. split; [apply list_elem_of_In; exact Hin|].
      apply Nat.eqb_eq. exact He. }
    destruct (List.filter _ (instances st)); [inversion Hf|discriminate].
Qed.

(** ** A handle that has gone stale *)

(** Two mounts onto one element and then the first instance's
    [unmount], on the path where every call returns. *)
Lemma stale_unmount_fields P st e ov1 ov2 :
  consistent st →
  let i1 := (renderOne P e ov1 st).1 in
  let s1 := (renderOne P e ov1 st).2 in
  let i2 := (renderOne P e ov2 s1).1 in
  let s2 := (renderOne P e ov2 s1).2 in
  let s3 := unmount (env i1) s2 in
  i2 ∈ instances s2 ∧
  (i2 ∉ instances s3) ∧
  live_on e s3 = [] ∧
  metas s3 !! e = None ∧
  length (instances s3) + 1 = length (instances s2) ∧
  log s3 = log s2 ++ unmount_effects (onUnmount (globalOptions st)) i1.
Proof.
  intros Hc i1 s1 i2 s2 s3.
  pose proof (consistent_renderOne P e ov1 st Hc) as Hc1. fold s1 in Hc1.
  pose proof (consistent_renderOne P e ov2 s1 Hc1) as Hc2. fold s2 in Hc2.
  pose proof (consistent_unmount (env i1) s2 Hc2) as Hc3. fold s3 in Hc3.
  destruct (renderOne_fields P e ov1 st) as (Hel1 & Hcl1 & _ & _ & _ & _ & Ho1 & _).
  fold s1 i1 in Hel1, Hcl1, Ho1.
  destruct (renderOne_fields P e ov2 s1) as (Hel2 & _ & _ & Hi2 & Hm2 & _ & Ho2 & _).
  fold s2 i2 in Hel2, Hi2, Hm2, Ho2.
  assert (Hin2 : i2 ∈ instances s2).
  { rewrite Hi2. apply elem_of_app. right. apply list_elem_of_singleton. reflexivity. }
  assert (Hm3 : metas s3 !! e = None).
  { subst s3. rewrite unmount_metas, Hcl1. apply lookup_delete_eq. }
  assert (Hl3 : live_on e s3 = []).
  { pose proof (one_per_host s3 Hc3 e) as Hl. rewrite Hm3 in Hl.
    destruct (live_on e s3); [reflexivity|discriminate]. }
  split; [exact Hin2|]. split; [|split; [exact Hl3|split; [exact Hm3|split]]].
  - intros Hin.
    assert (Hf : In i2 (live_on e s3)).
    { apply filter_In. split; [apply list_elem_of_In; exact Hin|].
      apply Nat.eqb_eq. exact Hel2. }
    rewrite Hl3 in Hf. inversion Hf.
  - subst s3. rewrite unmount_instances, Hcl1. apply remove_first_present.
    intros H0.
    assert (Hf : In i2 (List.filter (λ i, Nat.eqb (element i) e) (instances s2))).
    { apply filter_In. split; [apply list_elem_of_In; exact Hin2|].
      apply Nat.eqb_eq. exact Hel2. }
    rewrite H0 in Hf. inversion Hf.
  - subst s3. rewrite unmount_log. unfold unmount_effects.
    rewrite Ho2, (proj1 (force_unmount_rest e s1)), Ho1,
      (proj1 (force_unmount_rest e st)), Hcl1, Hel1. reflexivity.
Qed.

(** ** update *)

Lemma mounted_cell P e ov st :
  cells (renderOne P e ov st).2 !!! cl_props (env (renderOne P e ov st).1) =
  props (renderOne P e ov st).1 ∧
  cl_props (env (renderOne P e ov st).1) < length (cells (renderOne P e ov st).2).
Proof.
  destruct (renderOne_fields P e ov st) as (_ & _ & Hcp & _ & _ & Hce & _).
  rewrite Hce, Hcp. split.
  - apply list_lookup_total_middle. reflexivity.
  - rewrite length_app. simpl. lia.
Qed.

Lemma update_log c p st :
  log (update c p st) =
  log st ++ [CallRender (Some {| vprops := spread (cells st !!! cl_props c) p |})
                        (cl_root c)].
Proof. reflexivity. Qed.

Lemma update_cells c p st :
  cells (update c p st) =
  <[cl_props c := spread (cells st !!! cl_props c) p]> (cells st).
Proof. reflexivity. Qed.

(** X21: [update] has no mounted guard.  Called on an instance that has
    been unmounted, it still renders the component, with the merged
    properties, into the root that [unmount] emptied, while the element
    stays without metadata and the registry without the instance. *)
Theorem update_after_unmount_renders P st e ov newProps :
  let i := (renderOne P e ov st).1 in
  let s1 := (renderOne P e ov st).2 in
  let s2 := unmount (env i) s1 in
  let s3 := update (env i) newProps s2 in
  log s3 = log s2 ++ [CallRender (Some {| vprops := spread (props i) newProps |})
                                 (cl_root (env i))] ∧
  instances s3 = instances s2 ∧
  metas s3 !! e = None.
Proof.
  intros i s1 s2 s3.
  destruct (mounted_cell P e ov st) as [Hcell _]. fold s1 i in Hcell.
  destruct (unmount_rest (env i) s1) as (_ & Hce & _). fold s2 in Hce.
  destruct (renderOne_fields P e ov st) as (_ & Hcl & _). fold i in Hcl.
  split; [|split; [reflexivity|]].
  - unfold s3. rewrite update_log, Hce, Hcell. reflexivity.
  - change (metas s3) with (metas s2). unfold s2.
    rewrite unmount_metas, Hcl. apply lookup_delete_eq.
Qed.

(** X22: updates accumulate.  Two calls of [update] on an instance leave
    the captured properties equal to the mount-time properties overlaid
    by the first and then by the second partial set, render once each
    with the properties merged so far, and touch neither the registry,
    the metadata, the document nor any hook. *)
Theorem updates_accumulate P st e ov p q :
  let i := (renderOne P e ov st).1 in
  let s1 := (renderOne P e ov st).2 in
  let s3 := update (env i) q (update (env i) p s1) in
  cells s3 !! cl_props (env i) = Some (spread (spread (props i) p) q) ∧
  log s3 = log s1 ++
    [CallRender (Some {| vprops := spread (props i) p |}) (cl_root (env i));
     CallRender (Some {| vprops := spread (spread (props i) p) q |}) (cl_root (env i))] ∧
  instances s3 = instances s1 ∧ metas s3 = metas s1 ∧ document s3 = document s1.
Proof.
  intros i s1 s3.
  destruct (mounted_cell P e ov st) as [Hcell Hlt]. fold s1 i in Hcell, Hlt.
  assert (Hcell2 : cells (update (env i) p s1) !!! cl_props (env i) = spread (props i) p).
  { rewrite update_cells, Hcell.
    apply list_lookup_total_correct, list_lookup_insert_eq. exact Hlt. }
  split; [|split; [|auto]].
  - unfold s3. rewrite update_cells, Hcell2.
    apply list_lookup_insert_eq. rewrite update_cells, length_insert. exact Hlt.
  - unfold s3. rewrite update_log, Hcell2, update_log, Hcell, <- app_assoc. reflexivity.
Qed.

(** ** renderAll *)

Lemma renderAll_fold P options l :
  ∀ acc, globalOptions acc.2 = options →
    let r := fold_left
               (λ (acc : list WidgetInstance * State) e,
                  let '(instance, st) := renderOne P e ∅ acc.2 in
                  (acc.1 ++ [instance], st)) l acc in
    element <$> r.1 = (element <$> acc.1) ++ l ∧ globalOptions r.2 = options.
Proof.
  induction l as [|e l IH]; intros acc Hacc; simpl.
  - rewrite app_nil_r. auto.
  - destruct (renderOne_fields P e ∅ acc.2) as (Hel & _ & _ & _ & _ & _ & Ho & _).
    rewrite (proj1 (force_unmount_rest e acc.2)) in Ho.
    destruct (renderOne P e ∅ acc.2) as [i s1]. simpl in Hel, Ho.
    destruct (IH (acc.1 ++ [i], s1)) as [H1 H2]; [simpl; congruence|].
    split; [|exact H2]. rewrite H1. simpl. rewrite fmap_app, <- app_assoc. simpl.
    rewrite Hel. reflexivity.
Qed.

(** ** The hook before the mount *)

Lemma renderOne_props P e ov st :
  let st0 := force_unmount e st in
  props (renderOne P e ov st).1 =
  match onBeforeMount (globalOptions st0) with
  | Some hook => default (collected P e ov st0) (hook e (collected P e ov st0))
  | None => collected P e ov st0
  end.
Proof.
  cbv zeta. unfold collected, renderOne.
  generalize (force_unmount e st). intros st0.
  destruct (collectProps P (host_data st0 e)
              (spread (defaultProps (globalOptions st0)) ov)) as [c w].
  destruct (onBeforeMount (globalOptions st0)) as [hook|]; cbn [fst default];
    [destruct (hook e c) as [modified|]|];
    destruct (clean (globalOptions st0));
    destruct (shadowRoot (globalOptions st0));
    destruct (lazy (globalOptions st0));
    destruct (onMounted (globalOptions st0));
    reflexivity.
Qed.

Lemma collected_force_unmount P e ov st :
  collected P e ov (force_unmount e st) = collected P e ov st.
Proof.
  destruct (force_unmount_rest e st) as (Ho & _ & _ & _ & Hd & _).
  unfold collected, host_data. rewrite Ho, Hd. reflexivity.
Qed.

(** X25: what [onBeforeMount] returns replaces the collected properties
    as a whole.  When the hook returns a property set, the instance, its
    vnode and the captured variable hold exactly that set, and nothing of
    what was collected from the markup, the defaults or the overrides is
    merged into it; when it returns nothing, or no hook is set, they hold
    the collected properties. *)
Theorem onBeforeMount_replaces P st e ov :
  let i := (renderOne P e ov st).1 in
  let s1 := (renderOne P e ov st).2 in
  (∀ hook modified,
     onBeforeMount (globalOptions st) = Some hook →
     hook e (collected P e ov st) = Some modified →
     props i = modified) ∧
  (∀ hook,
     onBeforeMount (globalOptions st) = Some hook →
     hook e (collected P e ov st) = None →
     props i = collected P e ov st) ∧
  (onBeforeMount (globalOptions st) = None → props i = collected P e ov st) ∧
  (vnode <$> metas s1 !! e) = Some {| vprops := props i |} ∧
  cells s1 !! cl_props (env i) = Some (props i).
Proof.
  intros i s1. pose proof (renderOne_props P e ov st) as Hp. cbv zeta in Hp.
  rewrite collected_force_unmount, (proj1 (force_unmount_rest e st)) in Hp.
  fold i in Hp.
  split; [|split; [|split; [|split]]].
  - intros hook modified Hh Hm. rewrite Hp, Hh, Hm. reflexivity.
  - intros hook Hh Hm. rewrite Hp, Hh, Hm. reflexivity.
  - intros Hh. rewrite Hp, Hh. reflexivity.
  - destruct (renderOne_fields P e ov st) as (_ & _ & _ & _ & Hm & _).
    fold s1 i in Hm. rewrite Hm, lookup_insert_eq. reflexivity.
  - destruct (mounted_cell P e ov st) as [Hcell Hlt]. fold s1 i in Hcell, Hlt.
    rewrite <- Hcell. apply list_lookup_lookup_total, lookup_lt_is_Some. exact Hlt.
Qed.

Lemma onBeforeMount_replaces_witness :
  props (renderOne RefPlatform.ref 0 ∅
           (configured RefPlatform.ref with_replacement counter_page)).1 = count_is 5.
Proof.
  apply (proj1 (onBeforeMount_replaces RefPlatform.ref
                  (configured RefPlatform.ref with_replacement counter_page) 0 ∅)
           (λ _ _, Some (count_is 5)) (count_is 5)); reflexivity.
Defined.

(** ** Cleaning *)





End LifecycleMoreProofs.

(* ===================================================================== *)
(** * Calls that throw: what holds when a call returns                    *)
(* ===================================================================== *)

Module PlatformErrorsProofs.

Import PropExtractor PlatformErrors Lifecycle LifecycleViews.
Import LifecycleProofs LifecycleMoreProofs.
Local Open Scope list_scope.
Local Open Scope nat_scope.

(** ** A function that returns, returns what [Lifecycle] gives *)

Lemma bind_returned {A B} (o : Outcome A) (k : A → Outcome B) (b : B) :
  o ≫= k = Returned b → ∃ a, o = Returned a ∧ k a = Returned b.
Proof. destruct o as [a|ev st]; simpl; [eauto|discriminate]. Qed.

Lemma ask_returned L ev st s : ask L ev st = Returned s → s = emit_log [ev] st.
Proof.
  unfold ask. destruct (throws L st ev); [discriminate|].
  intros H. injection H as <-. reflexivity.
Qed.

Lemma ask_lenient L ev st :
  (∀ st ev, throws L st ev = false) → ask L ev st = Returned (emit_log [ev] st).
Proof. intros H. unfold ask. rewrite H. reflexivity. Qed.

Lemma unmount_returned L c st s :
  PlatformErrors.unmount L c st = Returned s → s = unmount c st.
Proof.
  unfold PlatformErrors.unmount, unmount. intros H.
  apply bind_returned in H as (s1 & H1 & H). apply ask_returned in H1 as ->.
  apply bind_returned in H as (s2 & H2 & H).
  injection H as <-. cbn [globalOptions set_metas emit_log] in H2 |- *.
  destruct (onUnmount (globalOptions st)).
  - apply ask_returned in H2 as ->. reflexivity.
  - injection H2 as <-. reflexivity.
Qed.

Lemma update_returned L c newProps st s :
  PlatformErrors.update L c newProps st = Returned s → s = update c newProps st.
Proof.
  unfold PlatformErrors.update. intros H. apply ask_returned in H as ->. reflexivity.
Qed.

Lemma force_unmount_returned L e st s :
  PlatformErrors.force_unmount L e st = Returned s → s = force_unmount e st.
Proof.
  unfold PlatformErrors.force_unmount, force_unmount.
  destruct (metas st !! e).
  - apply unmount_returned.
  - intros H. injection H as <-. reflexivity.
Qed.

Lemma renderOne_returned L P e ov st i s :
  PlatformErrors.renderOne L P e ov st = Returned (i, s) →
  renderOne P e ov st = (i, s).
Proof.
  unfold PlatformErrors.renderOne. intros H.
  apply bind_returned in H as (st0 & H0 & H).
  apply force_unmount_returned in H0 as ->.
  revert H. unfold renderOne. generalize (force_unmount e st). intros st0.
  unfold PlatformErrors.attachShadow, ask, mbind, outcome_bind, mret, outcome_ret.
  destruct (collectProps P (host_data st0 e)
              (spread (defaultProps (globalOptions st0)) ov)) as [collected w].
  destruct (onBeforeMount (globalOptions st0)) as [hook|];
    [destruct (hook e collected) as [modified|]|];
    destruct (clean (globalOptions st0));
    destruct (shadowRoot (globalOptions st0));
    destruct (lazy (globalOptions st0));
    destruct (onMounted (globalOptions st0));
    simpl;
    repeat match goal with
           | |- context [throws L ?x ?ev] => destruct (throws L x ev); simpl
           end;
    intros H; try discriminate; injection H as <- <-; reflexivity.
Qed.

Lemma unmount_lenient L c st :
  (∀ st ev, throws L st ev = false) →
  PlatformErrors.unmount L c st = Returned (unmount c st).
Proof.
  intros Hq. unfold PlatformErrors.unmount, unmount.
  rewrite ask_lenient by exact Hq. simpl.
  destruct (onUnmount (globalOptions st)); simpl; [|reflexivity].
  rewrite ask_lenient by exact Hq. reflexivity.
Qed.

Lemma fold_threw {A B} (f : Outcome A → B → Outcome A) (l : list B) ev st :
  (∀ x ev st, f (Threw ev st) x = Threw ev st) →
  fold_left f l (Threw ev st) = Threw ev st.
Proof.
  intros Hf. induction l as [|x l IH]; simpl; [reflexivity|].
  rewrite Hf. exact IH.
Qed.

Lemma unmountAll_fold_returned L (l : list WidgetInstance) :
  ∀ st s,
    fold_left (λ (acc : Outcome State) i, st ← acc; PlatformErrors.unmount L (env i) st)
              l (Returned st) = Returned s →
    s = fold_left (λ st i, unmount (env i) st) l st.
Proof.
  induction l as [|i l IH]; intros st s H; simpl in *.
  - injection H as <-. reflexivity.
  - destruct (PlatformErrors.unmount L (env i) st) as [s1|ev s1] eqn:E.
    + apply unmount_returned in E as ->. apply IH. exact H.
    + rewrite fold_threw in H by reflexivity. discriminate.
Qed.

Lemma unmountAll_returned L st s :
  PlatformErrors.unmountAll L st = Returned s → s = unmountAll st.
Proof. apply unmountAll_fold_returned. Qed.

Lemma renderAll_fold_returned L P (l : list Element) :
  ∀ acc r s,
    fold_left
      (λ (acc : Outcome (list WidgetInstance * State)) e,
         '(newInstances, st) ← acc;
         '(instance, st) ← PlatformErrors.renderOne L P e ∅ st;
         mret (newInstances ++ [instance], st))
      l (Returned acc) = Returned (r, s) →
    fold_left
      (λ (acc : list WidgetInstance * State) e,
         let '(instance, st) := renderOne P e ∅ acc.2 in
         (acc.1 ++ [instance], st))
      l acc = (r, s).
Proof.
  induction l as [|e l IH]; intros [news st] r s H; simpl in *.
  - injection H as <- <-. reflexivity.
  - destruct (PlatformErrors.renderOne L P e ∅ st) as [[i s1]|ev s1] eqn:E; simpl in H.
    + apply renderOne_returned in E. rewrite E. apply IH. exact H.
    + rewrite fold_threw in H by reflexivity. discriminate.
Qed.

Lemma renderAll_returned L P options st r s :
  PlatformErrors.renderAll L P options st = Returned (r, s) →
  renderAll P options st = (r, s).
Proof.
  unfold PlatformErrors.renderAll, renderAll.
  destruct (truthy (tagName options)).
  - unfold PlatformErrors.registerCustomElement, registerCustomElement.
    destruct (bool_decide _); simpl.
    + intros H. injection H as <- <-. reflexivity.
    + unfold ask. destruct (throws L _ _); simpl; [discriminate|].
      intros H. injection H as <- <-. reflexivity.
  - apply renderAll_fold_returned.
Qed.

(** ** Remounting with a shadow root *)

(** C5: the code breaks the claim when isolation is requested.  With
    [shadowRoot: true] the first [renderOne] on an element returns and
    leaves one instance in the registry.  The second [renderOne] on the
    same element warns, calls the stored [unmount] of the first
    instance, and then throws at [attachShadow], because the element
    already hosts the shadow tree of the first mount: the call does not
    return, and it leaves the registry empty and the element without
    metadata, not with exactly one live instance. *)
Theorem remount_with_shadow_throws :
  thrown shadow_mount = None ∧
  length (instances (state_after shadow_mount)) = 1 ∧
  cl_root <$> (meta_unmount <$> metas (state_after shadow_mount) !! 0) =
    Some (ShadowRoot 0 {| mode := ModeOpen |} 0) ∧
  thrown shadow_remount = Some (CallAttachShadow 0 {| mode := ModeOpen |}) ∧
  instances (state_after shadow_remount) = [] ∧
  metas (state_after shadow_remount) !! 0 = None ∧
  log (state_after shadow_remount) =
    [CallAttachShadow 0 {| mode := ModeOpen |};
     CallRender (Some {| vprops := ∅ |}) (ShadowRoot 0 {| mode := ModeOpen |} 0);
     Warn AlreadyMounted;
     CallRender None (ShadowRoot 0 {| mode := ModeOpen |} 0)].
Proof.
  split; [vm_compute; reflexivity|]. split; [vm_compute; reflexivity|].
  split; [vm_compute; reflexivity|]. split; [vm_compute; reflexivity|].
  split; [vm_compute; reflexivity|]. split; vm_compute; reflexivity.
Qed.

(** When the second mount returns (as it does when no shadow root is
    asked for and nothing else throws), the element has exactly one
    instance, the second, and the registry is as long as after the
    first mount. *)
Lemma remount_that_returns L P st e ov1 ov2 i1 s1 i2 s2 :
  consistent st →
  PlatformErrors.renderOne L P e ov1 st = Returned (i1, s1) →
  PlatformErrors.renderOne L P e ov2 s1 = Returned (i2, s2) →
  live_on e s1 = [i1] ∧
  live_on e s2 = [i2] ∧
  length (instances s2) = length (instances s1).
Proof.
  intros Hc H1 H2.
  apply renderOne_returned in H1. apply renderOne_returned in H2.
  pose proof (consistent_renderOne P e ov1 st Hc) as Hc1.
  pose proof (renderOne_live P e ov1 st Hc) as Hl1.
  rewrite H1 in Hc1, Hl1. simpl in Hc1, Hl1.
  pose proof (renderOne_live P e ov2 s1 Hc1) as Hl2.
  rewrite H2 in Hl2. simpl in Hl2.
  split; [exact Hl1|]. split; [exact Hl2|].
  destruct (renderOne_fields P e ov2 s1) as (_ & _ & _ & Hi2 & _).
  rewrite H2 in Hi2. simpl in Hi2.
  destruct (force_unmount_frees e s1 Hc1) as [_ Hfree].
  pose proof (one_per_host _ (consistent_force_unmount e s1 Hc1) e) as Hone.
  rewrite Hi2, length_app. simpl.
  assert (Hlen : length (instances (force_unmount e s1)) + 1 = length (instances s1)).
  { assert (Hm : is_Some (metas s1 !! e)).
    { pose proof (one_per_host s1 Hc1 e) as H. rewrite Hl1 in H.
      destruct (metas s1 !! e); [eauto|discriminate]. }
    destruct Hm as [m Hm]. unfold force_unmount. rewrite Hm.
    rewrite unmount_instances. simpl.
    rewrite (meta_closure s1 Hc1 e m Hm). apply remove_first_present.
    unfold live_on in Hl1. rewrite Hl1. discriminate. }
  lia.
Qed.

(** ** A lazy mount does its bookkeeping at once *)



(** ** The registry counts the metadata *)

(** X19: the calls of a habitat keep its registry and the metadata in
    step.  If the registry is as long as the number of elements that
    carry metadata, and an element carries metadata exactly when the
    registry holds one instance on it, then the same holds after a call
    of [renderOne], of an instance's [unmount] or [update], or of
    [unmountAll], provided the call returns (and, as throughout, no
    hook calls back into the habitat while it runs). *)
Theorem registry_counts_metadata L P st :
  consistent st → counted st →
  (∀ e, is_Some (metas st !! e) ↔ ∃ i, i ∈ instances st ∧ element i = e) ∧
  (∀ e ov i s, PlatformErrors.renderOne L P e ov st = Returned (i, s) →
               consistent s ∧ counted s) ∧
  (∀ c s, PlatformErrors.unmount L c st = Returned s → consistent s ∧ counted s) ∧
  (∀ c newProps s, PlatformErrors.update L c newProps st = Returned s →
                   consistent s ∧ counted s) ∧
  (∀ s, PlatformErrors.unmountAll L st = Returned s → consistent s ∧ counted s).
Proof.
  intros Hc Hn.
  split; [intros e; apply metadata_iff_instance; exact Hc|].
  split; [|split; [|split]].
  - intros e ov i s H. apply renderOne_returned in H.
    pose proof (consistent_renderOne P e ov st Hc) as H1.
    pose proof (counted_renderOne P e ov st Hc Hn) as H2.
    rewrite H in H1, H2. auto.
  - intros c s H. apply unmount_returned in H as ->.
    split; [apply consistent_unmount|apply counted_unmount]; assumption.
  - intros c newProps s H. apply update_returned in H as ->.
    split; [apply (consistent_same_registry st); auto|exact Hn].
  - intros s H. apply unmountAll_returned in H as ->.
    split; [apply consistent_unmountAll; exact Hc|].
    apply (counted_apply P OpUnmountAll); assumption.
Qed.

Lemma registry_counts_metadata_witness :
  counted (unmount (env hooked_mount.1) hooked_mount.2).
Proof.
  assert (Hc : consistent hooked_mount.2)
    by (apply (reachable_consistent RefPlatform.ref), hooked_mount_reachable).
  assert (Hn : counted hooked_mount.2) by (vm_compute; reflexivity).
  assert (Hr : PlatformErrors.unmount lenient (env hooked_mount.1) hooked_mount.2 =
               Returned (unmount (env hooked_mount.1) hooked_mount.2))
    by (vm_compute; reflexivity).
  exact (proj2 (proj1 (proj2 (proj2
           (registry_counts_metadata lenient RefPlatform.ref hooked_mount.2 Hc Hn)))
           _ _ Hr)).
Defined.

(** ** A handle that has gone stale *)

(** X20: [unmount] goes by the host element, not by the instance.  When
    an element is mounted a second time and both mounts return, the
    handle of the first instance still works on the element: its
    [unmount], when it returns, has rendered the empty tree into the
    first root, cleared the metadata of the second instance and taken
    the second instance out of the registry. *)
Theorem stale_unmount_removes_successor L P st e ov1 ov2 i1 s1 i2 s2 s3 :
  consistent st →
  PlatformErrors.renderOne L P e ov1 st = Returned (i1, s1) →
  PlatformErrors.renderOne L P e ov2 s1 = Returned (i2, s2) →
  PlatformErrors.unmount L (env i1) s2 = Returned s3 →
  i2 ∈ instances s2 ∧
  (i2 ∉ instances s3) ∧
  live_on e s3 = [] ∧
  metas s3 !! e = None ∧
  length (instances s3) + 1 = length (instances s2) ∧
  log s3 = log s2 ++ unmount_effects (onUnmount (globalOptions st)) i1.
Proof.
  intros Hc H1 H2 H3.
  apply renderOne_returned in H1. apply renderOne_returned in H2.
  apply unmount_returned in H3 as ->.
  pose proof (stale_unmount_fields P st e ov1 ov2 Hc) as H.
  cbv zeta in H. rewrite H1 in H. simpl in H. rewrite H2 in H. exact H.
Qed.

Lemma stale_unmount_removes_successor_witness :
  metas (unmount (env hooked_mount.1)
           (renderOne RefPlatform.ref 0 ∅ hooked_mount.2).2) !! 0 = None.
Proof.
  assert (Hc : consistent (configured RefPlatform.ref with_hooks blank_page))
    by (apply (reachable_consistent RefPlatform.ref), configured_reachable).
  assert (H1 : PlatformErrors.renderOne lenient RefPlatform.ref 0 ∅
                 (configured RefPlatform.ref with_hooks blank_page) =
               Returned (hooked_mount.1, hooked_mount.2)) by (vm_compute; reflexivity).
  assert (H2 : PlatformErrors.renderOne lenient RefPlatform.ref 0 ∅ hooked_mount.2 =
               Returned ((renderOne RefPlatform.ref 0 ∅ hooked_mount.2).1,
                         (renderOne RefPlatform.ref 0 ∅ hooked_mount.2).2))
    by (vm_compute; reflexivity).
  assert (H3 : PlatformErrors.unmount lenient (env hooked_mount.1)
                 (renderOne RefPlatform.ref 0 ∅ hooked_mount.2).2 =
               Returned (unmount (env hooked_mount.1)
                           (renderOne RefPlatform.ref 0 ∅ hooked_mount.2).2))
    by (vm_compute; reflexivity).
  exact (proj1 (proj2 (proj2 (proj2
           (stale_unmount_removes_successor lenient RefPlatform.ref _ 0 ∅ ∅
              _ _ _ _ _ Hc H1 H2 H3))))).
Defined.

(** ** renderAll *)

Lemma filter_all {A} (f : A → bool) (l : list A) :
  (∀ x, x ∈ l → f x = true) → List.filter f l = l.
Proof.
  induction l as [|x l IH]; intros H; simpl; [reflexivity|].
  rewrite (H x) by left. rewrite IH; [reflexivity|].
  intros y Hy. apply H. right. exact Hy.
Qed.

Lemma filter_none {A} (f : A → bool) (l : list A) :
  (∀ x, x ∈ l → f x = false) → List.filter f l = [].
Proof.
  induction l as [|x l IH]; intros H; simpl; [reflexivity|].
  rewrite (H x) by left. apply IH.
  intros y Hy. apply H. right. exact Hy.
Qed.

Lemma filter_empty_negb {A} (f : A → bool) (l : list A) :
  List.filter f l = [] → List.filter (λ x, negb (f x)) l = l.
Proof.
  induction l as [|x l IH]; simpl; [reflexivity|].
  destruct (f x); [discriminate|]. simpl. intros H. rewrite IH by exact H. reflexivity.
Qed.

Lemma filter_twice {A} (f g : A → bool) (l : list A) :
  List.filter f (List.filter g l) = List.filter (λ x, g x && f x) l.
Proof.
  induction l as [|x l IH]; simpl; [reflexivity|].
  destruct (g x); simpl; [|exact IH].
  destruct (f x); rewrite IH; reflexivity.
Qed.

Lemma among_false l e : among l e = false ↔ e ∉ l.
Proof.
  unfold among. induction l as [|x l IH]; simpl.
  - split; [intros _ H; inversion H|reflexivity].
  - rewrite orb_false_iff, IH, Nat.eqb_neq, not_elem_of_cons. reflexivity.
Qed.

(** The stored [unmount] takes the one instance on the element out of
    the registry. *)
Lemma remove_first_filter e l :
  length (List.filter (λ i, Nat.eqb (element i) e) l) ≤ 1 →
  remove_first e l = List.filter (λ i, negb (Nat.eqb (element i) e)) l.
Proof.
  induction l as [|i l IH]; simpl; [reflexivity|].
  destruct (Nat.eqb (element i) e) eqn:E; simpl.
  - intros H. symmetry. apply filter_empty_negb.
    destruct (List.filter _ l); [reflexivity|simpl in H; lia].
  - intros H. rewrite IH by exact H. reflexivity.
Qed.

Lemma force_unmount_instances e st :
  consistent st →
  instances (force_unmount e st) =
  List.filter (λ i, negb (Nat.eqb (element i) e)) (instances st).
Proof.
  intros Hc. pose proof (one_per_host st Hc e) as Hl. unfold live_on in Hl.
  unfold force_unmount. destruct (metas st !! e) as [m|] eqn:E.
  - rewrite unmount_instances. simpl. rewrite (meta_closure st Hc e m E).
    apply remove_first_filter. lia.
  - symmetry. apply filter_empty_negb.
    destruct (List.filter _ (instances st)); [reflexivity|discriminate].
Qed.

Lemma force_unmount_metas e st :
  consistent st → metas (force_unmount e st) = delete e (metas st).
Proof.
  intros Hc. unfold force_unmount. destruct (metas st !! e) as [m|] eqn:E.
  - rewrite unmount_metas. simpl. rewrite (meta_closure st Hc e m E). reflexivity.
  - symmetry. apply delete_id. exact E.
Qed.

Lemma force_unmount_renders e st :
  ∃ new, log (force_unmount e st) = log st ++ new ∧
         List.filter is_component_render new = [].
Proof.
  rewrite force_unmount_log. eexists. split; [reflexivity|].
  destruct (metas st !! e); [|reflexivity].
  destruct (onUnmount (globalOptions st)); reflexivity.
Qed.

Lemma no_render_filter (l : list Effect) :
  forallb (λ ev, negb (is_component_render ev)) l = true →
  List.filter is_component_render l = [].
Proof.
  induction l as [|ev l IH]; simpl; [reflexivity|].
  destruct (is_component_render ev); simpl; [discriminate|exact IH].
Qed.

(** The loop of [render]: each host element in turn gets the stored
    [unmount] of its prior instance called, if it has one, and then a
    new instance, its metadata and, unless the mount is lazy, one
    render. *)
Lemma mount_hosts P options (l : list Element) :
  ∀ acc st,
    consistent st → globalOptions st = options → NoDup l →
    let res :=
      fold_left
        (λ (acc : list WidgetInstance * State) e,
           let '(instance, st) := renderOne P e ∅ acc.2 in
           (acc.1 ++ [instance], st))
        l (acc, st) in
    ∃ news new,
      res.1 = acc ++ news ∧
      element <$> news = l ∧
      instances res.2 =
        List.filter (λ i, negb (among l (element i))) (instances st) ++ news ∧
      (∀ i, i ∈ news → metas res.2 !! element i = Some (meta_of i)) ∧
      (∀ e, among l e = false → metas res.2 !! e = metas st !! e) ∧
      globalOptions res.2 = options ∧
      log res.2 = log st ++ new ∧
      (lazy options = LazyOff →
         List.filter is_component_render new = first_render (hydrate options) <$> news) ∧
      (lazy options ≠ LazyOff → List.filter is_component_render new = []).
Proof.
  induction l as [|e l IH]; intros acc st Hc Ho Hnd; cbv zeta.
  - exists [], []. simpl. rewrite !app_nil_r.
    split; [reflexivity|]. split; [reflexivity|].
    split; [symmetry; apply filter_all; reflexivity|].
    split; [intros i Hi; inversion Hi|]. auto.
  - apply NoDup_cons in Hnd as [Hnotin Hnd].
    simpl fold_left.
    destruct (renderOne_fields P e ∅ st) as (Hel & _ & _ & Hi & Hm & _ & Hgo & _).
    pose proof (consistent_renderOne P e ∅ st Hc) as Hc1.
    destruct (force_unmount_rest e st) as (Hgo0 & _).
    destruct (force_unmount_renders e st) as (new0 & Hlog0 & Hnone0).
    assert (Hlog1 : ∃ new1,
              log (renderOne P e ∅ st).2 = log (force_unmount e st) ++ new1 ∧
              (lazy options = LazyOff →
                 List.filter is_component_render new1 =
                 [first_render (hydrate options) (renderOne P e ∅ st).1]) ∧
              (lazy options ≠ LazyOff → List.filter is_component_render new1 = [])).
    { destruct (lazy options) eqn:Elazy.
      - destruct (renderOne_eager P e ∅ st) as (_ & new1 & Hl1 & Hf1);
          [rewrite Hgo0, Ho; exact Elazy|].
        exists new1. split; [exact Hl1|]. split; [|congruence].
        intros _. rewrite Hf1, Hgo0, Ho. reflexivity.
      - destruct (renderOne_lazy P e ∅ st) as (_ & new1 & Hl1 & Hf1 & _);
          [rewrite Hgo0, Ho, Elazy; discriminate|].
        exists new1. split; [exact Hl1|]. split; [discriminate|].
        intros _. apply no_render_filter. exact Hf1.
      - destruct (renderOne_lazy P e ∅ st) as (_ & new1 & Hl1 & Hf1 & _);
          [rewrite Hgo0, Ho, Elazy; discriminate|].
        exists new1. split; [exact Hl1|]. split; [discriminate|].
        intros _. apply no_render_filter. exact Hf1. }
    destruct Hlog1 as (new1 & Hlog1 & Heager1 & Hlazy1).
    rewrite (force_unmount_instances e st Hc) in Hi.
    rewrite (force_unmount_metas e st Hc) in Hm.
    destruct (renderOne P e ∅ st) as [i s1]. simpl in Hel, Hi, Hm, Hgo, Hc1, Hlog1, Heager1.
    change (acc, st).1 with acc. change (acc, st).2 with st.
    destruct (IH (acc ++ [i]) s1 Hc1) as
      (news & new & H1 & H2 & H3 & H4 & H5 & H6 & H7 & H8 & H9);
      [congruence|exact Hnd|].
    exists (i :: news), (new0 ++ new1 ++ new).
    split; [rewrite H1, <- app_assoc; reflexivity|].
    split; [rewrite fmap_cons, Hel, H2; reflexivity|].
    split.
    { rewrite H3, Hi, List.filter_app, filter_twice. simpl.
      rewrite Hel. apply among_false in Hnotin as Hfalse. rewrite Hfalse. simpl.
      rewrite <- app_assoc. simpl. f_equal.
      apply filter_ext. intros x. unfold among. simpl.
      rewrite negb_orb. reflexivity. }
    split.
    { intros j Hj. apply elem_of_cons in Hj as [->|Hj]; [|apply H4; exact Hj].
      rewrite Hel, H5 by (apply among_false; exact Hnotin).
      rewrite Hm, lookup_insert_eq. reflexivity. }
    split.
    { intros e' He'. unfold among in He'. simpl in He'.
      apply orb_false_iff in He' as [Hne He']. apply Nat.eqb_neq in Hne.
      rewrite H5 by exact He'.
      rewrite Hm, lookup_insert_ne, lookup_delete_ne by congruence. reflexivity. }
    split; [exact H6|].
    split; [rewrite H7, Hlog1, Hlog0, <- !app_assoc; reflexivity|].
    split.
    + intros Hl. rewrite !List.filter_app, Hnone0, (Heager1 Hl), (H8 Hl). reflexivity.
    + intros Hl. rewrite !List.filter_app, Hnone0, (Hlazy1 Hl), (H9 Hl). reflexivity.
Qed.

(** X23: without a tag name, a [render] that returns has made the
    options current and mounted one instance onto each host element that
    [findHostElements] gives, in that order.  On a registry that agrees
    with the metadata, and with the host elements all different: the
    instances it returns sit on exactly those elements; the registry is
    what it was without the prior instances of those elements, followed
    by the returned instances; each returned instance has its metadata
    on its element, and the other elements keep theirs; and, unless the
    mount is lazy, the call has rendered the component once for each
    returned instance, in order, and not rendered it at all when the
    mount is lazy. *)
Theorem renderAll_mounts_each_host L P options st r s :
  PlatformErrors.renderAll L P options st = Returned (r, s) →
  truthy (tagName options) = false →
  consistent st →
  NoDup (findHostElements options (document st)) →
  element <$> r = findHostElements options (document st) ∧
  globalOptions s = options ∧
  instances s =
    List.filter
      (λ i, negb (among (findHostElements options (document st)) (element i)))
      (instances st) ++ r ∧
  (∀ i, i ∈ r → metas s !! element i = Some (meta_of i)) ∧
  (∀ e, among (findHostElements options (document st)) e = false →
        metas s !! e = metas st !! e) ∧
  ∃ new,
    log s = log st ++ new ∧
    (lazy options = LazyOff →
       List.filter is_component_render new = first_render (hydrate options) <$> r) ∧
    (lazy options ≠ LazyOff → List.filter is_component_render new = []).
Proof.
  intros Hr Ht Hc Hnd. apply renderAll_returned in Hr.
  unfold renderAll in Hr. rewrite Ht in Hr.
  change (document (set_options options st)) with (document st) in Hr.
  destruct (mount_hosts P options (findHostElements options (document st))
              [] (set_options options st))
    as (news & new & H1 & H2 & H3 & H4 & H5 & H6 & H7 & H8 & H9);
    [apply (consistent_same_registry st); auto|reflexivity|exact Hnd|].
  rewrite Hr in H1, H3, H4, H5, H6, H7. simpl in H1, H3, H4, H5, H6, H7.
  subst r.
  split; [exact H2|]. split; [exact H6|]. split; [exact H3|].
  split; [exact H4|]. split; [exact H5|]. eauto.
Qed.

Lemma renderAll_mounts_each_host_witness :
  element <$> (renderAll RefPlatform.ref with_selector (initial two_hosts)).1 = [0; 1] ∧
  length (instances (renderAll RefPlatform.ref with_selector (initial two_hosts)).2) = 2.
Proof.
  assert (Hr : PlatformErrors.renderAll lenient RefPlatform.ref with_selector
                 (initial two_hosts) =
               Returned ((renderAll RefPlatform.ref with_selector (initial two_hosts)).1,
                         (renderAll RefPlatform.ref with_selector (initial two_hosts)).2))
    by (vm_compute; reflexivity).
  assert (Hnd : NoDup (findHostElements with_selector (document (initial two_hosts)))).
  { vm_compute. repeat constructor; intros H; repeat (inversion H; subst; clear H);
      match goal with H : _ ∈ _ |- _ => inversion H end. }
  pose proof (renderAll_mounts_each_host lenient RefPlatform.ref with_selector
                (initial two_hosts) _ _ Hr eq_refl (consistent_initial two_hosts) Hnd)
    as (H1 & _ & H3 & _).
  split; [exact H1|]. rewrite H3. vm_compute. reflexivity.
Defined.

(** ** Registering the element type *)

(** X24: with a tag name, [render] mounts nothing.  When the tag is
    already registered it defines nothing: it returns the registry as it
    is, leaves registry, metadata and the set of registered tags alone,
    and only logs the warning; no call it makes can throw.  When it
    returns after a registration, it has returned the registry, left
    registry and metadata alone, and the tag is registered. *)
Theorem renderAll_registers_once L P options st :
  truthy (tagName options) = true →
  (default EmptyString (tagName options) ∈ customElements st →
   PlatformErrors.renderAll L P options st =
     Returned (instances st,
               emit_log [Warn (AlreadyRegistered (default EmptyString (tagName options)))]
                        (set_options options st))) ∧
  (∀ r s,
     PlatformErrors.renderAll L P options st = Returned (r, s) →
     r = instances st ∧ instances s = instances st ∧ metas s = metas st ∧
     globalOptions s = options ∧
     default EmptyString (tagName options) ∈ customElements s).
Proof.
  intros Ht. unfold PlatformErrors.renderAll. rewrite Ht.
  unfold PlatformErrors.registerCustomElement.
  change (customElements (set_options options st)) with (customElements st).
  split.
  - intros Hin. rewrite bool_decide_eq_true_2 by exact Hin. reflexivity.
  - intros r s.
    destruct (bool_decide (default EmptyString (tagName options) ∈ customElements st))
      eqn:E; simpl.
    + apply bool_decide_eq_true in E. intros H. injection H as <- <-. auto.
    + unfold ask. destruct (throws L _ _); simpl; [discriminate|].
      intros H. injection H as <- <-. simpl.
      split; [reflexivity|]. split; [reflexivity|]. split; [reflexivity|].
      split; [reflexivity|]. left.
Qed.

Lemma renderAll_registers_once_witness :
  thrown (PlatformErrors.renderAll lenient RefPlatform.ref with_tag
            (renderAll RefPlatform.ref with_tag hooked_mount.2).2) = None.
Proof.
  rewrite (proj1 (renderAll_registers_once lenient RefPlatform.ref with_tag
                    (renderAll RefPlatform.ref with_tag hooked_mount.2).2 eq_refl)).
  - reflexivity.
  - vm_compute. apply list_elem_of_here.
Defined.

End PlatformErrorsProofs.

(* ===================================================================== *)
(** * More on the extractor                                               *)
(* ===================================================================== *)

Module PropExtractorMoreProofs.

Import PropExtractor Readings PropExtractorProofs.
Local Open Scope list_scope.

(** X27: the strings that [camelCase] leaves unchanged are exactly those
    without a hyphen directly before a letter, so a name that is already
    in hump form is stable; and the conversion never makes a string
    longer. *)
Theorem camelCase_fixed_points s :
  (camelCase s = s ↔ hyphen_letter s = false) ∧
  (String.length (camelCase s) <= String.length s)%nat.
Proof.
  split; [|apply camelCase_length]. split.
  - intros Heq. destruct (hyphen_letter s) eqn:E; [|reflexivity].
    apply camelCase_shrinks in E. rewrite Heq in E. lia.
  - apply camelCase_fixed.
Qed.

Lemma camelCase_fixed_points_witness : camelCase "priceTag" = "priceTag".
Proof. apply (proj1 (camelCase_fixed_points "priceTag")). reflexivity. Defined.

(** X28: what the coercion of the full build can give.  It never gives
    [undefined]; a string result is always the attribute value itself,
    unchanged; a boolean comes only from the exact text [true] or
    [false]; and a number is always [Number] of a non-empty value that
    is not NaN. *)
Theorem coerce_kinds P v :
  coerce P v ≠ VUndefined ∧
  (∀ s, coerce P v = VStr s → s = v) ∧
  (∀ b, coerce P v = VBool b → v = if b then "true" else "false") ∧
  (∀ n, coerce P v = VNum n →
        n = Number_ P v ∧ isNaN n = false ∧ v ≠ EmptyString).
Proof.
  unfold coerce.
  destruct (String.eqb v "true") eqn:Et.
  { apply String.eqb_eq in Et. repeat split; intros; try discriminate.
    match goal with H : VBool _ = VBool _ |- _ => injection H as <- end. exact Et. }
  destruct (String.eqb v "false") eqn:Ef.
  { apply String.eqb_eq in Ef. repeat split; intros; try discriminate.
    match goal with H : VBool _ = VBool _ |- _ => injection H as <- end. exact Ef. }
  destruct (String.eqb v "null") eqn:En.
  { repeat split; intros; discriminate. }
  destruct (negb (isNaN (Number_ P v)) && negb (String.eqb v EmptyString)) eqn:Enum.
  { apply andb_true_iff in Enum as [Hn He].
    apply negb_true_iff in Hn. apply negb_true_iff, String.eqb_neq in He.
    split; [discriminate|]. split; [intros; discriminate|].
    split; [intros; discriminate|].
    intros n H. injection H as <-. auto. }
  destruct (JSON_parse P v) as [[| | | | | |]|]; simpl;
    (split; [discriminate|]); (split; [intros raw H; congruence|]);
    split; intros; discriminate.
Qed.

Lemma coerce_kinds_witness :
  coerce RefPlatform.ref "hello" = VStr "hello" ∧ "hello" = "hello".
Proof.
  split; [vm_compute; reflexivity|].
  apply (proj1 (proj2 (coerce_kinds RefPlatform.ref "hello")) "hello").
  vm_compute. reflexivity.
Defined.

Lemma assign_is_Some key v (obj : Props) k :
  is_Some (assign key v obj !! k) ↔
  (key = k ∧ key ≠ "__proto__") ∨ is_Some (obj !! k).
Proof.
  unfold assign. destruct (String.eqb_spec key "__proto__") as [->|Hne].
  - split; [auto|]. intros [[_ H]|H]; [contradiction|exact H].
  - destruct (decide (key = k)) as [<-|Hk].
    + rewrite lookup_insert_eq. split; eauto.
    + rewrite lookup_insert_ne by assumption. split; [auto|].
      intros [[H _]|H]; [contradiction|exact H].
Qed.

Lemma attribute_keys P (attrs : list (string * string)) k :
  is_Some (fold_left
             (λ (props : Props) (attr : string * string),
                if String.prefix "data-prop-" (fst attr)
                then assign (camelCase (slice 10 (fst attr))) (coerce P (snd attr)) props
                else props) attrs ∅ !! k) ↔
  ∃ name val, (name, val) ∈ attrs ∧ String.prefix "data-prop-" name = true ∧
              k = camelCase (slice 10 name) ∧ k ≠ "__proto__".
Proof.
  induction attrs as [|[name val] attrs IH] using rev_ind.
  - simpl. rewrite lookup_empty. split.
    + intros [x Hx]. discriminate.
    + intros (n & v & Hin & _). inversion Hin.
  - rewrite fold_left_app. simpl.
    assert (Hold : (∃ n v, (n, v) ∈ attrs ∧ String.prefix "data-prop-" n = true ∧
                           k = camelCase (slice 10 n) ∧ k ≠ "__proto__") →
                   ∃ n v, (n, v) ∈ attrs ++ [(name, val)] ∧
                          String.prefix "data-prop-" n = true ∧
                          k = camelCase (slice 10 n) ∧ k ≠ "__proto__").
    { intros (n & v & Hin & Hrest). exists n, v. split; [|exact Hrest].
      apply elem_of_app. left. exact Hin. }
    destruct (String.prefix "data-prop-" name) eqn:Ep.
    + rewrite assign_is_Some, IH. split.
      * intros [[<- Hk]|H]; [|auto].
        exists name, val. split; [|auto].
        apply elem_of_app. right. apply list_elem_of_singleton. reflexivity.
      * intros (n & v & Hin & Hp & Hk & Hproto).
        apply elem_of_app in Hin as [Hin|Hin]; [right; eauto 10|].
        apply list_elem_of_singleton in Hin. injection Hin as -> ->.
        left. subst k. auto.
    + rewrite IH. split; [exact Hold|].
      intros (n & v & Hin & Hp & Hk). apply elem_of_app in Hin as [Hin|Hin].
      * eauto.
      * apply list_elem_of_singleton in Hin. injection Hin as -> ->. congruence.
Qed.

(** X29: the attribute-derived properties have exactly the keys that
    the recognised attributes assign: a key is present if and only if
    some attribute of the element starts with [data-prop-], the rest of
    its name converts to that key, and the key is not [__proto__] (an
    assignment to that key goes to the prototype setter and adds no own
    property).  An element without a recognised attribute gives no
    attribute-derived property at all. *)
Theorem recognised_attributes P element k :
  (is_Some (getPropsFromAttributes P element !! k) ↔
   ∃ name val, (name, val) ∈ attributes element ∧
               String.prefix "data-prop-" name = true ∧
               k = camelCase (slice 10 name) ∧
               k ≠ "__proto__") ∧
  getPropsFromAttributes P element !! "__proto__" = None ∧
  ((∀ name val, (name, val) ∈ attributes element →
                String.prefix "data-prop-" name = false) →
   getPropsFromAttributes P element = ∅).
Proof.
  split; [apply attribute_keys|]. split.
  - destruct (getPropsFromAttributes P element !! "__proto__") as [x|] eqn:E;
      [|reflexivity].
    assert (Hs : is_Some (getPropsFromAttributes P element !! "__proto__")) by eauto.
    apply attribute_keys in Hs as (n & val & _ & _ & _ & Hne). contradiction.
  - intros Hnone. apply map_empty. intros k'.
    destruct (getPropsFromAttributes P element !! k') as [x|] eqn:E; [|reflexivity].
    assert (Hs : is_Some (getPropsFromAttributes P element !! k')) by eauto.
    apply attribute_keys in Hs as (n & val & Hin & Hp & _).
    rewrite (Hnone n val Hin) in Hp. discriminate.
Qed.

Lemma recognised_attributes_witness :
  getPropsFromAttributes RefPlatform.ref
    {| attributes := [("class", "card"); ("id", "w1")]; childNodes := [] |} = ∅.
Proof.
  apply (proj2 (proj2 (recognised_attributes RefPlatform.ref
                  {| attributes := [("class", "card"); ("id", "w1")]; childNodes := [] |}
                  EmptyString))).
  intros name val Hin. apply list_elem_of_In in Hin. simpl in Hin.
  destruct Hin as [H|[H|[]]]; inversion H; reflexivity.
Defined.

Lemma scripts_fold P (l : list string) :
  ∀ acc : Props * list Diagnostic,
    fold_left
      (λ (acc : Props * list Diagnostic) (innerHTML : string),
         let content := trim innerHTML in
         if String.eqb content EmptyString then acc
         else
           let '(parsed, w) := safeJsonParse P content (VObj ∅) in
           (spread (fst acc) (ownProps parsed), (snd acc ++ w)%list))
      l acc =
    let cs := List.filter (λ c, negb (String.eqb c EmptyString)) (trim <$> l) in
    (fold_left (λ p v, spread p (ownProps v)) (omap (JSON_parse P) cs) acc.1,
     acc.2 ++ (JsonParseFailed <$> List.filter (λ c, negb (parses P c)) cs)).
Proof.
  induction l as [|h l IH]; intros [p w]; simpl.
  - rewrite app_nil_r. reflexivity.
  - destruct (String.eqb (trim h) EmptyString) eqn:E; simpl; [apply IH|].
    rewrite IH. unfold safeJsonParse, parses.
    destruct (JSON_parse P (trim h)) as [v|]; simpl.
    + rewrite app_nil_r. reflexivity.
    + unfold spread at 2. simpl. rewrite (left_id_L ∅ (∪)), <- app_assoc. reflexivity.
Qed.

(** X30: a malformed embedded data block is skipped and the others are
    still merged.  The script-derived properties are the parsed values
    of the non-empty blocks that parse, spread one over the other in
    document order; each non-empty block that does not parse adds
    nothing but one warning that carries its text. *)
Theorem malformed_blocks_are_skipped P element :
  (getPropsFromScripts P element).1 =
    fold_left (λ p v, spread p (ownProps v))
              (omap (JSON_parse P) (contents element)) ∅ ∧
  (getPropsFromScripts P element).2 =
    JsonParseFailed <$> List.filter (λ c, negb (parses P c)) (contents element).
Proof.
  unfold getPropsFromScripts, contents. rewrite scripts_fold. simpl. auto.
Qed.

End PropExtractorMoreProofs.
